(** * Answer reconciliation and request orchestration: a Rocq model

    A shallow embedding of the exam-answer server (parser, model invoker,
    ensemble voting with a judge, confidence-weighted voting, dedup cache,
    in-flight coalescer and request queue) and of the choice of the move
    in the chess server, and the proofs of their properties.

    Conventions of the embedding:
    - text is a [string] of ASCII characters; the runtime's string methods
      (trim, toUpperCase, includes, ...) are modelled on that alphabet;
    - regular expressions are kept as syntax trees and run by a backtracking
      matcher with the priorities of the ECMAScript one (greedy and lazy
      stars, alternation left to right, leftmost match);
    - numbers are integers ([Z]); a JSON number literal is kept as the exact
      decimal [m * 10^e] it denotes;
    - calls to the model service, the clock and the waits of the retry loop
      are explicit inputs and outputs of the functions that perform them; an
      exception is the message of the [Error] thrown; console output is not
      part of the model;
    - the server runs one synchronous block at a time (run to completion):
      its runs are sequences of such blocks;
    - the body of a request is given by what the handler finds in it: an
      error on reading it, no prompt, or a prompt, with the key of the
      question (its identity) that the handler derives from it;
    - a tally is an object used as a map: it inherits the properties of
      every object, and a lookup finds them;
    - in the chess server, the legal moves that the chess library gives
      and the random index drawn are inputs of the choice of the move. *)

From Stdlib Require Import ZArith Lia List Bool Ascii String Sorted.
From stdpp Require Import base option list gmap strings.

Set Warnings "-register-all".

Local Open Scope string_scope.
Local Open Scope list_scope.
Local Open Scope Z_scope.

(** ** Characters and text *)

Module Text.

Definition chars (s : string) : list ascii := list_ascii_of_string s.
Definition text (l : list ascii) : string := string_of_list_ascii l.

Definition code (a : ascii) : nat := nat_of_ascii a.

Definition in_range (lo hi : nat) (a : ascii) : bool :=
  (lo <=? code a)%nat && (code a <=? hi)%nat.

Definition is_upper (a : ascii) : bool := in_range 65 90 a.
Definition is_lower (a : ascii) : bool := in_range 97 122 a.
Definition is_digit (a : ascii) : bool := in_range 48 57 a.

(** [\s] of a regular expression and the white space of [trim], on ASCII:
    tab, line feed, vertical tab, form feed, carriage return, space. *)
Definition is_space (a : ascii) : bool := in_range 9 13 a || (code a =? 32)%nat.

Definition upper_char (a : ascii) : ascii :=
  if is_lower a then ascii_of_nat (code a - 32) else a.
Definition lower_char (a : ascii) : ascii :=
  if is_upper a then ascii_of_nat (code a + 32) else a.

Definition eqc (a b : ascii) : bool := Ascii.eqb a b.
(** equality of characters under the [i] flag *)
Definition eqci (a b : ascii) : bool := Ascii.eqb (upper_char a) (upper_char b).

Definition toUpperCase (s : string) : string := text (map upper_char (chars s)).
Definition toLowerCase (s : string) : string := text (map lower_char (chars s)).

Fixpoint drop_space (l : list ascii) : list ascii :=
  match l with
  | a :: l' => if is_space a then drop_space l' else l
  | [] => []
  end.

Definition trim_chars (l : list ascii) : list ascii :=
  rev (drop_space (rev (drop_space l))).
Definition trim (s : string) : string := text (trim_chars (chars s)).

Fixpoint starts_with (p l : list ascii) : bool :=
  match p, l with
  | [], _ => true
  | a :: p', b :: l' => eqc a b && starts_with p' l'
  | _ :: _, [] => false
  end.

Fixpoint includes_chars (p l : list ascii) : bool :=
  starts_with p l ||
  match l with
  | [] => false
  | _ :: l' => includes_chars p l'
  end.

(** [s.includes(p)] *)
Definition includes (s p : string) : bool := includes_chars (chars p) (chars s).

(** [s.substring(0, n)] *)
Definition prefix (n : nat) (s : string) : string := text (firstn n (chars s)).

Definition len (s : string) : nat := String.length s.

(** falsy strings are the empty one *)
Definition truthy (s : string) : bool := negb (String.eqb s "").

(** the double quote character, as a one-character text *)
Definition dq : string := String (ascii_of_nat 34) "".
(** the line feed *)
Definition nl : string := String (ascii_of_nat 10) "".

End Text.

(** ** Regular expressions *)

Module Regex.
Import Text.

Inductive regex : Type :=
| Eps
| Chr (p : ascii -> bool)
| Seq (r1 r2 : regex)
| Alt (r1 r2 : regex)
| Star (greedy : bool) (r : regex)
| Grp (i : nat) (r : regex)
| Bol
| Eol.

Definition caps : Type := list (nat * list ascii).

Definition set_cap (i : nat) (v : list ascii) (c : caps) : caps :=
  (i, v) :: filter (fun e => negb (fst e =? i)%nat) c.

Fixpoint get_cap (i : nat) (c : caps) : option (list ascii) :=
  match c with
  | [] => None
  | (j, v) :: c' => if (j =? i)%nat then Some v else get_cap i c'
  end.

(** The backtracking matcher, in continuation-passing style: [k] is what
    remains to be matched after [r].  A starred expression never iterates
    on an empty match, as in ECMAScript, so [S (length s)] rounds suffice. *)
Fixpoint rmatch {A : Type} (r : regex) (pos : nat) (s : list ascii) (c : caps)
    (k : nat -> list ascii -> caps -> option A) : option A :=
  match r with
  | Eps => k pos s c
  | Chr p =>
      match s with
      | a :: s' => if p a then k (S pos) s' c else None
      | [] => None
      end
  | Seq r1 r2 => rmatch r1 pos s c (fun pos' s' c' => rmatch r2 pos' s' c' k)
  | Alt r1 r2 =>
      match rmatch r1 pos s c k with
      | Some x => Some x
      | None => rmatch r2 pos s c k
      end
  | Star g r1 =>
      (fix loop (n : nat) (pos : nat) (s : list ascii) (c : caps) : option A :=
         match n with
         | O => k pos s c
         | S n' =>
             if g then
               match rmatch r1 pos s c
                       (fun pos' s' c' =>
                          if (pos <? pos')%nat then loop n' pos' s' c' else None) with
               | Some x => Some x
               | None => k pos s c
               end
             else
               match k pos s c with
               | Some x => Some x
               | None =>
                   rmatch r1 pos s c
                     (fun pos' s' c' =>
                        if (pos <? pos')%nat then loop n' pos' s' c' else None)
               end
         end) (S (length s)) pos s c
  | Grp i r1 =>
      rmatch r1 pos s c
        (fun pos' s' c' => k pos' s' (set_cap i (firstn (pos' - pos) s) c'))
  | Bol => if (pos =? 0)%nat then k pos s c else None
  | Eol => match s with [] => k pos s c | _ :: _ => None end
  end.

Record found : Type := Found
  { m_start : nat; m_text : list ascii; m_caps : caps; m_rest : list ascii }.

(** a match of [r] starting exactly at [pos] *)
Definition match_here (r : regex) (pos : nat) (s : list ascii) : option found :=
  rmatch r pos s [] (fun pos' s' c => Some (Found pos (firstn (pos' - pos) s) c s')).

(** the leftmost match at or after [pos] *)
Fixpoint search (r : regex) (pos : nat) (s : list ascii) : option found :=
  match match_here r pos s with
  | Some m => Some m
  | None =>
      match s with
      | [] => None
      | _ :: s' => search r (S pos) s'
      end
  end.

(** [s.match(r)] without the [g] flag *)
Definition exec (r : regex) (s : string) : option found := search r 0 (chars s).
(** [r.test(s)] *)
Definition test (r : regex) (s : string) : bool := bool_decide (is_Some (exec r s)).

(** [s.replace(r, by)] with the [g] flag: every match, left to right; after
    an empty match the scan moves one character on. *)
Fixpoint replace_from (n : nat) (r : regex) (by_ : list ascii) (pos : nat)
    (s : list ascii) : list ascii :=
  match n with
  | O => s
  | S n' =>
      match match_here r pos s with
      | Some m =>
          match m_text m, s with
          | [], a :: s' => by_ ++ a :: replace_from n' r by_ (S pos) s'
          | [], [] => by_
          | _ :: _, _ =>
              by_ ++ replace_from n' r by_ (pos + length (m_text m)) (m_rest m)
          end
      | None =>
          match s with
          | [] => []
          | a :: s' => a :: replace_from n' r by_ (S pos) s'
          end
      end
  end.

Definition replace_all (r : regex) (by_ : string) (s : string) : string :=
  text (replace_from (S (length (chars s))) r (chars by_) 0 (chars s)).

(** [s.match(r)] with the [g] flag: the texts of all matches ([None] for
    JavaScript's [null], when there is none) *)
Fixpoint matches_from (n : nat) (r : regex) (pos : nat) (s : list ascii)
    : list (list ascii) :=
  match n with
  | O => []
  | S n' =>
      match match_here r pos s with
      | Some m =>
          match m_text m, s with
          | [], _ :: s' => [] :: matches_from n' r (S pos) s'
          | [], [] => [[]]
          | _ :: _, _ =>
              m_text m :: matches_from n' r (pos + length (m_text m)) (m_rest m)
          end
      | None =>
          match s with
          | [] => []
          | _ :: s' => matches_from n' r (S pos) s'
          end
      end
  end.

Definition match_all (r : regex) (s : string) : option (list string) :=
  match matches_from (S (length (chars s))) r 0 (chars s) with
  | [] => None
  | l => Some (map text l)
  end.

(** [s.split(r)]: the separator is tried at each position in turn; an
    empty match at the start of a piece does not split. *)
Fixpoint split_from (n : nat) (r : regex) (pos : nat) (s : list ascii)
    (cur : list ascii) : list (list ascii) :=
  match n with
  | O => [rev cur ++ s]
  | S n' =>
      match s with
      | [] => [rev cur]
      | a :: s' =>
          match match_here r pos s with
          | Some m =>
              match m_text m, cur with
              | [], [] => split_from n' r (S pos) s' [a]
              | _, _ =>
                  rev cur :: split_from n' r (pos + length (m_text m)) (m_rest m) []
              end
          | None => split_from n' r (S pos) s' (a :: cur)
          end
      end
  end.

Definition split (r : regex) (s : string) : list string :=
  map text (split_from (2 * length (chars s) + 2) r 0 (chars s) []).

(** *** Building blocks *)

Definition lit1 (a : ascii) : regex := Chr (eqc a).
Definition lit1i (a : ascii) : regex := Chr (eqci a).

Fixpoint seq_of (f : ascii -> regex) (l : list ascii) : regex :=
  match l with
  | [] => Eps
  | [a] => f a
  | a :: l' => Seq (f a) (seq_of f l')
  end.

(** a literal text, and the same under the [i] flag *)
Definition lit (s : string) : regex := seq_of lit1 (chars s).
Definition liti (s : string) : regex := seq_of lit1i (chars s).

(** the concatenation of a list of expressions *)
Fixpoint cat (l : list regex) : regex :=
  match l with
  | [] => Eps
  | [r] => r
  | r :: l' => Seq r (cat l')
  end.

Definition star (r : regex) : regex := Star true r.
Definition lazy_star (r : regex) : regex := Star false r.
Definition plus (r : regex) : regex := Seq r (Star true r).
Definition opt (r : regex) : regex := Alt r Eps.

(** [[\s\S]] *)
Definition any : regex := Chr (fun _ => true).
(** [\s] *)
Definition space : regex := Chr is_space.
(** [.]: any character but a line terminator *)
Definition dot : regex := Chr (fun a => negb ((code a =? 10)%nat || (code a =? 13)%nat)).

End Regex.

(** ** JSON values, [JSON.parse] and the conversions of the runtime *)

Module Json.
Import Text.

(** A number literal is kept as the decimal [m * 10^e] it denotes. *)
Inductive json : Type :=
| JNull
| JBool (b : bool)
| JNum (m e : Z)
| JStr (s : string)
| JArr (l : list json)
| JObj (fields : list (string * json)).

Definition is_jws (a : ascii) : bool :=
  (code a =? 32)%nat || (code a =? 9)%nat || (code a =? 10)%nat || (code a =? 13)%nat.

Fixpoint skip_ws (l : list ascii) : list ascii :=
  match l with
  | a :: l' => if is_jws a then skip_ws l' else l
  | [] => []
  end.

Definition hex_val (a : ascii) : option nat :=
  if is_digit a then Some (code a - 48)%nat
  else if in_range 97 102 a then Some (code a - 87)%nat
  else if in_range 65 70 a then Some (code a - 55)%nat
  else None.

Definition hex4 (a b c d : ascii) : option nat :=
  match hex_val a, hex_val b, hex_val c, hex_val d with
  | Some x, Some y, Some z, Some w => Some (((x * 16 + y) * 16 + z) * 16 + w)%nat
  | _, _, _, _ => None
  end.

(** the character an escape [\b] stands for *)
Definition unescape (b : ascii) : option ascii :=
  match code b with
  | 34%nat => Some (ascii_of_nat 34)     (* quote *)
  | 92%nat => Some (ascii_of_nat 92)     (* backslash *)
  | 47%nat => Some (ascii_of_nat 47)     (* slash *)
  | 98%nat => Some (ascii_of_nat 8)      (* b *)
  | 102%nat => Some (ascii_of_nat 12)    (* f *)
  | 110%nat => Some (ascii_of_nat 10)    (* n *)
  | 114%nat => Some (ascii_of_nat 13)    (* r *)
  | 116%nat => Some (ascii_of_nat 9)     (* t *)
  | _ => None
  end.

(** The characters of a string literal, after its opening quote.  An escape
    [\uXXXX] above 007F denotes a character outside ASCII and is not
    accepted by this embedding. *)
Fixpoint parse_chars (l : list ascii) : option (list ascii * list ascii) :=
  match l with
  | [] => None
  | a :: l' =>
      if (code a =? 34)%nat then Some ([], l')
      else if (code a =? 92)%nat then
        match l' with
        | [] => None
        | b :: l'' =>
            if (code b =? 117)%nat then
              match l'' with
              | h1 :: h2 :: h3 :: h4 :: l3 =>
                  match hex4 h1 h2 h3 h4 with
                  | Some n =>
                      if (n <? 128)%nat then
                        match parse_chars l3 with
                        | Some (s, r) => Some (ascii_of_nat n :: s, r)
                        | None => None
                        end
                      else None
                  | None => None
                  end
              | _ => None
              end
            else
              match unescape b with
              | Some c =>
                  match parse_chars l'' with
                  | Some (s, r) => Some (c :: s, r)
                  | None => None
                  end
              | None => None
              end
        end
      else if (code a <? 32)%nat then None
      else
        match parse_chars l' with
        | Some (s, r) => Some (a :: s, r)
        | None => None
        end
  end.

Fixpoint take_digits (l : list ascii) : list ascii * list ascii :=
  match l with
  | a :: l' =>
      if is_digit a then let '(ds, r) := take_digits l' in (a :: ds, r)
      else ([], l)
  | [] => ([], [])
  end.

Definition digits_val (ds : list ascii) : Z :=
  fold_left (fun acc d => 10 * acc + Z.of_nat (code d - 48)) ds 0.

Definition is_char (n : nat) (a : ascii) : bool := (code a =? n)%nat.

(** a number literal: optional minus sign, integer part without a leading
    zero, optional fraction, optional exponent *)
Definition parse_number (l : list ascii) : option (json * list ascii) :=
  let '(neg, l1) :=
    match l with
    | a :: l' => if is_char 45 a then (true, l') else (false, l)
    | [] => (false, l)
    end in
  let '(ip, l2) := take_digits l1 in
  match ip with
  | [] => None
  | d :: ds =>
      if is_char 48 d && negb (bool_decide (ds = [])) then None
      else
        let frac :=
          match l2 with
          | a :: l3 =>
              if is_char 46 a then
                match take_digits l3 with
                | ([], _) => None
                | (fp, r) => Some (fp, r)
                end
              else Some ([], l2)
          | [] => Some ([], l2)
          end in
        match frac with
        | None => None
        | Some (fp, l4) =>
            let expo :=
              match l4 with
              | a :: l5 =>
                  if is_char 101 a || is_char 69 a then
                    let '(eneg, l6) :=
                      match l5 with
                      | b :: l' =>
                          if is_char 45 b then (true, l')
                          else if is_char 43 b then (false, l')
                          else (false, l5)
                      | [] => (false, l5)
                      end in
                    match take_digits l6 with
                    | ([], _) => None
                    | (ed, r) =>
                        Some ((if eneg then - digits_val ed else digits_val ed), r)
                    end
                  else Some (0, l4)
              | [] => Some (0, l4)
              end in
            match expo with
            | None => None
            | Some (ex, r) =>
                let m := digits_val (ip ++ fp) in
                Some (JNum (if neg then - m else m) (ex - Z.of_nat (length fp)), r)
            end
        end
  end.

(** Recursive descent, on a fuel that bounds the nesting and the number of
    members ([JSON_parse] gives it twice the length of the text). *)
Fixpoint parse_value (n : nat) (l : list ascii) {struct n} : option (json * list ascii) :=
  match n with
  | O => None
  | S n' =>
      match l with
      | [] => None
      | a :: l' =>
          if is_char 123 a then
            match skip_ws l' with
            | b :: r =>
                if is_char 125 b then Some (JObj [], r)
                else
                  match parse_members n' (b :: r) with
                  | Some (f, r') => Some (JObj f, r')
                  | None => None
                  end
            | [] => None
            end
          else if is_char 91 a then
            match skip_ws l' with
            | b :: r =>
                if is_char 93 b then Some (JArr [], r)
                else
                  match parse_elements n' (b :: r) with
                  | Some (vs, r') => Some (JArr vs, r')
                  | None => None
                  end
            | [] => None
            end
          else if is_char 34 a then
            match parse_chars l' with
            | Some (s, r) => Some (JStr (text s), r)
            | None => None
            end
          else if starts_with (chars "true") l then Some (JBool true, skipn 4 l)
          else if starts_with (chars "false") l then Some (JBool false, skipn 5 l)
          else if starts_with (chars "null") l then Some (JNull, skipn 4 l)
          else parse_number l
      end
  end
with parse_elements (n : nat) (l : list ascii) {struct n} : option (list json * list ascii) :=
  match n with
  | O => None
  | S n' =>
      match parse_value n' l with
      | Some (v, r) =>
          match skip_ws r with
          | b :: r' =>
              if is_char 44 b then
                match parse_elements n' (skip_ws r') with
                | Some (vs, r'') => Some (v :: vs, r'')
                | None => None
                end
              else if is_char 93 b then Some ([v], r')
              else None
          | [] => None
          end
      | None => None
      end
  end
with parse_members (n : nat) (l : list ascii) {struct n}
    : option (list (string * json) * list ascii) :=
  match n with
  | O => None
  | S n' =>
      match l with
      | a :: l1 =>
          if is_char 34 a then
            match parse_chars l1 with
            | Some (k, r) =>
                match skip_ws r with
                | c :: r1 =>
                    if is_char 58 c then
                      match parse_value n' (skip_ws r1) with
                      | Some (v, r2) =>
                          match skip_ws r2 with
                          | b :: r3 =>
                              if is_char 44 b then
                                match parse_members n' (skip_ws r3) with
                                | Some (f, r4) => Some ((text k, v) :: f, r4)
                                | None => None
                                end
                              else if is_char 125 b then Some ([(text k, v)], r3)
                              else None
                          | [] => None
                          end
                      | None => None
                      end
                    else None
                | [] => None
                end
            | None => None
            end
          else None
      | [] => None
      end
  end.

(** [JSON.parse(s)]; [None] when it throws a SyntaxError *)
Definition JSON_parse (s : string) : option json :=
  let l := chars s in
  match parse_value (2 * length l + 2) (skip_ws l) with
  | Some (v, r) => match skip_ws r with [] => Some v | _ :: _ => None end
  | None => None
  end.

(** *** Values at run time: [undefined] is [None] *)

Definition value : Type := option json.

(** own property of an object; a repeated key keeps its last value *)
Fixpoint field (k : string) (f : list (string * json)) : value :=
  match f with
  | [] => None
  | (k', v) :: f' =>
      match field k f' with
      | Some v' => Some v'
      | None => if String.eqb k' k then Some v else None
      end
  end.

(** [v.k] on a parsed value: [None] when the access throws (on [null]);
    the names read by this program are on no prototype. *)
Definition get (v : json) (k : string) : option value :=
  match v with
  | JNull => None
  | JObj f => Some (field k f)
  | _ => Some None
  end.

(** [v?.k] *)
Definition get_opt (v : value) (k : string) : value :=
  match v with
  | Some (JObj f) => field k f
  | _ => None
  end.

Definition truthy (v : value) : bool :=
  match v with
  | None | Some JNull => false
  | Some (JBool b) => b
  | Some (JNum m _) => negb (m =? 0)
  | Some (JStr s) => Text.truthy s
  | Some (JArr _) | Some (JObj _) => true
  end.

Fixpoint digits_from (fuel : nat) (z : Z) (acc : list ascii) : list ascii :=
  match fuel with
  | O => acc
  | S fuel' =>
      let acc' := ascii_of_nat (48 + Z.to_nat (z mod 10)) :: acc in
      if z <? 10 then acc' else digits_from fuel' (z / 10) acc'
  end.

(** the decimal digits of [|n|] *)
Definition digits_of (n : Z) : list ascii :=
  digits_from (S (Z.to_nat (Z.log2 (Z.abs n)))) (Z.abs n) [].

Definition zero_char : ascii := ascii_of_nat 48.

Fixpoint leading_zeros (ds : list ascii) : nat :=
  match ds with
  | a :: ds' => if is_char 48 a then S (leading_zeros ds') else O
  | [] => O
  end.

Definition trailing_zeros (ds : list ascii) : nat := leading_zeros (rev ds).

(** Number::toString of the decimal [m * 10^e] *)
Definition number_to_string (m e : Z) : string :=
  if m =? 0 then "0" else
  let ds0 := digits_of m in
  let tz := trailing_zeros ds0 in
  let ds := firstn (length ds0 - tz) ds0 in
  let k := Z.of_nat (length ds) in
  let n := k + Z.of_nat tz + e in
  let body :=
    if (k <=? n) && (n <=? 21) then ds ++ repeat zero_char (Z.to_nat (n - k))
    else if (0 <? n) && (n <=? 21) then
      firstn (Z.to_nat n) ds ++ chars "." ++ skipn (Z.to_nat n) ds
    else if (-6 <? n) && (n <=? 0) then
      chars "0." ++ repeat zero_char (Z.to_nat (- n)) ++ ds
    else
      firstn 1 ds ++ (if k =? 1 then [] else chars "." ++ skipn 1 ds)
        ++ chars (if n - 1 <? 0 then "e-" else "e+") ++ digits_of (n - 1) in
  text ((if m <? 0 then chars "-" else []) ++ body).

Definition join (sep : string) (l : list string) : string :=
  match l with
  | [] => ""
  | s :: l' => fold_left (fun acc t => acc +:+ sep +:+ t) l' s
  end.

(** [String(v)] *)
Fixpoint to_string (v : json) : string :=
  match v with
  | JNull => "null"
  | JBool true => "true"
  | JBool false => "false"
  | JNum m e => number_to_string m e
  | JStr s => s
  | JArr l =>
      join "," (map (fun x => match x with JNull => "" | _ => to_string x end) l)
  | JObj _ => "[object Object]"
  end.

Definition String_ (v : value) : string :=
  match v with
  | None => "undefined"
  | Some j => to_string j
  end.

Fixpoint take_hex (l : list ascii) : list nat :=
  match l with
  | a :: l' => match hex_val a with Some d => d :: take_hex l' | None => [] end
  | [] => []
  end.

(** [parseInt(s)] on a text; [None] is NaN *)
Definition parseInt_text (s : string) : option Z :=
  let l := drop_space (chars s) in
  let '(neg, l1) :=
    match l with
    | a :: l' =>
        if is_char 45 a then (true, l')
        else if is_char 43 a then (false, l')
        else (false, l)
    | [] => (false, l)
    end in
  let mag :=
    match l1 with
    | a :: b :: l2 =>
        if is_char 48 a && (is_char 120 b || is_char 88 b) then
          match take_hex l2 with
          | [] => None
          | hs => Some (fold_left (fun acc d => 16 * acc + Z.of_nat d) hs 0)
          end
        else
          match take_digits l1 with
          | ([], _) => None
          | (ds, _) => Some (digits_val ds)
          end
    | _ =>
        match take_digits l1 with
        | ([], _) => None
        | (ds, _) => Some (digits_val ds)
        end
    end in
  match mag with
  | Some n => Some (if neg then - n else n)
  | None => None
  end.

(** [parseInt(v)] *)
Definition parseInt (v : value) : option Z := parseInt_text (String_ v).

End Json.

(** ** Answer Parser *)

Module Parser.
Import Text Regex Json.

Record Parsed : Type := { answer : string; confidence : Z }.

(** [[A-F]], and the same under the [i] flag *)
Definition letterAF : regex := Chr (in_range 65 70).
Definition letterAFi : regex := Chr (fun a => in_range 65 70 (upper_char a)).

(** the fences removed before the whole text is parsed: a fence opening
    with the word json and an optional line feed, or an optional line feed
    and a closing fence *)
Definition fence : regex :=
  Alt (Seq (lit "```json") (opt (lit nl))) (Seq (opt (lit nl)) (lit "```")).

(** the fence marks removed from an embedded object *)
Definition fence_mark : regex := Alt (lit "```json") (lit "```").

(** an opening brace, lazily anything, the quoted word answer, lazily
    anything, a closing brace *)
Definition embedded_object : regex :=
  cat [lit "{"; lazy_star any; lit (dq +:+ "answer" +:+ dq); lazy_star any; lit "}"].

(** the whole text is the word true or false, in any case *)
Definition true_false : regex := cat [Bol; Alt (liti "true") (liti "false"); Eol].

(** the whole text is letters A to F separated by commas or spaces *)
Definition letter_list : regex :=
  cat [Bol; star space; Grp 1 letterAFi;
       star (cat [star space; Chr (fun a => is_char 44 a || is_space a);
                  star space; Grp 2 letterAFi]);
       star space; Eol].

(** a label (answer, jawaban or option), an optional colon, optional
    emphasis stars, then letters A to F separated by commas, followed by
    white space, the end of the text or a star *)
Definition labelled_answer : regex :=
  cat [Alt (liti "answer") (Alt (liti "jawaban") (liti "option"));
       star space; opt (lit ":"); star space;
       opt (Grp 1 (plus (lit "*"))); star space;
       Grp 2 (cat [letterAFi; star (cat [lit ","; star space; letterAFi])]);
       Alt space (Alt Eol (lit "*"))].

(** *** [[...new Set(letters)].sort().join(", ")] *)

Fixpoint dedupe_from (seen : list string) (l : list string) : list string :=
  match l with
  | [] => []
  | x :: l' =>
      if bool_decide (x ∈ seen) then dedupe_from seen l'
      else x :: dedupe_from (x :: seen) l'
  end.

(** the elements of [new Set(l)], in insertion order *)
Definition dedupe (l : list string) : list string := dedupe_from [] l.

(** the order of the default [sort]: by character codes *)
Fixpoint str_leb (s t : string) : bool :=
  match s, t with
  | EmptyString, _ => true
  | String _ _, EmptyString => false
  | String a s', String b t' =>
      (code a <? code b)%nat || ((code a =? code b)%nat && str_leb s' t')
  end.

Fixpoint insert_sorted (x : string) (l : list string) : list string :=
  match l with
  | [] => [x]
  | y :: l' => if str_leb y x then y :: insert_sorted x l' else x :: l
  end.

(** a stable sort: an element goes after the elements equal to it that
    precede it *)
Definition sort (l : list string) : list string :=
  fold_left (fun acc x => insert_sorted x acc) l [].

Definition letter_set (letters : list string) : string :=
  join ", " (sort (dedupe letters)).

(** [text.toUpperCase().match(/[A-F]/g)] *)
Definition letters_of (s : string) : option (list string) :=
  match_all letterAF (toUpperCase s).

(** *** The resolution steps, each [None] when it falls through *)

(** [parseInt(c) || 50], then the clamp to 0..100 *)
Definition clamp_confidence (c : value) : Z :=
  let n := match parseInt c with
           | Some n => if n =? 0 then 50 else n
           | None => 50
           end in
  Z.min 100 (Z.max 0 n).

(** the body of both [try] blocks once [JSON.parse] has returned; [None]
    when reading a field throws *)
Definition of_json (parsed : json) : option Parsed :=
  match get parsed "answer", get parsed "confidence" with
  | Some a, Some c =>
      Some {| answer := toUpperCase (String_ (if truthy a then a else Some (JStr "")));
              confidence := clamp_confidence c |}
  | _, _ => None
  end.

Definition step_json (text : string) : option Parsed :=
  let jsonStr := trim (replace_all fence "" text) in
  match JSON_parse jsonStr with
  | Some parsed => of_json parsed
  | None => None
  end.

Definition step_embedded (text : string) : option Parsed :=
  match exec embedded_object text with
  | Some jsonMatch =>
      let jsonStr := Text.text (m_text jsonMatch) in
      let cleanJson := trim (replace_all fence_mark "" jsonStr) in
      match JSON_parse cleanJson with
      | Some parsed => of_json parsed
      | None => None
      end
  | None => None
  end.

Definition step_true_false (text : string) : option Parsed :=
  if test true_false text
  then Some {| answer := toLowerCase text; confidence := 85 |}
  else None.

Definition step_letters (text : string) : option Parsed :=
  match exec letter_list text with
  | Some _ =>
      match letters_of text with
      | Some letters =>
          if (0 <? length letters)%nat && (length letters <=? 6)%nat
          then Some {| answer := letter_set letters; confidence := 70 |}
          else None
      | None => None
      end
  | None => None
  end.

Definition step_labelled (text : string) : option Parsed :=
  match exec labelled_answer text with
  | Some textAnswerMatch =>
      let group2 := Text.text (default [] (get_cap 2 (m_caps textAnswerMatch))) in
      match letters_of group2 with
      | Some letters => Some {| answer := letter_set letters; confidence := 65 |}
      | None => None
      end
  | None => None
  end.

Definition step_short (text : string) : option Parsed :=
  if (len text <=? 10)%nat then
    match letters_of text with
    | Some letters =>
        if (0 <? length letters)%nat && (length letters <=? 4)%nat
        then Some {| answer := letter_set letters; confidence := 60 |}
        else None
    | None => None
    end
  else None.

(** the first step that returns *)
Fixpoint first_of (steps : list (string -> option Parsed)) (text : string)
    : option Parsed :=
  match steps with
  | [] => None
  | f :: steps' =>
      match f text with
      | Some r => Some r
      | None => first_of steps' text
      end
  end.

Definition steps : list (string -> option Parsed) :=
  [step_json; step_embedded; step_true_false; step_letters; step_labelled; step_short].

(** [rawText] is [None] for [null] *)
Definition parseAnswerWithConfidence (rawText : option string) : Parsed :=
  match rawText with
  | None => {| answer := ""; confidence := 50 |}
  | Some raw =>
      if negb (Text.truthy raw) then {| answer := ""; confidence := 50 |}
      else
        match first_of steps (trim raw) with
        | Some r => r
        | None => {| answer := ""; confidence := 0 |}
        end
  end.

(** *** Vocabulary of the properties *)

(** the raw text is [null] or empty *)
Definition absent (rawText : option string) : bool :=
  match rawText with
  | None => true
  | Some raw => negb (Text.truthy raw)
  end.

(** every resolution step falls through on the text *)
Definition all_steps_fail (rawText : option string) : Prop :=
  forall raw, rawText = Some raw ->
    forall step, In step steps -> step (trim raw) = None.

Definition empty_result (confidence : Z) : Parsed :=
  {| answer := ""; confidence := confidence |}.

(** The failure rule read to the letter: whenever every step fails, an
    absent text included, the result is the empty answer with confidence 0. *)
Definition failure_rule_to_the_letter : Prop :=
  forall rawText, all_steps_fail rawText ->
    parseAnswerWithConfidence rawText = empty_result 0.

(** a JSON object with two members, as a text *)
Definition object2 (k1 v1 k2 v2 : string) : string :=
  "{" +:+ dq +:+ k1 +:+ dq +:+ ":" +:+ v1 +:+ "," +:+ dq +:+ k2 +:+ dq +:+ ":" +:+ v2 +:+ "}".

Definition quoted (s : string) : string := dq +:+ s +:+ dq.

(** the answer [a] with the confidence literal [c] *)
Definition answer_json (a c : string) : string :=
  object2 "answer" (quoted a) "confidence" c.

Definition fenced (s : string) : string :=
  "```json" +:+ nl +:+ s +:+ nl +:+ "```".

End Parser.

(** ** Model Invoker *)

Module Invoker.
Import Text Regex Json.

(** *** Response extraction *)

(** the [text] member of a response: absent, a string, or a function, whose
    call returns a string or throws ([None]) *)
Inductive TextMember : Type :=
| NoText
| TextString (s : string)
| TextFunction (result : option string).

Record Part : Type := { part_text : option string }.
Record Content : Type := { parts : option (list Part) }.
Record Candidate : Type := { content : option Content }.
Record Response : Type :=
  { text_member : TextMember; candidates : option (list Candidate) }.

(** [candidate?.content?.parts?.[0]?.text] *)
Definition first_part_text (c : option Candidate) : option string :=
  match c with
  | Some {| content := Some {| parts := Some (p :: _) |} |} => part_text p
  | _ => None
  end.

(** [None] is [null]; so is the argument when the service hands back no
    response object (reading its [text] throws, which is caught) *)
Definition extractText (response : option Response) : option string :=
  match response with
  | None => None
  | Some resp =>
      match text_member resp with
      | TextString s => Some s
      | TextFunction r => r
      | NoText =>
          match first_part_text (match candidates resp with
                                   | Some (c :: _) => Some c
                                   | _ => None
                                   end) with
          | Some t => if Text.truthy t then Some t else None
          | None => None
          end
      end
  end.

(** *** Error formatter *)

(** the first brace that opens an error object, up to the last closing
    brace of the line *)
Definition error_object : regex :=
  cat [lit ("{" +:+ dq +:+ "error" +:+ dq); star dot; lit "}"].

(** [v === k] for a number [k], and [v === s] for a text [s] *)
Definition is_number (k : Z) (v : value) : bool :=
  match v with
  | Some (JNum m e) => if 0 <=? e then m * 10 ^ e =? k else m =? k * 10 ^ (- e)
  | _ => false
  end.

Definition is_text (s : string) (v : value) : bool :=
  match v with
  | Some (JStr t) => String.eqb t s
  | _ => false
  end.

(** the [try] block of [formatError]: [None] when it returns nothing (no
    error object in the message, a parse error, or no known code) *)
Definition format_api_error (msg : string) : option string :=
  if includes msg ("{" +:+ dq +:+ "error" +:+ dq) then
    match exec error_object msg with
    | Some jsonMatch =>
        match JSON_parse (text (m_text jsonMatch)) with
        | Some parsed =>
            match get parsed "error" with
            | Some err =>
                let code := get_opt err "code" in
                let status := get_opt err "status" in
                if is_number 503 code || is_text "UNAVAILABLE" status
                then Some "🔄 Server Sibuk"
                else if is_number 429 code then Some "⏳ Rate limit"
                else if is_number 400 code && includes msg "API key expired"
                then Some "🔑 API key expired"
                else if is_number 400 code && includes msg "API_KEY_INVALID"
                then Some "🔑 API key invalid"
                else if is_number 401 code then Some "🔑 API key salah"
                else if is_number 404 code then Some "❓ Model tidak ada"
                else None
            | None => None
            end
        | None => None
        end
    | None => None
    end
  else None.

(** [error] is the thrown [Error], given by its message; with an empty
    message the text formatted is that of the error object itself. *)
Definition formatError (error : string) : string :=
  let msg := if Text.truthy error then error else "Error" in
  match format_api_error msg with
  | Some friendly => friendly
  | None =>
      if includes msg "503" || includes msg "overload" || includes msg "UNAVAILABLE"
      then "🔄 Server sibuk"
      else if includes msg "429" || includes msg "RESOURCE_EXHAUSTED"
              || includes msg "quota"
      then "⏳ Rate limit"
      else if includes msg "timeout" || includes msg "DEADLINE_EXCEEDED"
      then "⏰ Timeout"
      else if includes msg "API key expired" then "🔑 API key expired"
      else if includes msg "401" || includes msg "API_KEY"
              || includes msg "authentication"
      then "🔑 API key invalid"
      else if includes msg "404" || includes msg "not found"
      then "❓ Model tidak ada"
      else if includes msg "SAFETY" || includes msg "blocked"
      then "🚫 Diblokir safety"
      else if includes msg "ECONNREFUSED" || includes msg "network"
      then "📡 Network error"
      else if includes msg "Empty response" || includes msg "parse failure"
      then "📭 Jawaban kosong"
      else prefix 30 msg +:+ (if (30 <? len msg)%nat then "..." else "")
  end.

(** *** One model call, with retries *)

Inductive ModelResult : Type :=
| Success (answer : string) (confidence : Z) (model : string) (raw : string)
| Failure (model : string) (error : string).

Definition success (r : ModelResult) : bool :=
  match r with Success _ _ _ _ => true | Failure _ _ => false end.

Definition model_of (r : ModelResult) : string :=
  match r with Success _ _ m _ => m | Failure m _ => m end.

(** what one [generateContent] call does: it resolves with a response
    ([None] for none), or throws an error with a message *)
Inductive Attempt : Type :=
| Responded (response : option Response)
| Threw (message : string).

(** the [try] block of one attempt: the parsed answer and the raw text, or
    the message of the error thrown *)
Definition attempt_result (a : Attempt) : (Parser.Parsed * string) + string :=
  match a with
  | Threw message => inr message
  | Responded response =>
      match extractText response with
      | Some rawText =>
          if Text.truthy rawText && negb (String.eqb (trim rawText) "") then
            let p := Parser.parseAnswerWithConfidence (Some rawText) in
            if Text.truthy (Parser.answer p) then inl (p, rawText)
            else inr "Empty response or parse failure"
          else inr "Empty response or parse failure"
      | None => inr "Empty response or parse failure"
      end
  end.

Definition isOverload (errMsg : string) : bool :=
  includes errMsg "503" || includes errMsg "429" || includes errMsg "Overload".

(** the delay before the next attempt, in milliseconds *)
Definition waitTime (errMsg : string) (attempt : nat) : Z :=
  if isOverload errMsg then 2000 * Z.of_nat attempt else 1000 * Z.of_nat attempt.

(** The [for] loop from [attempt] on, [left] rounds from its exit.  [api n]
    is what the [n]-th call to the service does.  The result comes with the
    delays slept through, in order. *)
Fixpoint attempts (model : string) (api : nat -> Attempt) (retries : nat)
    (left : nat) (attempt : nat) : ModelResult * list Z :=
  match left with
  | O => (Failure model "Unknown error", [])
  | S left' =>
      match attempt_result (api attempt) with
      | inl (p, rawText) =>
          (Success (Parser.answer p) (Parser.confidence p) model rawText, [])
      | inr errMsg =>
          if (attempt =? retries)%nat then
            (Failure model
               (if isOverload errMsg then "Server Overload (Max Retries)"
                else formatError errMsg), [])
          else
            let '(r, waits) := attempts model api retries left' (S attempt) in
            (r, waitTime errMsg attempt :: waits)
      end
  end.

Definition callSingleModel_waits (model : string) (api : nat -> Attempt)
    (retries : nat) : ModelResult * list Z :=
  attempts model api retries retries 1.

Definition callSingleModel (model : string) (api : nat -> Attempt) (retries : nat)
    : ModelResult :=
  fst (callSingleModel_waits model api retries).

(** *** Vocabulary of the properties *)

(** the delays after the failed attempts [ks], whose error messages are
    given by [e] *)
Definition backoff (e : nat -> string) (ks : list nat) : list Z :=
  map (fun k => (if isOverload (e k) then 2000 else 1000) * Z.of_nat k) ks.

(** the error of the result once the last attempt has failed with [errMsg] *)
Definition exhausted_error (errMsg : string) : string :=
  if isOverload errMsg then "Server Overload (Max Retries)" else formatError errMsg.

(** a response whose text is [s] *)
Definition text_response (s : string) : Attempt :=
  Responded (Some {| text_member := TextFunction (Some s); candidates := None |}).

End Invoker.

(** ** Voting *)

Module Voting.
Import Text Regex Json Invoker.

(** the configured models: three workers and the judge *)
Definition MODELS : list string :=
  ["gemini-3-flash-preview"; "gemini-2.0-flash-001"; "gemini-2.5-flash-lite";
   "gemini-2.5-pro"].

(** [MODELS[i]] *)
Definition MODEL (i : nat) : string := nth i MODELS "undefined".

Record QuestionOption : Type := { label : string; text : string }.

Record Vote : Type := { v_count : Z; v_avgConfidence : Z }.

Record ModelAnswer : Type :=
  { ma_model : string; ma_answer : string; ma_confidence : Z }.

Record VotingResult : Type :=
  { finalAnswer : string;
    finalConfidence : Z;
    votes : option (list (string * Vote));
    modelAnswers : option (list ModelAnswer);
    method : string }.

(** *** Vote tallies: objects keyed by answer *)

Record Tally : Type :=
  { count : Z; totalConfidence : Z; models : list string }.

(** an object used as a map, as the list of its properties in the order of
    their creation *)
Definition Counts : Type := list (string * Tally).

Fixpoint has_key (k : string) (o : Counts) : bool :=
  match o with
  | [] => false
  | (k', _) :: o' => String.eqb k' k || has_key k o'
  end.

Fixpoint update (k : string) (f : Tally -> Tally) (o : Counts) : Counts :=
  match o with
  | [] => []
  | (k', t) :: o' => if String.eqb k' k then (k', f t) :: o' else (k', t) :: update k f o'
  end.

(** The names that an object literal inherits from [Object.prototype].
    Their values are functions and, for [__proto__], the prototype itself:
    all of them truthy, none with a [models] member.  (A runtime started
    without the [__proto__] accessor has that one name fewer; the
    properties proved assume answers outside the whole list.) *)
Definition inherited_names : list string :=
  ["constructor"; "hasOwnProperty"; "isPrototypeOf"; "propertyIsEnumerable";
   "toLocaleString"; "toString"; "valueOf"; "__defineGetter__"; "__defineSetter__";
   "__lookupGetter__"; "__lookupSetter__"; "__proto__"].

Definition inherited (k : string) : bool := bool_decide (k ∈ inherited_names).

(** the message of the TypeError thrown by [x.models.push(...)] when [x] has
    no [models] member *)
Definition push_of_undefined : string :=
  "Cannot read properties of undefined (reading 'push')".

(** the tallying of a vote in an entry of the object's own: create the
    entry if it is missing, then count the vote *)
Definition record_vote (k : string) (conf : Z) (model : string) (o : Counts) : Counts :=
  let o' := if has_key k o then o
            else o ++ [(k, {| count := 0; totalConfidence := 0; models := [] |})] in
  update k (fun t => {| count := count t + 1;
                        totalConfidence := totalConfidence t + conf;
                        models := models t ++ [model] |}) o'.

(** The body of both tallying loops.  [o[k]] is the object's own entry, else
    the value inherited under that name, else [undefined]; only in the last
    case is an entry created.  On an inherited value the counting ends in
    the TypeError ([None]): the value has no [models] array to push on. *)
Definition add_vote (k : string) (conf : Z) (model : string) (o : Counts)
    : option Counts :=
  if negb (has_key k o) && inherited k then None
  else Some (record_vote k conf model o).

(** a key that is an array index: a canonical decimal below 2^32 - 1 *)
Definition array_index (k : string) : option Z :=
  let l := chars k in
  match l with
  | [] => None
  | d :: ds =>
      if forallb is_digit l && (negb (is_char 48 d) || bool_decide (ds = []))
      then let n := digits_val l in if n <? 2 ^ 32 - 1 then Some n else None
      else None
  end.

Fixpoint insert_index (e : Z * (string * Tally)) (l : list (Z * (string * Tally)))
    : list (Z * (string * Tally)) :=
  match l with
  | [] => [e]
  | x :: l' => if fst x <=? fst e then x :: insert_index e l' else e :: l
  end.

(** [Object.entries(o)]: array-index keys in ascending order, then the
    other keys in the order of their creation *)
Definition entries (o : Counts) : Counts :=
  let indexed :=
    fold_left (fun acc kv => match array_index (fst kv) with
                             | Some n => insert_index (n, kv) acc
                             | None => acc
                             end) o [] in
  map snd indexed
    ++ List.filter (fun kv => negb (bool_decide (is_Some (array_index (fst kv))))) o.

(** [Math.round(t / c)] for a positive [c]: halves go up *)
Definition round_div (t c : Z) : Z := (2 * t + c) / (2 * c).

Record Ranked : Type :=
  { answer : string; r_count : Z; avgConfidence : Z; r_models : list string }.

Definition ranked (kv : string * Tally) : Ranked :=
  {| answer := fst kv;
     r_count := count (snd kv);
     avgConfidence := round_div (totalConfidence (snd kv)) (count (snd kv));
     r_models := models (snd kv) |}.

(** the comparator of both sorts: by count, then by average confidence,
    both descending *)
Definition compare_ranked (a b : Ranked) : Z :=
  if negb (r_count b =? r_count a) then r_count b - r_count a
  else avgConfidence b - avgConfidence a.

Section Sort.
Context {A : Type} (cmp : A -> A -> Z).

Fixpoint insert_by (x : A) (l : list A) : list A :=
  match l with
  | [] => [x]
  | y :: l' => if cmp y x <=? 0 then y :: insert_by x l' else x :: l
  end.

(** [l.sort(cmp)]: the sort is stable *)
Definition sort_by (l : list A) : list A :=
  fold_left (fun acc x => insert_by x acc) l [].
End Sort.

Definition sorted_votes (o : Counts) : list Ranked :=
  sort_by compare_ranked (map ranked (entries o)).

(** the first ranked answer when it has two votes or more:
    [top && top.count >= 2] *)
Definition agreed (sorted : list Ranked) : option Ranked :=
  match sorted with
  | top :: _ => if 2 <=? r_count top then Some top else None
  | [] => None
  end.

(** *** Answer normalization (confidence-weighted variant) *)

Definition single_capital : regex := cat [Bol; Chr is_upper; Eol].

(** [answer] is [None] for [undefined] *)
Definition normalizeAnswer (answer : option string) : list string :=
  match answer with
  | None => []
  | Some answer =>
      if negb (Text.truthy answer) then []
      else
        let upperAnswer := trim (toUpperCase answer) in
        if String.eqb upperAnswer "TRUE" || String.eqb upperAnswer "FALSE"
        then [toLowerCase upperAnswer]
        else
          let labels :=
            List.filter (fun s => test single_capital s)
              (map trim (split (plus (Chr (fun a => is_space a || is_char 44 a)))
                           upperAnswer)) in
          Parser.sort (Parser.dedupe labels)
  end.

(** *** Confidence-weighted voting *)

(** a successful result after the reliability pass *)
Record Reliable : Type :=
  { rl_answer : string; rl_confidence : Z; rl_model : string; unreliable : bool }.

Definition penalize (r : ModelResult) : list Reliable :=
  match r with
  | Success answer confidence model _ =>
      let labels := normalizeAnswer (Some answer) in
      if (4 <=? length labels)%nat
      then [{| rl_answer := answer; rl_confidence := Z.min confidence 40;
               rl_model := model; unreliable := true |}]
      else [{| rl_answer := answer; rl_confidence := confidence;
               rl_model := model; unreliable := false |}]
  | Failure _ _ => []
  end.

(** [successfulResults.map(...)]: step 1 *)
Definition reliableResults (successfulResults : list ModelResult) : list Reliable :=
  flat_map penalize successfulResults.

(** step 2; [None] when the loop throws *)
Definition answerCounts (rs : list Reliable) : option Counts :=
  fold_left (fun o r =>
               match o with
               | Some o => add_vote (trim (toUpperCase (rl_answer r)))
                             (rl_confidence r) (rl_model r) o
               | None => None
               end) rs (Some []).

(** the summary object: one property per ranked answer (their keys are
    distinct, being the keys of the tally) *)
Definition votes_of (sorted : list Ranked) : list (string * Vote) :=
  map (fun a => (answer a, {| v_count := r_count a; v_avgConfidence := avgConfidence a |}))
    sorted.

(** [l.reduce((a, b) => a.confidence > b.confidence ? a : b)] *)
Definition best_of (first : Reliable) (rest : list Reliable) : Reliable :=
  fold_left (fun a b => if rl_confidence b <? rl_confidence a then a else b) rest first.

Definition find_reliable (model : string) (rs : list Reliable) : option Reliable :=
  List.find (fun r => String.eqb (rl_model r) model && negb (unreliable r)) rs.

(** the result, or the message of the error thrown *)
Definition _confidenceWeightedVote (modelResults : list ModelResult)
    : string + VotingResult :=
  let successfulResults := List.filter success modelResults in
  match successfulResults with
  | [] => inl "All models failed in ensemble"
  | [Success answer confidence model _] =>
      inr {| finalAnswer := answer;
             finalConfidence := confidence;
             votes := Some [(answer, {| v_count := 1; v_avgConfidence := confidence |})];
             modelAnswers := Some [{| ma_model := model; ma_answer := answer;
                                      ma_confidence := confidence |}];
             method := "single" |}
  | _ =>
      let reliable := reliableResults successfulResults in
      match answerCounts reliable with
      | None => inl push_of_undefined
      | Some counts =>
      let sortedAnswers := sorted_votes counts in
      let decision :=
        match agreed sortedAnswers with
        | Some topAnswer =>
            Some (answer topAnswer, avgConfidence topAnswer, "consensus")
        | None =>
            match find_reliable (MODEL 0) reliable with
            | Some primaryResult =>
                Some (rl_answer primaryResult, rl_confidence primaryResult, "primary")
            | None =>
                match find_reliable (MODEL 1) reliable with
                | Some secondaryResult =>
                    Some (rl_answer secondaryResult, rl_confidence secondaryResult,
                          "secondary")
                | None =>
                    match reliable with
                    | first :: rest =>
                        let best := best_of first rest in
                        Some (rl_answer best, rl_confidence best, "fallback")
                    | [] => None
                    end
                end
            end
        end in
      match decision with
      | Some (finalAnswer, finalConfidence, method) =>
          inr {| finalAnswer := finalAnswer;
                 finalConfidence := finalConfidence;
                 votes := Some (votes_of sortedAnswers);
                 modelAnswers :=
                   Some (map (fun r =>
                                {| ma_model := rl_model r +:+
                                     (if unreliable r then " ⚠️" else "");
                                   ma_answer := rl_answer r;
                                   ma_confidence := rl_confidence r |}) reliable);
                 method := method |}
      | None => inl "Reduce of empty array with no initial value"
      end
      end
  end.

(** *** Ensemble with a judge *)

Definition only_true : regex := cat [Bol; liti "TRUE"; Eol].
Definition only_false : regex := cat [Bol; liti "FALSE"; Eol].

Definition option_text_is (t : string) (o : QuestionOption) : bool :=
  String.eqb (trim (toLowerCase (text o))) t.

(** the helper [normalize] of the ensemble; [ans] is [None] for [undefined] *)
Definition normalize (ans : option string) (opts : list QuestionOption) : string :=
  match ans with
  | None => ""
  | Some ans =>
      if negb (Text.truthy ans) then ""
      else
        let a := toUpperCase (trim ans) in
        if test only_true a then "true"
        else if test only_false a then "false"
        else
          let as_boolean :=
            if (length opts =? 2)%nat then
              let optTexts := map (fun o => trim (toLowerCase (text o))) opts in
              let isTrueFalseQuestion :=
                bool_decide ("true" ∈ optTexts) || bool_decide ("false" ∈ optTexts) in
              if isTrueFalseQuestion then
                let trueOpt := List.find (option_text_is "true") opts in
                let falseOpt := List.find (option_text_is "false") opts in
                let labelled (o : option QuestionOption) (l : string) : bool :=
                  match o with Some o => String.eqb (label o) l | None => false end in
                if String.eqb a "A" && labelled trueOpt "A" then Some "true"
                else if String.eqb a "A" && labelled falseOpt "A" then Some "false"
                else if String.eqb a "B" && labelled trueOpt "B" then Some "true"
                else if String.eqb a "B" && labelled falseOpt "B" then Some "false"
                else None
              else None
            else None in
          match as_boolean with
          | Some b => b
          | None =>
              match match_all Parser.letterAF a with
              | Some letters => Parser.letter_set letters
              | None =>
                  match List.find (fun o => Text.truthy (text o)
                                       && String.eqb (toLowerCase (trim (text o)))
                                                     (toLowerCase a)) opts with
                  | Some exact => label exact
                  | None => a
                  end
              end
          end
  end.

(** [r.success ? normalize(r.answer, options) : null] *)
Definition normalized (options : list QuestionOption) (r : ModelResult)
    : option string :=
  match r with
  | Success answer _ _ _ => Some (normalize (Some answer) options)
  | Failure _ _ => None
  end.

(** one round of the tallying loop; [None] when it throws *)
Definition count_vote (options : list QuestionOption) (o : Counts) (r : ModelResult)
    : option Counts :=
  match r with
  | Success _ confidence model _ =>
      match normalized options r with
      | Some ans => if Text.truthy ans then add_vote ans confidence model o else Some o
      | None => Some o
      end
  | Failure _ _ => Some o
  end.

(** the tallying loop; [None] when one of its rounds throws *)
Definition voteCounts (options : list QuestionOption) (results : list ModelResult)
    : option Counts :=
  fold_left (fun o r =>
               match o with
               | Some o => count_vote options o r
               | None => None
               end) results (Some []).

Definition confidence_of (r : ModelResult) : Z :=
  match r with Success _ c _ _ => c | Failure _ _ => 0 end.

(** the comparator of the fallback: [b.confidence - a.confidence] *)
Definition by_confidence (a b : ModelResult) : Z := confidence_of b - confidence_of a.

(** [results.filter(r => r.success).sort((a, b) => b.confidence - a.confidence)[0]] *)
Definition best_worker (results : list ModelResult) : option ModelResult :=
  head (sort_by by_confidence (List.filter success results)).

(** the three workers of a round *)
Definition workers : list string := [MODEL 0; MODEL 1; MODEL 2].

Section Ensemble.
(** [invoke model prompt] is the result of [callSingleModel(model, prompt)] *)
Variable invoke : string -> string -> ModelResult.

(** The result (or the message of the error thrown) and the model calls
    made, in order, each with its prompt. *)
Definition callGeminiEnsemble (prompt : string) (options : list QuestionOption)
    : (string + VotingResult) * list (string * string) :=
  let results := map (fun model => invoke model prompt) workers in
  let calls := map (fun model => (model, prompt)) workers in
  match voteCounts options results with
  | None => (inl push_of_undefined, calls)
  | Some counts =>
  let sortedVotes := sorted_votes counts in
  match agreed sortedVotes with
  | Some topVote =>
      (inr {| finalAnswer := answer topVote;
              finalConfidence := avgConfidence topVote;
              votes := None; modelAnswers := None;
              method := if r_count topVote =? 3 then "unanimous" else "majority" |},
       calls)
  | None =>
      let judgeResult := invoke (MODEL 3) prompt in
      let calls := calls ++ [(MODEL 3, prompt)] in
      match judgeResult with
      | Success answer confidence _ _ =>
          (inr {| finalAnswer := answer; finalConfidence := confidence;
                  votes := None; modelAnswers := None; method := "judge" |},
           calls)
      | Failure _ _ =>
          match best_worker results with
          | Some (Success answer confidence _ _) =>
              (inr {| finalAnswer := answer; finalConfidence := confidence;
                      votes := None; modelAnswers := None;
                      method := "fallback_worker" |},
               calls)
          | _ => (inl "All models failed including Judge", calls)
          end
      end
  end
  end.

(** the failover chain from the [i]-th model on *)
Fixpoint failover (models : list string) (prompt : string)
    : (string + (string * string * Z)) * list (string * string) :=
  match models with
  | [] => (inl "All models failed", [])
  | model :: models' =>
      match invoke model prompt with
      | Success answer confidence _ _ => (inr (answer, model, confidence), [(model, prompt)])
      | Failure _ _ =>
          let '(r, calls) := failover models' prompt in
          (r, (model, prompt) :: calls)
      end
  end.

(** the result, its model and its confidence *)
Definition callGeminiWithFailover (prompt : string)
    : (string + (string * string * Z)) * list (string * string) :=
  failover MODELS prompt.
End Ensemble.

(** *** Vocabulary of the properties *)

(** the votes counted for a key: the first property of that name *)
Fixpoint tally (k : string) (o : Counts) : option Tally :=
  match o with
  | [] => None
  | (k', t) :: o' => if String.eqb k' k then Some t else tally k o'
  end.

Definition bump (conf : Z) (model : string) (t : Tally) : Tally :=
  {| count := count t + 1; totalConfidence := totalConfidence t + conf;
     models := models t ++ [model] |}.

Definition no_votes : Tally := {| count := 0; totalConfidence := 0; models := [] |}.

(** the tallies of loops none of whose rounds throws *)
Definition record_result (options : list QuestionOption) (o : Counts) (r : ModelResult)
    : Counts :=
  match r with
  | Success _ confidence model _ =>
      match normalized options r with
      | Some ans => if Text.truthy ans then record_vote ans confidence model o else o
      | None => o
      end
  | Failure _ _ => o
  end.

Definition recorded_votes (options : list QuestionOption) (results : list ModelResult)
    : Counts :=
  fold_left (record_result options) results [].

Definition recorded_answers (rs : list Reliable) : Counts :=
  fold_left (fun o r => record_vote (trim (toUpperCase (rl_answer r)))
                          (rl_confidence r) (rl_model r) o) rs [].

(** the answer of a result, once normalized, is not a name that objects
    inherit: its vote is counted in an entry of the tally's own *)
Definition plain_result (options : list QuestionOption) (r : ModelResult) : bool :=
  match normalized options r with
  | Some n => negb (inherited n)
  | None => true
  end.

Definition plain (options : list QuestionOption) (results : list ModelResult) : bool :=
  forallb (plain_result options) results.

(** a result supports the answer [a] when it is successful and its answer
    normalizes to [a] *)
Definition supports (options : list QuestionOption) (a : string) (r : ModelResult) : bool :=
  match normalized options r with
  | Some n => String.eqb n a
  | None => false
  end.

Definition supporters (options : list QuestionOption) (a : string)
    (results : list ModelResult) : list ModelResult :=
  List.filter (supports options a) results.

Definition total_confidence (l : list ModelResult) : Z :=
  fold_right (fun r acc => confidence_of r + acc) 0 l.

Definition tally_of (l : list ModelResult) : Tally :=
  {| count := Z.of_nat (length l); totalConfidence := total_confidence l;
     models := map model_of l |}.

(** the results of the three workers, and the calls that obtain them *)
Definition worker_results (invoke : string -> string -> ModelResult) (prompt : string)
    : list ModelResult :=
  map (fun model => invoke model prompt) workers.

Definition worker_calls (prompt : string) : list (string * string) :=
  map (fun model => (model, prompt)) workers.

Definition outcome (answer : string) (confidence : Z) (method : string) : VotingResult :=
  {| finalAnswer := answer; finalConfidence := confidence; votes := None;
     modelAnswers := None; method := method |}.




(** The penalty read to the letter: in every vote, a successful result
    whose answer normalizes to four labels or more counts, and is reported,
    with a confidence of 40 at most. *)
Definition cap_rule_to_the_letter : Prop :=
  forall (modelResults : list ModelResult) (answer : string) (confidence : Z)
         (model raw : string),
    In (Success answer confidence model raw) modelResults ->
    (4 <= length (normalizeAnswer (Some answer)))%nat ->
    exists v reported,
      _confidenceWeightedVote modelResults = inr v
      /\ modelAnswers v = Some reported
      /\ forall ma, In ma reported -> ma_answer ma = answer -> ma_confidence ma <= 40.

(** a round of three workers and a judge, given by their results *)
Definition round (r1 r2 r3 judge : ModelResult) (model prompt : string) : ModelResult :=
  if String.eqb model (MODEL 0) then r1
  else if String.eqb model (MODEL 1) then r2
  else if String.eqb model (MODEL 2) then r3
  else judge.

Definition answered (model answer : string) (confidence : Z) : ModelResult :=
  Success answer confidence model answer.

(** a successful result after the reliability check *)
Definition checked (answer : string) (confidence : Z) (model : string) : Reliable :=
  if (4 <=? length (normalizeAnswer (Some answer)))%nat
  then {| rl_answer := answer; rl_confidence := Z.min confidence 40;
          rl_model := model; unreliable := true |}
  else {| rl_answer := answer; rl_confidence := confidence;
          rl_model := model; unreliable := false |}.

End Voting.

(** ** Dedup cache, in-flight coalescer and request queue *)

Module Server.
Import Text Invoker Voting.

Definition ENSEMBLE_MODE : bool := true.
Definition TTL_MS : Z := 120 * 1000.

Record QuestionInput : Type :=
  { question : string;
    options : option (list QuestionOption);
    type : option string;
    number : option Z }.

(** a prompt as received: a plain text or a structured question *)
Inductive RawPrompt : Type :=
| Plain (s : string)
| Structured (q : QuestionInput).

(** *** Prompt builder *)

Definition lines (l : list string) : string :=
  fold_right (fun s acc => s +:+ nl +:+ acc) "" l.

Definition buildPrompt (input : RawPrompt) : string :=
  match input with
  | Plain _ =>
      lines
        ["You are a MikroTik certification exam expert operating in "
           +:+ dq +:+ "DEEP THINKING MODE" +:+ dq +:+ ".";
         "";
         "PROTOCOL:";
         "1.  **Analyze**: Read the question and every single option carefully.";
         "2.  **Evaluate**: For EACH option, write a detailed explanation why it is correct or incorrect.";
         "3.  **Reasoning**: You MUST provide thorough reasoning (at least 5-10 sentences). Do NOT be lazy.";
         "4.  **Conclusion**: Final Answer must be determined only after analysis.";
         "";
         "FORMAT:";
         "Reasoning:";
         "[Your detailed step-by-step analysis here...]";
         "";
         "JSON:";
         "{" +:+ dq +:+ "answer" +:+ dq +:+ ": " +:+ dq +:+ "A" +:+ dq +:+ ", "
           +:+ dq +:+ "confidence" +:+ dq +:+ ": 95}"]
  | Structured input =>
      let prompt :=
        lines
          ["You are a MikroTik certification exam expert.";
           "";
           "Goal: Provide the most accurate answer based on deep technical reasoning.";
           "";
           "INSTRUCTIONS:";
           "1. Analyze the Question: Identify key constraints (e.g., "
             +:+ dq +:+ "invalid" +:+ dq +:+ ", " +:+ dq +:+ "not" +:+ dq +:+ ", "
             +:+ dq +:+ "public IP" +:+ dq +:+ ").";
           "2. Analyze Options: Evaluate each option's technical validity.";
           "3. Chain of Thought: Explain your step-by-step reasoning.";
           "4. Final Output: Return the answer in strictly valid JSON.";
           "";
           "Question: " +:+ question input] in
      let prompt :=
        match options input with
        | Some (o :: os) =>
            prompt +:+ "Options:" +:+ nl
              +:+ fold_left (fun acc opt => acc +:+ label opt +:+ ". " +:+ text opt +:+ nl)
                    (o :: os) ""
              +:+ nl
              +:+ (if bool_decide (type input = Some "checkbox")
                   then "Type: CHECKBOX (select ALL correct answers)"
                   else if bool_decide (type input = Some "select")
                   then "Type: TRUE/FALSE"
                   else "Type: SINGLE CHOICE")
              +:+ nl
        | _ => prompt
        end in
      prompt +:+ nl
        +:+ lines
              ["Output Format:";
               "First, write your " +:+ dq +:+ "Reasoning: ..." +:+ dq +:+ " block.";
               "Then, write " +:+ dq +:+ "JSON: {" +:+ dq +:+ "answer" +:+ dq +:+ ": "
                 +:+ dq +:+ "..." +:+ dq +:+ ", " +:+ dq +:+ "confidence" +:+ dq
                 +:+ ": ...}" +:+ dq +:+ " on a new line."]
  end.

(** *** State *)

Record CacheEntry : Type := { ce_answer : string; ts : Z }.

(** what a shared handle settles to *)
Record Answer : Type := { a_answer : string; duration : Z; a_confidence : Z }.

Inductive Settlement : Type :=
| Resolved (v : Answer)
| Rejected (message : string).

(** a queue entry; [handle] names the promise that its [resolve] and
    [reject] callbacks settle *)
Record QueueEntry : Type :=
  { key : string; rawPrompt : RawPrompt; handle : nat; startTime : Z }.

(** The module's variables, the entry that the worker loop has taken off
    the queue and is awaiting the reconciliation of ([running]), and the
    promises made so far with what they have settled to. *)
Record State : Type :=
  { recentAnswers : gmap string CacheEntry;
    inflight : gmap string nat;
    requestQueue : list QueueEntry;
    isProcessing : bool;
    requestCounter : Z;
    running : option QueueEntry;
    promises : nat;
    settled : gmap nat Settlement }.

Definition initial : State :=
  {| recentAnswers := ∅; inflight := ∅; requestQueue := []; isProcessing := false;
     requestCounter := 0; running := None; promises := 0; settled := ∅ |}.

Definition set_recentAnswers (c : gmap string CacheEntry) (s : State) : State :=
  {| recentAnswers := c; inflight := inflight s; requestQueue := requestQueue s;
     isProcessing := isProcessing s; requestCounter := requestCounter s;
     running := running s; promises := promises s; settled := settled s |}.

Definition set_inflight (i : gmap string nat) (s : State) : State :=
  {| recentAnswers := recentAnswers s; inflight := i; requestQueue := requestQueue s;
     isProcessing := isProcessing s; requestCounter := requestCounter s;
     running := running s; promises := promises s; settled := settled s |}.

Definition settle (p : nat) (v : Settlement) (s : State) : State :=
  {| recentAnswers := recentAnswers s; inflight := inflight s;
     requestQueue := requestQueue s; isProcessing := isProcessing s;
     requestCounter := requestCounter s; running := running s;
     promises := promises s;
     settled := match settled s !! p with
                | Some _ => settled s          (* a promise settles once *)
                | None => <[p := v]> (settled s)
                end |}.

(** *** Cache sweep *)

Definition fresh_at (now : Z) (e : CacheEntry) : Prop := now - ts e <= TTL_MS.

#[local] Instance fresh_at_dec now e : Decision (fresh_at now e).
Proof. unfold fresh_at. apply _. Defined.

(** [vacuum()], with the clock value it reads *)
Definition vacuum (now : Z) (s : State) : State :=
  set_recentAnswers (filter (fun kv => fresh_at now (snd kv)) (recentAnswers s)) s.

(** *** Queue processor *)

(** the head of the [while] loop: take the next entry and start its
    reconciliation, or leave the loop *)
Definition next_entry (s : State) : State :=
  match requestQueue s with
  | e :: q =>
      {| recentAnswers := recentAnswers s; inflight := inflight s; requestQueue := q;
         isProcessing := isProcessing s; requestCounter := requestCounter s + 1;
         running := Some e; promises := promises s; settled := settled s |}
  | [] =>
      {| recentAnswers := recentAnswers s; inflight := inflight s; requestQueue := [];
         isProcessing := false; requestCounter := requestCounter s;
         running := None; promises := promises s; settled := settled s |}
  end.

(** [processQueue()], up to its first suspension *)
Definition processQueue (s : State) : State :=
  if isProcessing s then s
  else
    match requestQueue s with
    | [] => s
    | _ :: _ =>
        next_entry
          {| recentAnswers := recentAnswers s; inflight := inflight s;
             requestQueue := requestQueue s; isProcessing := true;
             requestCounter := requestCounter s; running := running s;
             promises := promises s; settled := settled s |}
    end.

Definition options_of (rawPrompt : RawPrompt) : list QuestionOption :=
  match rawPrompt with
  | Structured {| options := Some os |} => os
  | _ => []
  end.

Section Reconcile.
(** [api model prompt n] is what the [n]-th call to the service for
    [model] and [prompt] does *)
Variable api : string -> string -> nat -> Attempt.

(** [callSingleModel(model, prompt)], with its default of 3 attempts *)
Definition invoke (model prompt : string) : ModelResult :=
  callSingleModel model (api model prompt) 3.

(** the reconciliation of one entry: answer and confidence, or the
    message of the error thrown *)
Definition reconcile (rawPrompt : RawPrompt) : string + (string * Z) :=
  let prompt := buildPrompt rawPrompt in
  let options := options_of rawPrompt in
  if ENSEMBLE_MODE then
    match fst (callGeminiEnsemble invoke prompt options) with
    | inr voting => inr (finalAnswer voting, finalConfidence voting)
    | inl message => inl message
    end
  else
    match fst (callGeminiWithFailover invoke prompt) with
    | inr (result, _, conf) => inr (result, conf)
    | inl message => inl message
    end.

(** The rest of the [try] block once the reconciliation has settled, or
    the [catch] block: the cache write and the settlement of the handle.
    [now_done] and [now_write] are the two clock values read. *)
Definition complete (now_done now_write : Z) (s : State) : State :=
  match running s with
  | None => s
  | Some e =>
      match reconcile (rawPrompt e) with
      | inr (finalAnswer, confidence) =>
          let duration := now_done - startTime e in
          settle (handle e)
            (Resolved {| a_answer := finalAnswer; duration := duration;
                         a_confidence := confidence |})
            (set_recentAnswers
               (<[key e := {| ce_answer := finalAnswer; ts := now_write |}]>
                  (recentAnswers s)) s)
      | inl message => settle (handle e) (Rejected message) s
      end
  end.

(** the [finally] block, and the loop going round *)
Definition finally_next (s : State) : State :=
  match running s with
  | None => s
  | Some e => next_entry (set_inflight (delete (key e) (inflight s)) s)
  end.

(** the worker loop from the settlement of the running reconciliation to
    its next suspension *)
Definition resume (now_done now_write : Z) (s : State) : State :=
  finally_next (complete now_done now_write s).
End Reconcile.

(** *** Request handler: the admission of a question *)

Inductive Body : Type :=
| Cached (answer : string)                                (* responseTimeMs 0 *)
| Coalesced (answer : string) (responseTimeMs : Z)
| Computed (answer : string) (responseTimeMs : Z) (confidence : Z) (ensemble : bool)
| Error (message : string).

Record HttpResponse : Type := { status : Z; body : Body }.

(** what the handler does with a request: it responds at once, or awaits a
    handle, its own or that of the computation in flight *)
Inductive Reply : Type :=
| Respond (r : HttpResponse)
| AwaitOwn (p : nat)
| AwaitShared (p : nat).

(** a new promise, whose executor pushes the entry on the queue, and its
    registration in the in-flight map *)
Definition enqueue (key : string) (rawPrompt : RawPrompt) (now_start : Z) (s : State)
    : State :=
  let p := promises s in
  let entry := {| key := key; rawPrompt := rawPrompt; handle := p;
                  startTime := now_start |} in
  {| recentAnswers := recentAnswers s;
     inflight := <[key := p]> (inflight s);
     requestQueue := requestQueue s ++ [entry];
     isProcessing := isProcessing s; requestCounter := requestCounter s;
     running := running s; promises := S p; settled := settled s |}.

(** The handler of POST /ask from its call of [vacuum] on, for the key and
    prompt it has derived from the request body.  [now_sweep], [now_lookup]
    and [now_start] are the clock values read by the sweep, by the cache
    lookup and for the start time. *)
Definition handler (key : string) (rawPrompt : RawPrompt)
    (now_sweep now_lookup now_start : Z) (s : State) : State * Reply :=
  let s := vacuum now_sweep s in
  let hit :=
    match recentAnswers s !! key with
    | Some cached => if bool_decide (now_lookup - ts cached <= TTL_MS)
                     then Some cached else None
    | None => None
    end in
  match hit with
  | Some cached => (s, Respond {| status := 200; body := Cached (ce_answer cached) |})
  | None =>
      match inflight s !! key with
      | Some p => (s, AwaitShared p)
      | None => (processQueue (enqueue key rawPrompt now_start s), AwaitOwn (promises s))
      end
  end.

(** What the handler of POST /ask finds in the body of the request: reading
    it throws an error with a [message] ([req.json()] on a body that is not
    JSON, [body.prompt] on a body that is [null]), its [prompt] is missing,
    empty or otherwise falsy, or it holds a prompt, from which the handler
    derives the [key] (the question identity) and the [rawPrompt]. *)
Inductive AskBody : Type :=
| Unreadable (message : string)
| NoPrompt
| Prompt (key : string) (rawPrompt : RawPrompt).

Definition invalid_json (message : string) : string :=
  if Text.truthy message then message else "Invalid JSON".

(** The handler of POST /ask, from the reading of the body on.  The two
    responses with status 400 are given before the sweep of the cache, and
    leave the state as it is. *)
Definition post_ask (b : AskBody) (now_sweep now_lookup now_start : Z) (s : State)
    : State * Reply :=
  match b with
  | Unreadable message =>
      (s, Respond {| status := 400; body := Error (invalid_json message) |})
  | NoPrompt => (s, Respond {| status := 400; body := Error "Prompt kosong." |})
  | Prompt key rawPrompt => handler key rawPrompt now_sweep now_lookup now_start s
  end.

Definition error_message (message : string) : string :=
  if Text.truthy message then message else "Internal Server Error".

(** the response a caller ends with, once the handle it awaits has settled *)
Definition response (r : Reply) (s : State) : option HttpResponse :=
  match r with
  | Respond h => Some h
  | AwaitOwn p =>
      match settled s !! p with
      | Some (Resolved v) =>
          Some {| status := 200;
                  body := Computed (a_answer v) (duration v) (a_confidence v) ENSEMBLE_MODE |}
      | Some (Rejected m) => Some {| status := 500; body := Error (error_message m) |}
      | None => None
      end
  | AwaitShared p =>
      match settled s !! p with
      | Some (Resolved v) =>
          Some {| status := 200; body := Coalesced (a_answer v) (duration v) |}
      | Some (Rejected m) => Some {| status := 500; body := Error (error_message m) |}
      | None => None
      end
  end.

(** *** Runs of the server *)

(** The synchronous blocks of the server, which the scheduler runs one at a
    time: the admission of a request, and the worker loop from the
    settlement of the running reconciliation to its next suspension.  Each
    comes with the clock values it reads; a settlement comes with what the
    model service does. *)
Inductive Event : Type :=
| Ask (key : string) (rawPrompt : RawPrompt) (now_sweep now_lookup now_start : Z)
| Settle (api : string -> string -> nat -> Attempt) (now_done now_write : Z).

Definition step (s : State) (ev : Event) : State :=
  match ev with
  | Ask k r t1 t2 t3 => fst (handler k r t1 t2 t3 s)
  | Settle api t4 t5 => resume api t4 t5 s
  end.

Definition run (evs : list Event) (s : State) : State := fold_left step evs s.

(** the clock never goes back: from the value [t] on, the readings of the
    events are in order *)
Fixpoint monotone (t : Z) (evs : list Event) : Prop :=
  match evs with
  | [] => True
  | Ask _ _ t1 t2 t3 :: evs' => t <= t1 /\ t1 <= t2 /\ t2 <= t3 /\ monotone t3 evs'
  | Settle _ t4 t5 :: evs' => t <= t4 /\ t4 <= t5 /\ monotone t5 evs'
  end.

(** the last clock value read *)
Fixpoint clock_after (t : Z) (evs : list Event) : Z :=
  match evs with
  | [] => t
  | Ask _ _ _ _ t3 :: evs' => clock_after t3 evs'
  | Settle _ _ t5 :: evs' => clock_after t5 evs'
  end.

(** the sweep and the lookup of every request read the same clock value *)
Definition synchronous (evs : list Event) : Prop :=
  Forall (fun ev => match ev with
                    | Ask _ _ t1 t2 _ => t1 = t2
                    | Settle _ _ _ => True
                    end) evs.

(** the states in which the scheduler has the control *)
Definition suspended (s : State) : Prop :=
  exists t evs, monotone t evs /\ synchronous evs /\ s = run evs initial.

(** the states the server goes through: those, and the state of the worker
    loop between its [try] block and its [finally] block *)
Inductive instant : State -> Prop :=
| at_suspension s : suspended s -> instant s
| before_finally s api t4 t5 : suspended s -> instant (complete api t4 t5 s).

(** *** Vocabulary of the properties *)

(** the computations in progress: the running one and the queued ones *)
Definition live (s : State) : list QueueEntry :=
  match running s with
  | Some e => e :: requestQueue s
  | None => requestQueue s
  end.

(** no key is both cached and in flight *)
Definition exclusive (s : State) : Prop :=
  forall k, inflight s !! k = None \/ recentAnswers s !! k = None.

(** the cache entry of a key in flight, if any, has expired by [t] *)
Definition expired_in_flight (t : Z) (s : State) : Prop :=
  forall k p c, inflight s !! k = Some p -> recentAnswers s !! k = Some c ->
                TTL_MS < t - ts c.

(** per key, one handle and one computation in progress *)
Record consistent (s : State) : Prop :=
  { live_keys : NoDup (map key (live s));
    live_handles : forall k p,
        inflight s !! k = Some p <->
        exists e, In e (live s) /\ key e = k /\ handle e = p;
    worker_busy : isProcessing s = true <-> is_Some (running s);
    worker_idle : running s = None -> requestQueue s = [];
    handles_made : forall e, In e (live s) ->
        (handle e < promises s)%nat /\ settled s !! handle e = None;
    handles_distinct : NoDup (map handle (live s));
    settled_made : forall p, is_Some (settled s !! p) -> (p < promises s)%nat }.

(** The invariant read to the letter: at every instant no key is both
    cached and in flight. *)
Definition exclusive_at_every_instant : Prop :=
  forall s, instant s -> exclusive s.

(** a service on which every call throws *)
Definition service_down (model prompt : string) (n : nat) : Attempt :=
  Threw "fetch failed".

(** a service on which every model answers [a] with confidence [c] *)
Definition service_answering (a c : string) (model prompt : string) (n : nat) : Attempt :=
  text_response (Parser.answer_json a c).

(** a burst of requests for one key: the replies, in order *)
Fixpoint burst (k : string) (requests : list (RawPrompt * (Z * Z * Z))) (s : State)
    : State * list Reply :=
  match requests with
  | [] => (s, [])
  | (r, (t1, t2, t3)) :: requests' =>
      let '(s1, reply) := handler k r t1 t2 t3 s in
      let '(s2, replies) := burst k requests' s1 in
      (s2, reply :: replies)
  end.

Definition burst_events (k : string) (requests : list (RawPrompt * (Z * Z * Z)))
    : list Event :=
  map (fun q => Ask k (fst q) (fst (fst (snd q))) (snd (fst (snd q))) (snd (snd q)))
    requests.

(** the answer carried by a response *)
Definition answer_of (h : HttpResponse) : option string :=
  match body h with
  | Cached a | Coalesced a _ | Computed a _ _ _ => Some a
  | Error _ => None
  end.

(** what the handle of an entry settles to, by the outcome of its
    reconciliation and the clock value read when it ends *)
Definition settlement_of (e : QueueEntry) (now_done : Z) (outcome : string + string * Z)
    : Settlement :=
  match outcome with
  | inr (finalAnswer, confidence) =>
      Resolved {| a_answer := finalAnswer; duration := now_done - startTime e;
                  a_confidence := confidence |}
  | inl message => Rejected message
  end.

(** the reconciliations that end along a run, in order: the entry that the
    worker loop was running, and what its handle settles to *)
Fixpoint reconciliations (evs : list Event) (s : State) : list (QueueEntry * Settlement) :=
  match evs with
  | [] => []
  | ev :: evs' =>
      match ev with
      | Settle api now_done _ =>
          match running s with
          | Some e => [(e, settlement_of e now_done (reconcile api (rawPrompt e)))]
          | None => []
          end
      | Ask _ _ _ _ _ => []
      end ++ reconciliations evs' (step s ev)
  end.

(** those of the entries with handle [p] *)
Definition runs_of (p : nat) (evs : list Event) (s : State)
    : list (QueueEntry * Settlement) :=
  List.filter (fun x => Nat.eqb (handle (fst x)) p) (reconciliations evs s).

(** the response of a caller to whom the outcome of a reconciliation is
    passed on: status 200 with the answer, or status 500 with the message
    of the error *)
Definition passes_on (outcome : string + string * Z) (h : option HttpResponse) : Prop :=
  match outcome with
  | inr (finalAnswer, _) =>
      exists h', h = Some h' /\ status h' = 200 /\ answer_of h' = Some finalAnswer
  | inl message => h = Some {| status := 500; body := Error (error_message message) |}
  end.

(** the state after a question has been asked and answered B (90) *)
Definition answered_once : State :=
  run [Ask "q" (Plain "q") 0 0 0; Settle (service_answering "B" "90") 1500 1500] initial.

End Server.


(** ** Vocabulary of the further properties *)

Module Vocabulary.
Import Text Regex Json Invoker Voting Server.

(** *** Answers *)

(** [s] is [t] or comes before it in the order of the default sort *)
Definition before (s t : string) : Prop := Parser.str_leb s t = true.

(** strictly increasing in that order, so without repetition *)
Definition increasing (l : list string) : Prop :=
  StronglySorted (fun s t => before s t /\ s <> t) l.

Definition letters_A_to_F : list string := ["A"; "B"; "C"; "D"; "E"; "F"].

(** a canonical letter answer: letters A to F in increasing order, without
    repetition, separated by a comma and a space *)
Definition canonical (s : string) : Prop :=
  exists ls, s = join ", " ls /\ ls <> [] /\ increasing ls
             /\ Forall (fun x => In x letters_A_to_F) ls.


(** *** Delays and error texts *)

(** the time spent waiting, in milliseconds *)
Definition total (waits : list Z) : Z := fold_right Z.add 0 waits.

(** the texts of the known API error codes *)
Definition api_error_texts : list string :=
  ["🔄 Server Sibuk"; "⏳ Rate limit"; "🔑 API key expired"; "🔑 API key invalid";
   "🔑 API key salah"; "❓ Model tidak ada"].

(** *** Tallies *)

(** a tally of one vote or more, whose confidences all lie between [lo]
    and [hi] *)
Definition within (lo hi : Z) (t : Tally) : Prop :=
  0 < count t /\ lo * count t <= totalConfidence t <= hi * count t.

(** where the answer and the confidence of a weighted vote come from: the
    only successful result, a ranked answer of the tally, or one of the
    results after the reliability pass *)
Inductive origin (modelResults : list ModelResult) (v : VotingResult) : Prop :=
| from_single answer confidence model raw :
    List.filter success modelResults = [Success answer confidence model raw] ->
    finalAnswer v = answer -> finalConfidence v = confidence ->
    origin modelResults v
| from_tally top :
    In top (sorted_votes
              (recorded_answers (reliableResults (List.filter success modelResults)))) ->
    finalAnswer v = Voting.answer top -> finalConfidence v = avgConfidence top ->
    origin modelResults v
| from_result r :
    In r (reliableResults (List.filter success modelResults)) ->
    finalAnswer v = rl_answer r -> finalConfidence v = rl_confidence r ->
    origin modelResults v.

(** *** The server's books *)

(** Handles are numbered as they are made.  The computations in progress
    are the last ones made, in the order of their making, the running one
    first; every earlier handle has settled; the request counter counts
    the entries taken off the queue. *)
Record ledger (s : State) : Prop :=
  { live_in_order :
      map handle (live s) = seq (promises s - length (live s)) (length (live s));
    live_made : (length (live s) <= promises s)%nat;
    settled_first : forall p,
        is_Some (settled s !! p) <-> (p < promises s - length (live s))%nat;
    entries_taken :
      requestCounter s = Z.of_nat (promises s - length (requestQueue s)) }.

(** no empty answer is settled or cached, and every confidence settled is
    a percentage *)
Definition wholesome (s : State) : Prop :=
  (forall p v, settled s !! p = Some (Resolved v) ->
               Text.truthy (a_answer v) = true /\ 0 <= a_confidence v <= 100)
  /\ (forall k c, recentAnswers s !! k = Some c -> Text.truthy (ce_answer c) = true).

(** a settlement of the running reconciliation, as opposed to a request *)
Definition is_settlement (ev : Event) : Prop :=
  match ev with
  | Settle _ _ _ => True
  | Ask _ _ _ _ _ => False
  end.

(** the line of an option in a prompt *)
Definition option_line (o : QuestionOption) : string :=
  label o +:+ ". " +:+ Voting.text o +:+ nl.

End Vocabulary.

(** ** Chess move server: the choice of the move *)

Module Chess.
Import Text Regex Json.

(** the first brace of the response text, up to the last closing brace
    after a [move] member name; the dot matches line terminators too *)
Definition move_object : regex :=
  cat [lit "{"; star any; lit (dq +:+ "move" +:+ dq); star any; lit "}"].

(** a character that is none of [a-h], [1-8], [q], [r], [b], [n] *)
Definition not_in_move (a : ascii) : bool :=
  negb (in_range 97 104 a || in_range 49 56 a
        || is_char 113 a || is_char 114 a || is_char 98 a || is_char 110 a).

(** The move read off the response text: [None] when an error is thrown,
    by [JSON.parse] or by the call of [toLowerCase] on a member that is not
    a text. *)
Definition extract_move (responseText : string) : option string :=
  match exec move_object responseText with
  | Some jsonMatch =>
      match JSON_parse (text (m_text jsonMatch)) with
      | Some parsed =>
          match get parsed "move" with
          | Some None | Some (Some JNull) => Some ""
          | Some (Some (JStr s)) =>
              Some (replace_all (Chr not_in_move) "" (toLowerCase s))
          | Some (Some _) => None
          | None => None
          end
      | None => None
      end
  | None => Some ""
  end.

(** what the handler of POST /analyze ends with, once the legal moves of
    the position are known *)
Inductive Outcome : Type :=
| NoLegalMoves                      (* error "No legal moves (game over?)", move "" *)
| Played (move : option string)     (* status 200; [None] is [undefined] *)
| Failed.                           (* status 500 *)

(** [legalMovesUCI] is the list that the chess library gives for the
    position; [responseText] is the text of the model's response, [None]
    when the call throws; [pick] is the value of
    [Math.floor(Math.random() * legalMovesUCI.length)]. *)
Definition choose_move (legalMovesUCI : list string) (responseText : option string)
    (pick : nat) : Outcome :=
  match legalMovesUCI with
  | [] => NoLegalMoves
  | _ :: _ =>
      match responseText with
      | Some responseText =>
          match extract_move responseText with
          | Some move =>
              if bool_decide (move ∈ legalMovesUCI) then Played (Some move)
              else Played (legalMovesUCI !! pick)
          | None => Failed
          end
      | None => Failed
      end
  end.

End Chess.
(** * Properties *)

(** ** Answer Parser *)

Module ParserFacts.
Import Text Regex Json Parser.

Lemma first_of_None fs text :
  (forall step, In step fs -> step text = None) -> first_of fs text = None.
Proof.
  induction fs as [|f fs IH]; intros Hall; simpl; [done|].
  rewrite (Hall f) by (by left). apply IH. intros step Hstep. apply Hall. by right.
Qed.

Lemma first_of_Some fs text r :
  first_of fs text = Some r -> exists step, In step fs /\ step text = Some r.
Proof.
  induction fs as [|f fs IH]; simpl; [done|].
  destruct (f text) as [r'|] eqn:Hf.
  - intros [= <-]. exists f. auto.
  - intros Hr. destruct (IH Hr) as [step [Hin Hstep]]. exists step. auto.
Qed.

(** C3 (amended): when every resolution step falls through, the parser
    returns the empty answer, with confidence 50 for an absent raw text
    (null or empty, which its guard answers before any step) and with
    confidence 0 for any other text. *)
Theorem total_parse_failure rawText :
  all_steps_fail rawText ->
  parseAnswerWithConfidence rawText = empty_result (if absent rawText then 50 else 0).
Proof.
  intros Hfail. destruct rawText as [raw|]; [|reflexivity].
  unfold parseAnswerWithConfidence, absent.
  destruct (Text.truthy raw); [|reflexivity]. cbn [negb].
  rewrite first_of_None; [reflexivity|]. intros step Hstep. by apply Hfail.
Qed.

(** unrelated prose parses to the empty answer with confidence 0 *)
Lemma total_parse_failure_example :
  parseAnswerWithConfidence (Some "blah blah unrelated text") = empty_result 0.
Proof.
  apply (total_parse_failure (Some "blah blah unrelated text")).
  intros raw [= <-] step Hstep.
  repeat (destruct Hstep as [<-|Hstep]; [vm_compute; reflexivity|]).
  destruct Hstep.
Defined.

(** C3 as stated fails: no step returns on an absent text, and the result
    has confidence 50. *)
Lemma failure_rule_counterexample : ~ failure_rule_to_the_letter.
Proof.
  intros H.
  assert (all_steps_fail None) as Hfail by (intros raw Hraw; discriminate Hraw).
  specialize (H None Hfail). discriminate H.
Qed.

(** the same on the empty text *)
Lemma empty_text_confidence :
  all_steps_fail (Some "") /\ parseAnswerWithConfidence (Some "") = empty_result 50.
Proof.
  split; [|reflexivity]. intros raw [= <-] step Hstep.
  repeat (destruct Hstep as [<-|Hstep]; [vm_compute; reflexivity|]).
  destruct Hstep.
Qed.

(** a result other than the final one comes from a step that returned *)
Lemma parsed_by_step raw r :
  Text.truthy raw = true ->
  parseAnswerWithConfidence (Some raw) = r ->
  r = empty_result 0 \/ exists step, In step steps /\ step (trim raw) = Some r.
Proof.
  intros Hraw <-. unfold parseAnswerWithConfidence. rewrite Hraw. cbn [negb].
  destruct (first_of steps (trim raw)) as [r|] eqn:Hr; [|by left].
  right. by apply first_of_Some.
Qed.

(** *** The JSON step *)

(** the confidence of a parsed object is within 0..100 *)
Lemma clamp_confidence_range c : 0 <= clamp_confidence c <= 100.
Proof. unfold clamp_confidence. lia. Qed.

(** the fenced object of the specification: B, clamped to 100 *)
Lemma fenced_json_clamped :
  parseAnswerWithConfidence (Some (fenced (answer_json "B" "120")))
  = {| answer := "B"; confidence := 100 |}.
Proof. vm_compute. reflexivity. Qed.

(** a confidence below 0 is clamped to 0, an absent or non-numeric one is
    replaced by 50 *)
Lemma json_confidence_cases :
  parseAnswerWithConfidence (Some (answer_json "a" "-3"))
  = {| answer := "A"; confidence := 0 |}
  /\ parseAnswerWithConfidence (Some (answer_json "a" "73"))
     = {| answer := "A"; confidence := 73 |}
  /\ parseAnswerWithConfidence (Some (answer_json "a" (quoted "high")))
     = {| answer := "A"; confidence := 50 |}
  /\ parseAnswerWithConfidence (Some ("{" +:+ quoted "answer" +:+ ":" +:+ quoted "a" +:+ "}"))
     = {| answer := "A"; confidence := 50 |}.
Proof. repeat split; vm_compute; reflexivity. Qed.

(** C9 (the code departs from it): the text is a JSON object with the
    fields answer and confidence, the confidence 0 is present and valid, and
    the parser returns 50 instead of 0. *)
Theorem zero_confidence_defaulted :
  JSON_parse (answer_json "A" "0")
  = Some (JObj [("answer", JStr "A"); ("confidence", JNum 0 0)])
  /\ parseAnswerWithConfidence (Some (answer_json "A" "0"))
     = {| answer := "A"; confidence := 50 |}.
Proof. split; vm_compute; reflexivity. Qed.

End ParserFacts.

(** ** Model Invoker *)

Module InvokerFacts.
Import Text Invoker.

Lemma waitTime_backoff e k ks :
  waitTime (e k) k :: backoff e ks = backoff e (k :: ks).
Proof. unfold waitTime, backoff. simpl. by destruct (isOverload (e k)). Qed.

(** one round of the loop *)
Lemma attempts_S model api retries left attempt :
  attempts model api retries (S left) attempt
  = match attempt_result (api attempt) with
    | inl (p, rawText) =>
        (Success (Parser.answer p) (Parser.confidence p) model rawText, [])
    | inr errMsg =>
        if (attempt =? retries)%nat then (Failure model (exhausted_error errMsg), [])
        else
          let '(r, waits) := attempts model api retries left (S attempt) in
          (r, waitTime errMsg attempt :: waits)
    end.
Proof. reflexivity. Qed.

(** the loop from an attempt that fails up to a first attempt that succeeds *)
Lemma attempts_until_success model api retries (e : nat -> string) j p raw :
  (j <= retries)%nat ->
  attempt_result (api j) = inl (p, raw) ->
  forall d attempt left,
    (attempt + d = j)%nat -> (left + attempt = S retries)%nat ->
    (forall k, (attempt <= k < j)%nat -> attempt_result (api k) = inr (e k)) ->
    attempts model api retries left attempt
    = (Success (Parser.answer p) (Parser.confidence p) model raw,
       backoff e (seq attempt d)).
Proof.
  intros Hj Hok. induction d as [|d IH]; intros attempt left Hd Hleft Hfail.
  - assert (attempt = j) as -> by lia.
    destruct left as [|left]; [lia|]. rewrite attempts_S, Hok. reflexivity.
  - destruct left as [|left]; [lia|]. rewrite attempts_S.
    rewrite (Hfail attempt) by lia.
    destruct (Nat.eqb_spec attempt retries) as [?|_]; [lia|].
    rewrite (IH (S attempt) left) by (try lia; intros k Hk; apply Hfail; lia).
    by rewrite waitTime_backoff.
Qed.

(** the loop when every attempt up to the last one fails *)
Lemma attempts_exhausted model api retries (e : nat -> string) :
  forall d attempt left,
    (attempt + d = retries)%nat -> left = S d ->
    (forall k, (attempt <= k <= retries)%nat -> attempt_result (api k) = inr (e k)) ->
    attempts model api retries left attempt
    = (Failure model (exhausted_error (e retries)), backoff e (seq attempt d)).
Proof.
  induction d as [|d IH]; intros attempt left Hd -> Hfail.
  - assert (attempt = retries) as -> by lia. rewrite attempts_S.
    rewrite (Hfail retries) by lia. rewrite Nat.eqb_refl. reflexivity.
  - rewrite attempts_S. rewrite (Hfail attempt) by lia.
    destruct (Nat.eqb_spec attempt retries) as [?|_]; [lia|].
    rewrite (IH (S attempt) (S d)) by (try lia; intros k Hk; apply Hfail; lia).
    by rewrite waitTime_backoff.
Qed.

(** C8: the attempts before [j] fail with the messages [e 1], [e 2], ...;
    each of them that is not the last one is followed by a wait of attempt
    x 1000 ms, of attempt x 2000 ms when its message is an overload one
    (it contains 503, 429 or Overload); when attempt [j] succeeds its
    answer is returned, and when all the attempts have failed the invoker
    returns a failed result (it does not throw) with a classified error. *)
Theorem retry_backoff model api retries (e : nat -> string) j :
  (1 <= j)%nat ->
  (forall k, (1 <= k < j)%nat -> attempt_result (api k) = inr (e k)) ->
  (forall p raw,
      (j <= retries)%nat -> attempt_result (api j) = inl (p, raw) ->
      callSingleModel_waits model api retries
      = (Success (Parser.answer p) (Parser.confidence p) model raw,
         backoff e (seq 1 (j - 1))))
  /\ (j = S retries ->
      success (callSingleModel model api retries) = false
      /\ callSingleModel_waits model api retries
         = (Failure model (if (retries =? 0)%nat then "Unknown error"
                           else exhausted_error (e retries)),
            backoff e (seq 1 (retries - 1)))).
Proof.
  intros Hj Hfail. split.
  - intros p raw Hle Hok. unfold callSingleModel_waits.
    apply (attempts_until_success model api retries e j p raw Hle Hok); [lia|lia|].
    intros k Hk. apply Hfail. lia.
  - intros ->. unfold callSingleModel, callSingleModel_waits.
    destruct retries as [|n]; [done|].
    rewrite (attempts_exhausted model api (S n) e n 1 (S n)); [|lia|lia|].
    + simpl. rewrite Nat.sub_0_r. done.
    + intros k Hk. apply Hfail. lia.
Qed.

(** three attempts answered by an overload, an unparseable text and a
    network error: waits of 2000 ms and 2000 ms, then a failed result *)
Lemma retry_backoff_example :
  callSingleModel_waits "gemini-2.5-pro"
    (fun n => match n with
              | 1%nat => Threw "[503 Service Unavailable] The model is overloaded."
              | 2%nat => text_response "I am not sure."
              | _ => Threw "fetch failed: network unreachable"
              end) 3
  = (Failure "gemini-2.5-pro" "📡 Network error", [2000; 2000]).
Proof.
  apply (retry_backoff "gemini-2.5-pro" _ 3
           (fun n => match n with
                     | 1%nat => "[503 Service Unavailable] The model is overloaded."
                     | 2%nat => "Empty response or parse failure"
                     | _ => "fetch failed: network unreachable"
                     end) 4).
  - lia.
  - intros k Hk. assert (k = 1 \/ k = 2 \/ k = 3)%nat as [->|[->| ->]] by lia;
      vm_compute; reflexivity.
  - reflexivity.
Defined.

(** the delays grow linearly with the attempt *)
Lemma backoff_linear e k :
  backoff e [k] = [if isOverload (e k) then 2000 * Z.of_nat k else 1000 * Z.of_nat k].
Proof. unfold backoff. simpl. by destruct (isOverload (e k)). Qed.

End InvokerFacts.

(** ** Voting *)

Module VotingFacts.
Import Text Invoker Voting.

Lemma eqb_decide (a b : string) : String.eqb a b = bool_decide (a = b).
Proof.
  destruct (String.eqb_spec a b); symmetry; [by apply bool_decide_eq_true|by apply bool_decide_eq_false].
Qed.

Lemma has_key_tally k o : has_key k o = match tally k o with Some _ => true | None => false end.
Proof.
  induction o as [|[k' t] o IH]; simpl; [done|].
  by destruct (String.eqb k' k).
Qed.

Lemma tally_update k' k f o :
  tally k' (update k f o) = if decide (k' = k) then f <$> tally k o else tally k' o.
Proof.
  induction o as [|[k0 t] o IH]; simpl.
  - by destruct (decide _).
  - destruct (String.eqb_spec k0 k) as [->|Hne]; simpl.
    + destruct (decide (k' = k)) as [->|Hne'].
      * by rewrite String.eqb_refl.
      * destruct (String.eqb_spec k k'); congruence.
    + rewrite IH. destruct (String.eqb_spec k0 k') as [->|]; [|done].
      destruct (decide (k' = k)); congruence.
Qed.

Lemma tally_snoc k o k0 t0 :
  tally k (o ++ [(k0, t0)]) =
  match tally k o with Some t => Some t | None => if String.eqb k0 k then Some t0 else None end.
Proof.
  induction o as [|[k1 t] o IH]; simpl; [done|].
  by destruct (String.eqb k1 k).
Qed.

Lemma tally_add_vote k' k c m o :
  tally k' (record_vote k c m o) =
  if decide (k' = k) then Some (bump c m (default no_votes (tally k o))) else tally k' o.
Proof.
  unfold record_vote. rewrite has_key_tally.
  destruct (tally k o) as [t|] eqn:Ht.
  - rewrite tally_update, Ht. done.
  - rewrite tally_update, !tally_snoc, Ht, String.eqb_refl. simpl.
    destruct (decide (k' = k)) as [->|Hne]; [done|].
    destruct (tally k' o); [done|].
    destruct (String.eqb_spec k k'); congruence.
Qed.

Lemma keys_update k f o : map fst (update k f o) = map fst o.
Proof.
  induction o as [|[k0 t] o IH]; simpl; [done|].
  destruct (String.eqb k0 k); simpl; congruence.
Qed.

Lemma tally_None_keys k o : tally k o = None <-> k ∉ map fst o.
Proof.
  induction o as [|[k0 t] o IH]; simpl.
  - split; [intros _; apply not_elem_of_nil|done].
  - rewrite not_elem_of_cons. destruct (String.eqb_spec k0 k) as [->|Hne].
    + split; [done|]. intros [? _]. done.
    + rewrite IH. split; [intros ?; split; congruence|by intros [_ ?]].
Qed.

Lemma NoDup_add_vote k c m o :
  NoDup (map fst o) -> NoDup (map fst (record_vote k c m o)).
Proof.
  intros Hnd. unfold record_vote. rewrite keys_update, has_key_tally.
  destruct (tally k o) as [t|] eqn:Ht; [done|].
  - rewrite map_app. simpl. apply NoDup_app. split; [done|]. split.
    + intros x Hx Hx'. apply list_elem_of_singleton in Hx'. subst x.
      by apply tally_None_keys in Ht.
    + apply NoDup_singleton.
Qed.

Lemma elem_tally k t o : NoDup (map fst o) -> (k, t) ∈ o <-> tally k o = Some t.
Proof.
  induction o as [|[k0 t0] o IH]; simpl; intros Hnd.
  - split; [by intros ?%elem_of_nil|done].
  - apply NoDup_cons in Hnd as [Hnotin Hnd]. rewrite elem_of_cons, (IH Hnd).
    destruct (String.eqb_spec k0 k) as [->|Hne].
    + split.
      * intros [[= ->]|Hin]; [done|]. exfalso.
        apply tally_None_keys in Hnotin. congruence.
      * intros [= ->]. by left.
    + split; [intros [[= ? ?]|?]; congruence|by right].
Qed.

(** *** The tally of a round *)

Lemma total_confidence_snoc l r :
  total_confidence (l ++ [r]) = total_confidence l + confidence_of r.
Proof. induction l as [|x l IH]; simpl; [lia|]. rewrite IH. lia. Qed.

Lemma tally_of_snoc l r :
  tally_of (l ++ [r]) = bump (confidence_of r) (model_of r) (tally_of l).
Proof.
  unfold tally_of, bump. simpl.
  rewrite length_app, total_confidence_snoc, map_app. simpl. f_equal. lia.
Qed.

Lemma recorded_votes_snoc options l r :
  recorded_votes options (l ++ [r]) = record_result options (recorded_votes options l) r.
Proof. unfold recorded_votes. by rewrite fold_left_app. Qed.

Lemma supporters_snoc options a l r :
  supporters options a (l ++ [r]) =
  supporters options a l ++ (if supports options a r then [r] else []).
Proof. unfold supporters. rewrite List.filter_app. simpl. by destruct (supports _ _ _). Qed.

#[local] Arguments normalize : simpl never.
#[local] Arguments normalizeAnswer : simpl never.

Lemma recorded_votes_spec options results :
  NoDup (map fst (recorded_votes options results)) /\
  forall k, tally k (recorded_votes options results) =
            match supporters options k results with
            | [] => None
            | l => if Text.truthy k then Some (tally_of l) else None
            end.
Proof.
  induction results as [|r l [IHnd IH]] using rev_ind.
  - split; [constructor|done].
  - rewrite recorded_votes_snoc. unfold record_result.
    destruct r as [answer confidence model raw|model error]; simpl.
    + set (n := normalize (Some answer) options).
      destruct (Text.truthy n) eqn:Hn.
      * split; [by apply NoDup_add_vote|].
        intros k. rewrite tally_add_vote, supporters_snoc. unfold supports. simpl.
        fold n. rewrite eqb_decide.
        destruct (decide (k = n)) as [->|Hne].
        -- rewrite bool_decide_eq_true_2 by done. rewrite IH, Hn.
           destruct (supporters options n l) as [|x l'] eqn:Hs; simpl.
           ++ unfold bump, tally_of, no_votes. simpl. do 2 f_equal. lia.
           ++ f_equal. change (x :: l' ++ [Success answer confidence model raw])
                with ((x :: l') ++ [Success answer confidence model raw]).
              by rewrite tally_of_snoc.
        -- rewrite bool_decide_eq_false_2 by done. rewrite app_nil_r. apply IH.
      * split; [done|]. intros k. rewrite supporters_snoc. unfold supports. simpl.
        fold n. rewrite eqb_decide. rewrite IH.
        destruct (decide (n = k)) as [<-|Hne].
        -- rewrite bool_decide_eq_true_2 by done. rewrite Hn.
           by destruct (supporters options n l).
        -- rewrite bool_decide_eq_false_2 by done. by rewrite app_nil_r.
    + split; [done|]. intros k. rewrite supporters_snoc. unfold supports. simpl.
      rewrite app_nil_r. apply IH.
Qed.

(** *** Order of the entries and of the sort *)

Lemma In_insert_index e x l : In x (insert_index e l) <-> x = e \/ In x l.
Proof.
  induction l as [|y l IH]; simpl.
  - split; (intros [?|[]]; left; congruence).
  - destruct (fst y <=? fst e); simpl; rewrite ?IH;
      intuition (try congruence; auto).
Qed.

Lemma In_indexed (o : Counts) acc y :
  In y (fold_left (fun acc kv => match array_index (fst kv) with
                                 | Some n => insert_index (n, kv) acc
                                 | None => acc
                                 end) o acc)
  <-> In y acc \/ (In (snd y) o /\ array_index (fst (snd y)) = Some (fst y)).
Proof.
  revert acc. induction o as [|kv o IH]; intros acc; simpl; [tauto|].
  rewrite IH. destruct (array_index (fst kv)) as [n|] eqn:Hn.
  - rewrite In_insert_index. split.
    + intros [[->|?]|[? ?]]; simpl; auto.
    + intros [?|[[Heq|?] Hy]]; auto.
      left. left. destruct y as [m kv']. simpl in *. subst kv'. congruence.
  - split.
    + intros [?|[? ?]]; auto.
    + intros [?|[[Heq|?] Hy]]; auto. subst kv. congruence.
Qed.

Lemma In_entries x o : In x (entries o) <-> In x o.
Proof.
  unfold entries. rewrite in_app_iff, in_map_iff, filter_In. split.
  - intros [[y [<- Hy]]|[? _]]; [|done].
    apply In_indexed in Hy as [[]|[? _]]. done.
  - intros Hx. destruct (array_index (fst x)) as [n|] eqn:Hn.
    + left. exists (n, x). split; [done|]. apply In_indexed. right. done.
    + right. split; [done|]. rewrite bool_decide_eq_false_2; [done|].
      by intros [? ?].
Qed.

Section SortFacts.
Context {A : Type} (cmp : A -> A -> Z).
Hypothesis cmp_total : forall x y, 0 < cmp y x -> cmp x y <= 0.
Hypothesis cmp_trans : forall x y z, cmp x y <= 0 -> cmp y z <= 0 -> cmp x z <= 0.

Lemma In_insert_by x y l : In y (insert_by cmp x l) <-> y = x \/ In y l.
Proof.
  induction l as [|z l IH]; simpl.
  - split; (intros [?|[]]; left; congruence).
  - destruct (cmp z x <=? 0); simpl; rewrite ?IH;
      intuition (try congruence; auto).
Qed.

Lemma In_sort_by y l : In y (sort_by cmp l) <-> In y l.
Proof.
  unfold sort_by.
  enough (forall acc, In y (fold_left (fun acc x => insert_by cmp x acc) l acc)
                      <-> In y acc \/ In y l) as H.
  { rewrite H. simpl. tauto. }
  induction l as [|x l IH]; intros acc; simpl; [tauto|].
  rewrite IH, In_insert_by. intuition.
Qed.

Lemma insert_by_sorted x l :
  StronglySorted (fun a b => cmp a b <= 0) l ->
  StronglySorted (fun a b => cmp a b <= 0) (insert_by cmp x l).
Proof.
  induction 1 as [|z l Hs IH Hz]; simpl.
  - repeat constructor.
  - destruct (Z.leb_spec (cmp z x) 0) as [Hle|Hgt].
    + constructor; [done|]. apply List.Forall_forall. intros y Hy.
      apply In_insert_by in Hy as [->|Hy]; [done|].
      rewrite List.Forall_forall in Hz. auto.
    + constructor; [by constructor|].
      assert (cmp x z <= 0) as Hxz by auto.
      constructor; [done|]. rewrite List.Forall_forall in Hz |- *.
      intros y Hy. eauto.
Qed.

Lemma sort_by_sorted l : StronglySorted (fun a b => cmp a b <= 0) (sort_by cmp l).
Proof.
  unfold sort_by.
  enough (forall acc, StronglySorted (fun a b => cmp a b <= 0) acc ->
            StronglySorted (fun a b => cmp a b <= 0)
              (fold_left (fun acc x => insert_by cmp x acc) l acc)) as H.
  { apply H. constructor. }
  induction l as [|x l IH]; intros acc Hacc; simpl; [done|].
  apply IH. by apply insert_by_sorted.
Qed.

(** the first element of the sorted list comes before every element *)
Lemma sort_by_head h t l y : sort_by cmp l = h :: t -> In y l -> cmp h y <= 0.
Proof.
  intros Heq Hy. pose proof (sort_by_sorted l) as Hs. rewrite Heq in Hs.
  apply In_sort_by in Hy. rewrite Heq in Hy.
  apply StronglySorted_inv in Hs as [_ Hall]. destruct Hy as [<-|Hy].
  - destruct (Z.le_gt_cases (cmp h h) 0) as [?|Hgt]; [done|].
    apply cmp_total. lia.
  - rewrite List.Forall_forall in Hall. auto.
Qed.
End SortFacts.




(** *** The top vote *)


Lemma In_sorted_votes h options results :
  In h (sorted_votes (recorded_votes options results)) <->
  exists k, Text.truthy k = true /\ supporters options k results <> []
            /\ h = ranked (k, tally_of (supporters options k results)).
Proof.
  destruct (recorded_votes_spec options results) as [Hnd Hspec].
  unfold sorted_votes. rewrite In_sort_by, in_map_iff. split.
  - intros [[k t] [<- Hin]]. rewrite In_entries, <- list_elem_of_In in Hin.
    apply elem_tally in Hin; [|done]. rewrite Hspec in Hin.
    exists k. revert Hin.
    destruct (supporters options k results) eqn:Hs; [done|].
    destruct (Text.truthy k); [|done]. intros [= <-]. done.
  - intros [k (Hk & Hs & ->)]. exists (k, tally_of (supporters options k results)).
    split; [done|]. rewrite In_entries, <- list_elem_of_In. apply elem_tally; [done|].
    rewrite Hspec, Hk. by destruct (supporters options k results).
Qed.



(** *** Answers that are names of inherited properties *)

Lemma has_key_recorded options results k :
  has_key k (recorded_votes options results) = true ->
  exists r, In r results /\ normalized options r = Some k.
Proof.
  rewrite has_key_tally. destruct (recorded_votes_spec options results) as [_ H].
  rewrite H. destruct (supporters options k results) as [|r l] eqn:Hs; [done|].
  intros _.
  assert (In r (supporters options k results)) as Hr by (rewrite Hs; by left).
  unfold supporters in Hr. apply filter_In in Hr as [Hin Hsup]. exists r.
  split; [done|]. unfold supports in Hsup.
  destruct (normalized options r) as [n|]; [|done].
  apply String.eqb_eq in Hsup. by subst.
Qed.

Lemma voteCounts_snoc options l r :
  voteCounts options (l ++ [r])
  = match voteCounts options l with
    | Some o => count_vote options o r
    | None => None
    end.
Proof. unfold voteCounts. by rewrite fold_left_app. Qed.

(** the loop throws exactly when the answer of a result normalizes to an
    inherited name; otherwise it tallies the votes *)
Lemma voteCounts_plain options results :
  voteCounts options results
  = if plain options results then Some (recorded_votes options results) else None.
Proof.
  induction results as [|r l IH] using rev_ind; [done|].
  rewrite voteCounts_snoc, IH, recorded_votes_snoc. unfold plain in *.
  rewrite forallb_app. cbn [forallb]. rewrite andb_true_r.
  destruct (forallb (plain_result options) l) eqn:Hl; [|done]. cbn [andb].
  unfold count_vote, record_result, plain_result.
  destruct r as [answer confidence model raw|model error]; [|done].
  cbn [normalized]. set (n := normalize (Some answer) options).
  destruct (Text.truthy n) eqn:Hn.
  - unfold add_vote. destruct (inherited n) eqn:Hi; cbn [negb]; [|by rewrite andb_false_r].
    destruct (has_key n (recorded_votes options l)) eqn:Hk; [|done].
    apply has_key_recorded in Hk as (r' & Hr' & Hn').
    rewrite forallb_forall in Hl. specialize (Hl r' Hr'). unfold plain_result in Hl.
    rewrite Hn', Hi in Hl. discriminate Hl.
  - unfold Text.truthy in Hn. apply negb_false_iff, String.eqb_eq in Hn.
    by rewrite Hn.
Qed.

Lemma plain_failures options results :
  (forall r, In r results -> success r = false) -> plain options results = true.
Proof.
  intros Hall. apply forallb_forall. intros r Hr. specialize (Hall r Hr).
  unfold plain_result. by destruct r.
Qed.

Lemma upper_char_not_lower a : is_lower (upper_char a) = false.
Proof. destruct a as [[] [] [] [] [] [] [] []]; reflexivity. Qed.

Lemma In_drop_space c l : In c (drop_space l) -> In c l.
Proof.
  induction l as [|a l IH]; cbn [drop_space]; [done|].
  destruct (is_space a); [right; by apply IH|done].
Qed.

Lemma inherited_has_lower k : inherited k = true -> existsb is_lower (chars k) = true.
Proof.
  unfold inherited, inherited_names. intros H. apply bool_decide_eq_true in H.
  repeat (apply elem_of_cons in H as [->|H]; [reflexivity|]).
  by apply elem_of_nil in H.
Qed.

(** a key in upper case is no inherited name *)
Lemma upper_case_own s : inherited (trim (toUpperCase s)) = false.
Proof.
  destruct (inherited _) eqn:Hi; [|done]. apply inherited_has_lower in Hi.
  apply existsb_exists in Hi as (c & Hc & Hlow).
  unfold trim, toUpperCase, chars, text in Hc.
  rewrite !list_ascii_of_string_of_list_ascii in Hc. unfold trim_chars in Hc.
  apply in_rev, In_drop_space, in_rev, In_drop_space in Hc.
  apply in_map_iff in Hc as (a & <- & _). by rewrite upper_char_not_lower in Hlow.
Qed.

Lemma answerCounts_snoc rs r :
  answerCounts (rs ++ [r])
  = match answerCounts rs with
    | Some o => add_vote (trim (toUpperCase (rl_answer r))) (rl_confidence r)
                  (rl_model r) o
    | None => None
    end.
Proof. unfold answerCounts. by rewrite fold_left_app. Qed.

(** the tally of the weighted vote never throws: its keys are in upper
    case *)
Lemma answerCounts_recorded rs : answerCounts rs = Some (recorded_answers rs).
Proof.
  induction rs as [|r rs IH] using rev_ind; [done|].
  rewrite answerCounts_snoc, IH. unfold add_vote.
  rewrite upper_case_own, andb_false_r. unfold recorded_answers.
  by rewrite fold_left_app.
Qed.

(** *** The ensemble with a judge *)

Lemma round_div_spec t c :
  0 < c -> 2 * c * round_div t c <= 2 * t + c < 2 * c * (round_div t c + 1).
Proof.
  intros Hc. unfold round_div.
  pose proof (Z.div_mod (2 * t + c) (2 * c) ltac:(lia)).
  pose proof (Z.mod_pos_bound (2 * t + c) (2 * c) ltac:(lia)). nia.
Qed.


Lemma ensemble_unfold invoke prompt options :
  callGeminiEnsemble invoke prompt options =
  if plain options (worker_results invoke prompt) then
  match agreed (sorted_votes (recorded_votes options (worker_results invoke prompt))) with
  | Some topVote =>
      (inr (outcome (answer topVote) (avgConfidence topVote)
              (if r_count topVote =? 3 then "unanimous" else "majority")),
       worker_calls prompt)
  | None =>
      match invoke (MODEL 3) prompt with
      | Success answer confidence _ _ =>
          (inr (outcome answer confidence "judge"),
           worker_calls prompt ++ [(MODEL 3, prompt)])
      | Failure _ _ =>
          match best_worker (worker_results invoke prompt) with
          | Some (Success answer confidence _ _) =>
              (inr (outcome answer confidence "fallback_worker"),
               worker_calls prompt ++ [(MODEL 3, prompt)])
          | _ => (inl "All models failed including Judge",
                  worker_calls prompt ++ [(MODEL 3, prompt)])
          end
      end
  end
  else (inl push_of_undefined, worker_calls prompt).
Proof.
  unfold callGeminiEnsemble. fold (worker_results invoke prompt).
  rewrite voteCounts_plain. by destruct (plain _ _).
Qed.

(** on an answer that normalizes to an inherited name the tally throws,
    whatever the votes, and the judge is not called *)
Lemma inherited_answer_throws invoke prompt options :
  plain options (worker_results invoke prompt) = false ->
  callGeminiEnsemble invoke prompt options
  = (inl push_of_undefined, worker_calls prompt).
Proof. intros Hp. by rewrite ensemble_unfold, Hp. Qed.

(** two workers of three choosing the option labelled constructor: no
    majority is returned, the round throws *)
Lemma majority_on_inherited_name :
  let options := [{| label := "constructor"; text := "routing" |};
                  {| label := "B"; text := "switching" |};
                  {| label := "C"; text := "tunnel" |}] in
  let invoke := round (answered "w1" "routing" 90) (answered "w2" "Routing" 80)
                  (answered "w3" "B" 70) (answered "judge" "B" 95) in
  (length (supporters options "constructor" (worker_results invoke "prompt")) = 2)%nat
  /\ callGeminiEnsemble invoke "prompt" options
     = (inl push_of_undefined, worker_calls "prompt").
Proof. split; vm_compute; reflexivity. Qed.




(** answers that normalize to the empty text are not votes: two workers
    answering a blank do not make a majority, and the judge decides *)
Lemma blank_answers_not_counted :
  (length (supporters [] ""
             (worker_results
                (round (answered "w1" " " 90) (answered "w2" " " 80)
                   (answered "w3" "B" 70) (answered "judge" "D" 95)) "prompt")) = 2)%nat
  /\ fst (callGeminiEnsemble
            (round (answered "w1" " " 90) (answered "w2" " " 80)
               (answered "w3" "B" 70) (answered "judge" "D" 95)) "prompt" [])
     = inr (outcome "D" 95 "judge").
Proof. split; vm_compute; reflexivity. Qed.

(** *** The judge and the fallback *)

Lemma best_worker_Some results r :
  best_worker results = Some r ->
  In r results /\ success r = true
  /\ forall r', In r' results -> success r' = true -> confidence_of r' <= confidence_of r.
Proof.
  unfold best_worker.
  destruct (sort_by by_confidence (List.filter success results)) as [|h t] eqn:Hs;
    [done|].
  intros [= <-].
  assert (In h (List.filter success results)) as Hin.
  { apply (In_sort_by by_confidence). rewrite Hs. by left. }
  apply filter_In in Hin as [Hin Hok]. repeat split; [done..|].
  intros r' Hr' Hok'.
  assert (by_confidence h r' <= 0) as Hle.
  { eapply (sort_by_head by_confidence); [| |exact Hs|].
    - unfold by_confidence. lia.
    - unfold by_confidence. lia.
    - apply filter_In. done. }
  unfold by_confidence in Hle. lia.
Qed.

Lemma best_worker_None results :
  best_worker results = None -> forall r, In r results -> success r = false.
Proof.
  unfold best_worker. intros Hnone r Hr.
  destruct (success r) eqn:Hok; [|done].
  assert (In r (sort_by by_confidence (List.filter success results))) as Hin.
  { apply (In_sort_by by_confidence), filter_In. done. }
  destruct (sort_by by_confidence (List.filter success results)); [destruct Hin|done].
Qed.




(** *** The reliability pass of the confidence-weighted variant *)

Lemma penalize_Success answer confidence model raw :
  penalize (Success answer confidence model raw) = [checked answer confidence model].
Proof.
  unfold penalize, checked.
  by destruct (4 <=? length (normalizeAnswer (Some answer)))%nat.
Qed.

Lemma In_reliableResults r results :
  In r (reliableResults results) <->
  exists answer confidence model raw,
    In (Success answer confidence model raw) results
    /\ r = checked answer confidence model.
Proof.
  unfold reliableResults. rewrite in_flat_map. split.
  - intros [x [Hx Hr]]. destruct x as [answer confidence model raw|]; [|destruct Hr].
    exists answer, confidence, model, raw. split; [done|].
    rewrite penalize_Success in Hr. destruct Hr as [<-|[]]. done.
  - intros (answer & confidence & model & raw & Hin & ->).
    exists (Success answer confidence model raw). split; [done|].
    rewrite penalize_Success. by left.
Qed.

Lemma reliableResults_length results :
  length (reliableResults (List.filter success results))
  = length (List.filter success results).
Proof.
  unfold reliableResults.
  induction results as [|r l IH]; [done|].
  destruct r as [answer confidence model raw|]; [|exact IH].
  cbn [List.filter success flat_map]. rewrite penalize_Success.
  cbn [app length]. by rewrite IH.
Qed.

(** with two successful results or more, the vote goes through the
    reliability pass and the tally *)
Lemma vote_by_tally modelResults :
  (2 <= length (List.filter success modelResults))%nat ->
  exists finalAnswer finalConfidence method,
    _confidenceWeightedVote modelResults
    = inr {| finalAnswer := finalAnswer; finalConfidence := finalConfidence;
             votes := Some (votes_of
                              (sorted_votes
                                 (recorded_answers
                                    (reliableResults (List.filter success modelResults)))));
             modelAnswers :=
               Some (map (fun r =>
                            {| ma_model := rl_model r +:+
                                 (if unreliable r then " ⚠️" else "");
                               ma_answer := rl_answer r;
                               ma_confidence := rl_confidence r |})
                       (reliableResults (List.filter success modelResults)));
             method := method |}.
Proof.
  intros Hlen. unfold _confidenceWeightedVote.
  pose proof (reliableResults_length modelResults) as Hrel.
  destruct (List.filter success modelResults) as [|r1 [|r2 l]] eqn:Hs;
    [simpl in Hlen; lia..|].
  set (reliable := reliableResults (r1 :: r2 :: l)) in *.
  assert (match r1 :: r2 :: l with
          | [] => true
          | [Success _ _ _ _] => true
          | _ => false
          end = false) as _ by (by destruct r1).
  destruct r1 as [a1 c1 m1 w1|]; cbv zeta; rewrite answerCounts_recorded.
  - destruct (agreed (sorted_votes (recorded_answers reliable))) as [top|]; [eauto|].
    destruct (find_reliable (MODEL 0) reliable); [eauto|].
    destruct (find_reliable (MODEL 1) reliable); [eauto|].
    destruct reliable; [simpl in Hrel; lia|eauto].
  - destruct (agreed (sorted_votes (recorded_answers reliable))) as [top|]; [eauto|].
    destruct (find_reliable (MODEL 0) reliable); [eauto|].
    destruct (find_reliable (MODEL 1) reliable); [eauto|].
    destruct reliable; [simpl in Hrel; lia|eauto].
Qed.

(** a single successful result is returned as it is, without any tally *)
Lemma single_result_direct answer confidence model raw :
  _confidenceWeightedVote [Success answer confidence model raw]
  = inr {| finalAnswer := answer; finalConfidence := confidence;
           votes := Some [(answer, {| v_count := 1; v_avgConfidence := confidence |})];
           modelAnswers := Some [{| ma_model := model; ma_answer := answer;
                                    ma_confidence := confidence |}];
           method := "single" |}.
Proof. reflexivity. Qed.

(** C10 (amended): in a vote with two successful results or more, a
    successful result whose answer normalizes to four labels or more is
    tallied with its confidence capped at 40, whatever confidence it
    reported: the list that the tally is computed from holds it with the
    capped confidence, every result of four labels or more in that list has
    a confidence of at most 40, and the vote reports it so.  When it is the
    only successful result, it is returned as it is, with the confidence it
    reported. *)
Theorem unreliable_capped modelResults answer confidence model raw :
  let tallied := reliableResults (List.filter success modelResults) in
  In (Success answer confidence model raw) modelResults ->
  (4 <= length (normalizeAnswer (Some answer)))%nat ->
  ((2 <= length (List.filter success modelResults))%nat ->
   exists v,
     _confidenceWeightedVote modelResults = inr v
     /\ votes v = Some (votes_of (sorted_votes (recorded_answers tallied)))
     /\ answerCounts tallied = Some (recorded_answers tallied)
     /\ In {| rl_answer := answer; rl_confidence := Z.min confidence 40;
              rl_model := model; unreliable := true |} tallied
     /\ (forall r, In r tallied ->
                   (4 <= length (normalizeAnswer (Some (rl_answer r))))%nat ->
                   rl_confidence r <= 40)
     /\ (exists reported,
           modelAnswers v = Some reported
           /\ In {| ma_model := model +:+ " ⚠️"; ma_answer := answer;
                    ma_confidence := Z.min confidence 40 |} reported))
  /\ ((length (List.filter success modelResults) = 1)%nat ->
      exists v,
        _confidenceWeightedVote modelResults = inr v
        /\ finalConfidence v = confidence /\ method v = "single"
        /\ votes v = Some [(answer, {| v_count := 1; v_avgConfidence := confidence |})]
        /\ modelAnswers v = Some [{| ma_model := model; ma_answer := answer;
                                     ma_confidence := confidence |}]).
Proof.
  intros tallied Hin Hmany. split.
  - intros Hlen.
    destruct (vote_by_tally modelResults Hlen) as (fa & fc & me & Heq).
    assert (In {| rl_answer := answer; rl_confidence := Z.min confidence 40;
                  rl_model := model; unreliable := true |} tallied) as Hcapped.
    { apply In_reliableResults. exists answer, confidence, model, raw. split.
      - apply filter_In. done.
      - unfold checked.
        destruct (Nat.leb_spec 4 (length (normalizeAnswer (Some answer)))); [done|lia]. }
    eexists. split; [exact Heq|]. split; [done|].
    split; [apply answerCounts_recorded|]. split; [done|]. split.
    + intros r Hr Hr4. apply In_reliableResults in Hr as (a & c & m & w & _ & ->).
      unfold checked in *.
      destruct (Nat.leb_spec 4 (length (normalizeAnswer (Some a)))); simpl in *; lia.
    + eexists. split; [reflexivity|]. apply in_map_iff.
      eexists. split; [|exact Hcapped]. reflexivity.
  - intros Hone.
    assert (In (Success answer confidence model raw) (List.filter success modelResults))
      as Hs by (by apply filter_In).
    unfold _confidenceWeightedVote.
    destruct (List.filter success modelResults) as [|r [|r' l]];
      [destruct Hs| |discriminate Hone].
    destruct Hs as [->|[]]. eexists. split; [reflexivity|]. done.
Qed.

(** a result proposing five letters with confidence 95 is tallied at 40 *)
Lemma unreliable_capped_example :
  exists v,
    _confidenceWeightedVote [answered "m1" "A, B, C, D, E" 95; answered "m2" "B" 60]
    = inr v
    /\ modelAnswers v
       = Some [{| ma_model := "m1 ⚠️"; ma_answer := "A, B, C, D, E"; ma_confidence := 40 |};
               {| ma_model := "m2"; ma_answer := "B"; ma_confidence := 60 |}].
Proof.
  assert (In (answered "m1" "A, B, C, D, E" 95)
            [answered "m1" "A, B, C, D, E" 95; answered "m2" "B" 60]) as Hin
    by (left; reflexivity).
  assert (4 <= length (normalizeAnswer (Some "A, B, C, D, E")))%nat as Hmany
    by (vm_compute; lia).
  assert (2 <= length (List.filter success
                         [answered "m1" "A, B, C, D, E" 95; answered "m2" "B" 60]))%nat
    as Hlen by (vm_compute; lia).
  destruct (proj1 (unreliable_capped _ "A, B, C, D, E" 95 "m1" "A, B, C, D, E" Hin Hmany)
              Hlen) as (v & Hv & _).
  exists v. split; [exact Hv|].
  vm_compute in Hv. injection Hv as <-. reflexivity.
Defined.

(** C10 as stated fails: the only successful result of a vote is returned
    as it is, a result of five letters and confidence 95 with confidence
    95. *)
Lemma cap_rule_counterexample : ~ cap_rule_to_the_letter.
Proof.
  intros H.
  destruct (H [answered "m1" "A, B, C, D, E" 95] "A, B, C, D, E" 95 "m1" "A, B, C, D, E")
    as (v & reported & Hv & Hr & Hcap).
  - left. reflexivity.
  - vm_compute. lia.
  - vm_compute in Hv. injection Hv as <-. cbn [modelAnswers] in Hr.
    injection Hr as <-.
    specialize (Hcap _ (or_introl eq_refl) eq_refl). cbn [ma_confidence] in Hcap. lia.
Qed.

End VotingFacts.

(** ** Dedup cache, in-flight coalescer and request queue *)

Module ServerFacts.
Import Text Invoker Voting VotingFacts Server.

(** *** The sweep and the admission *)

Lemma vacuum_lookup now s k c :
  recentAnswers (vacuum now s) !! k = Some c
  <-> recentAnswers s !! k = Some c /\ now - ts c <= TTL_MS.
Proof. unfold vacuum. simpl. rewrite map_lookup_filter_Some. done. Qed.

Lemma vacuum_lookup_None now s k :
  recentAnswers s !! k = None -> recentAnswers (vacuum now s) !! k = None.
Proof.
  intros Hnone. destruct (recentAnswers (vacuum now s) !! k) as [c|] eqn:Hc; [|done].
  apply vacuum_lookup in Hc as [Hc _]. congruence.
Qed.

(** the three ways of a request: answered from the cache, attached to the
    computation in flight, or admitted as a new computation *)
Lemma handler_cases k r t1 t2 t3 s :
  (exists c, recentAnswers (vacuum t1 s) !! k = Some c /\ t2 - ts c <= TTL_MS
             /\ handler k r t1 t2 t3 s
                = (vacuum t1 s, Respond {| status := 200; body := Cached (ce_answer c) |}))
  \/ ((forall c, recentAnswers (vacuum t1 s) !! k = Some c -> TTL_MS < t2 - ts c)
      /\ ((exists p, inflight s !! k = Some p
                     /\ handler k r t1 t2 t3 s = (vacuum t1 s, AwaitShared p))
          \/ (inflight s !! k = None
              /\ handler k r t1 t2 t3 s
                 = (processQueue (enqueue k r t3 (vacuum t1 s)), AwaitOwn (promises s))))).
Proof.
  unfold handler.
  destruct (recentAnswers (vacuum t1 s) !! k) as [c|] eqn:Hc.
  - destruct (decide (t2 - ts c <= TTL_MS)) as [Hfresh|Hold].
    + left. exists c. rewrite bool_decide_eq_true_2 by done. done.
    + right. rewrite bool_decide_eq_false_2 by done. split.
      * intros c' [= <-]. lia.
      * change (inflight (vacuum t1 s)) with (inflight s).
        destruct (inflight s !! k) as [p|]; [left; eauto|right; done].
  - right. split; [done|].
    change (inflight (vacuum t1 s)) with (inflight s).
    destruct (inflight s !! k) as [p|]; [left; eauto|right; done].
Qed.

Lemma processQueue_keeps k r t3 s :
  let e := {| key := k; rawPrompt := r; handle := promises s; startTime := t3 |} in
  In e (live (processQueue (enqueue k r t3 s))).
Proof.
  intros e. unfold processQueue, enqueue, live. simpl.
  destruct (isProcessing s).
  - simpl. destruct (running s); [right|]; apply in_app_iff; right; by left.
  - destruct (requestQueue s) as [|e0 q]; simpl; [by left|].
    right. apply in_app_iff. right. by left.
Qed.

Lemma processQueue_other_fields s :
  recentAnswers (processQueue s) = recentAnswers s
  /\ inflight (processQueue s) = inflight s
  /\ promises (processQueue s) = promises s
  /\ settled (processQueue s) = settled s.
Proof.
  unfold processQueue. destruct (isProcessing s); [done|].
  destruct (requestQueue s); done.
Qed.

(** C4: a request whose key has a cache entry of age at most the TTL is
    answered from the cache, and nothing is queued, started or counted (so
    no model is invoked for it); an entry older than the TTL is swept
    before the lookup and never answers the request, which is then admitted
    as a new computation, or joins the one in flight for its key if there
    is one. *)
Theorem cache_ttl k r t1 t2 t3 s c :
  recentAnswers s !! k = Some c ->
  (t1 <= t2 -> t2 - ts c <= TTL_MS ->
   handler k r t1 t2 t3 s
   = (vacuum t1 s, Respond {| status := 200; body := Cached (ce_answer c) |})
   /\ requestQueue (vacuum t1 s) = requestQueue s
   /\ running (vacuum t1 s) = running s
   /\ requestCounter (vacuum t1 s) = requestCounter s
   /\ inflight (vacuum t1 s) = inflight s)
  /\ (TTL_MS < t1 - ts c ->
      recentAnswers (vacuum t1 s) !! k = None
      /\ (forall h, snd (handler k r t1 t2 t3 s) <> Respond h)
      /\ (inflight s !! k = None ->
          snd (handler k r t1 t2 t3 s) = AwaitOwn (promises s)
          /\ In {| key := k; rawPrompt := r; handle := promises s; startTime := t3 |}
               (live (fst (handler k r t1 t2 t3 s))))
      /\ (forall p, inflight s !! k = Some p ->
                    snd (handler k r t1 t2 t3 s) = AwaitShared p)).
Proof.
  intros Hc. split.
  - intros Ht Hfresh.
    assert (recentAnswers (vacuum t1 s) !! k = Some c) as Hkept
      by (apply vacuum_lookup; split; [done|lia]).
    split; [|done].
    destruct (handler_cases k r t1 t2 t3 s) as [(c' & Hc' & _ & ->)|[Hold _]].
    + congruence.
    + specialize (Hold c Hkept). lia.
  - intros Hexpired.
    assert (recentAnswers (vacuum t1 s) !! k = None) as Hswept.
    { destruct (recentAnswers (vacuum t1 s) !! k) as [c'|] eqn:Hc'; [|done].
      apply vacuum_lookup in Hc' as [Hc' Hfresh]. rewrite Hc in Hc'.
      injection Hc' as <-. lia. }
    split; [done|].
    destruct (handler_cases k r t1 t2 t3 s)
      as [(c' & Hc' & _)|[_ [(p & Hp & ->)|(Hnone & ->)]]].
    + congruence.
    + split; [done|]. split; [congruence|]. intros p' Hp'. simpl. congruence.
    + split; [done|]. split; [|congruence]. intros _. split; [done|].
      apply (processQueue_keeps k r t3 (vacuum t1 s)).
Qed.

(** a second request, a minute after the answer: it is served from the cache *)
Lemma cache_ttl_example :
  handler "q" (Plain "q") 60000 60000 60000 answered_once
  = (vacuum 60000 answered_once,
     Respond {| status := 200; body := Cached "B" |}).
Proof.
  assert (recentAnswers answered_once !! "q" = Some {| ce_answer := "B"; ts := 1500 |})
    as Hcached by (vm_compute; reflexivity).
  assert (60000 - ts {| ce_answer := "B"; ts := 1500 |} <= TTL_MS) as Hfresh
    by (vm_compute; discriminate).
  exact (proj1 (proj1 (cache_ttl "q" (Plain "q") 60000 60000 60000 answered_once
                         {| ce_answer := "B"; ts := 1500 |} Hcached)
                  (Z.le_refl 60000) Hfresh)).
Defined.

(** *** One handle and one computation per key *)

Lemma consistent_initial : consistent initial.
Proof.
  constructor; simpl.
  - constructor.
  - intros k p. rewrite lookup_empty. split; [done|]. by intros (e & [] & _).
  - split; [done|]. by intros [? ?].
  - done.
  - by intros e [].
  - constructor.
  - intros p. rewrite lookup_empty. by intros [? ?].
Qed.

Lemma consistent_vacuum now s : consistent s -> consistent (vacuum now s).
Proof. intros [H1 H2 H3 H4 H5 H6 H7]. by constructor. Qed.

(** a new computation joins the live ones, and the worker is busy *)
Lemma live_admitted k r t3 s :
  consistent s ->
  let s' := processQueue (enqueue k r t3 s) in
  live s' = live s ++ [{| key := k; rawPrompt := r; handle := promises s; startTime := t3 |}]
  /\ isProcessing s' = true /\ is_Some (running s').
Proof.
  intros [_ _ Hbusy Hidle _ _ _]. unfold processQueue, enqueue, live in *.
  destruct s as [cache infl q proc cnt rn prom setl]. simpl in *.
  destruct proc.
  - destruct rn as [e|]; [done|]. destruct Hbusy as [Hbusy _].
    destruct (Hbusy eq_refl) as [? ?]. done.
  - destruct rn as [e|].
    + destruct Hbusy as [_ Hbusy]. discriminate Hbusy. eauto.
    + rewrite (Hidle eq_refl). simpl. eauto.
Qed.

Lemma consistent_admitted k r t3 s :
  consistent s -> inflight s !! k = None ->
  consistent (processQueue (enqueue k r t3 s)).
Proof.
  intros Hs Hnone. destruct (live_admitted k r t3 s Hs) as (Hlive & Hproc & Hrun).
  destruct (processQueue_other_fields (enqueue k r t3 s)) as (_ & Hinfl & Hprom & Hsetl).
  destruct Hs as [Hkeys Hhandles Hbusy Hidle Hmade Hdistinct Hsettled].
  set (e := {| key := k; rawPrompt := r; handle := promises s; startTime := t3 |}) in *.
  constructor.
  - rewrite Hlive, map_app. apply NoDup_app. split; [done|]. split.
    + intros x Hx Hx'. apply list_elem_of_singleton in Hx'. subst x.
      apply list_elem_of_In, in_map_iff in Hx as (e' & Hk & He').
      assert (inflight s !! k = Some (handle e')) as Hin by (apply Hhandles; eauto).
      congruence.
    + apply NoDup_singleton.
  - intros k' p. rewrite Hinfl, Hlive. simpl. split.
    + destruct (decide (k = k')) as [<-|Hne].
      * rewrite lookup_insert_eq. intros [= <-]. exists e. split; [|done].
        apply in_app_iff. right. by left.
      * rewrite lookup_insert_ne by done. intros Hp.
        apply Hhandles in Hp as (e' & He' & Hk & Hp). exists e'. split; [|done].
        apply in_app_iff. by left.
    + intros (e' & He' & <- & <-). apply in_app_iff in He' as [He'|[<-|[]]].
      * assert (inflight s !! key e' = Some (handle e')) as Hin by (apply Hhandles; eauto).
        destruct (decide (k = key e')) as [->|Hne]; [congruence|].
        by rewrite lookup_insert_ne.
      * simpl. by rewrite lookup_insert_eq.
  - split; [done|]. intros _. exact Hproc.
  - intros Hrn. rewrite Hrn in Hrun. by destruct Hrun.
  - intros e' He'. rewrite Hprom, Hsetl. simpl. rewrite Hlive in He'.
    apply in_app_iff in He' as [He'|[<-|[]]].
    + destruct (Hmade e' He'). split; [lia|done].
    + simpl. split; [lia|].
      destruct (settled s !! promises s) eqn:Hp; [|done].
      assert (promises s < promises s)%nat by (apply Hsettled; eauto). lia.
  - rewrite Hlive, map_app. apply NoDup_app. split; [done|]. split.
    + intros x Hx Hx'. apply list_elem_of_singleton in Hx'. subst x.
      apply list_elem_of_In, in_map_iff in Hx as (e' & Hk & He').
      destruct (Hmade e' He'). simpl in Hk. lia.
    + apply NoDup_singleton.
  - intros p. rewrite Hprom, Hsetl. simpl. intros Hp. apply Hsettled in Hp. lia.
Qed.

Lemma consistent_handler k r t1 t2 t3 s :
  consistent s -> consistent (fst (handler k r t1 t2 t3 s)).
Proof.
  intros Hs.
  destruct (handler_cases k r t1 t2 t3 s)
    as [(c & _ & _ & ->)|[_ [(p & _ & ->)|(Hnone & ->)]]]; simpl.
  - by apply consistent_vacuum.
  - by apply consistent_vacuum.
  - apply consistent_admitted; [by apply consistent_vacuum|done].
Qed.

(** *** The worker loop *)

Lemma settle_fields p v s :
  recentAnswers (settle p v s) = recentAnswers s
  /\ inflight (settle p v s) = inflight s
  /\ requestQueue (settle p v s) = requestQueue s
  /\ running (settle p v s) = running s
  /\ isProcessing (settle p v s) = isProcessing s
  /\ promises (settle p v s) = promises s
  /\ requestCounter (settle p v s) = requestCounter s.
Proof. done. Qed.

Lemma settle_unsettled p v s :
  settled s !! p = None -> settled (settle p v s) = <[p := v]> (settled s).
Proof. intros Hp. unfold settle. simpl. by rewrite Hp. Qed.

(** what the [try] and [catch] blocks do to the state: the handle of the
    running entry settles, and a successful answer is cached *)
Lemma complete_running api t4 t5 s e :
  running s = Some e ->
  exists v cache,
    complete api t4 t5 s = settle (handle e) v (set_recentAnswers cache s)
    /\ match reconcile api (rawPrompt e) with
       | inr (a, c) =>
           v = Resolved {| a_answer := a; duration := t4 - startTime e; a_confidence := c |}
           /\ cache = <[key e := {| ce_answer := a; ts := t5 |}]> (recentAnswers s)
       | inl m => v = Rejected m /\ cache = recentAnswers s
       end.
Proof.
  intros He. unfold complete. rewrite He.
  destruct (reconcile api (rawPrompt e)) as [m|[a c]].
  - exists (Rejected m), (recentAnswers s). split; [|done].
    by destruct s.
  - eexists _, _. split; [reflexivity|done].
Qed.

Lemma resume_idle api t4 t5 s : running s = None -> resume api t4 t5 s = s.
Proof. intros Hr. unfold resume, complete, finally_next. by rewrite !Hr. Qed.

Lemma consistent_finally s s1 e v :
  consistent s -> running s = Some e ->
  inflight s1 = inflight s -> requestQueue s1 = requestQueue s ->
  running s1 = running s -> isProcessing s1 = isProcessing s ->
  promises s1 = promises s -> settled s1 = <[handle e := v]> (settled s) ->
  consistent (finally_next s1).
Proof.
  intros [Hkeys Hhandles Hbusy Hidle Hmade Hdistinct Hsettled] He Hi Hq Hr Hp Hn Hst.
  unfold live in *. rewrite He in *. simpl in *.
  apply NoDup_cons in Hkeys as [Hkey Hkeys].
  apply NoDup_cons in Hdistinct as [Hhandle Hdistinct].
  assert (forall k p, delete (key e) (inflight s) !! k = Some p
                      <-> exists e', In e' (requestQueue s) /\ key e' = k /\ handle e' = p)
    as Hhandles'.
  { intros k p. split.
    - intros Hk. apply lookup_delete_Some in Hk as [Hne Hk].
      apply Hhandles in Hk as (e' & [<-|He'] & Hk' & Hp'); [done|eauto].
    - intros (e' & He' & <- & <-). apply lookup_delete_Some. split.
      + intros Heq. apply Hkey. rewrite Heq. apply list_elem_of_In, in_map. done.
      + apply Hhandles. eauto. }
  assert (forall e', In e' (requestQueue s) ->
                     (handle e' < promises s)%nat
                     /\ <[handle e := v]> (settled s) !! handle e' = None) as Hmade'.
  { intros e' He'. destruct (Hmade e' (or_intror He')) as [Hlt Hnone]. split; [done|].
    rewrite lookup_insert_ne; [done|]. intros Heq. apply Hhandle. rewrite Heq.
    apply list_elem_of_In, in_map. done. }
  assert (forall p, is_Some (<[handle e := v]> (settled s) !! p) -> (p < promises s)%nat)
    as Hsettled'.
  { intros p. destruct (decide (handle e = p)) as [<-|Hne].
    - intros _. apply (Hmade e). by left.
    - rewrite lookup_insert_ne by done. apply Hsettled. }
  unfold finally_next, next_entry. rewrite Hr. simpl. rewrite Hq, Hi, Hn, Hst, Hp.
  destruct (requestQueue s) as [|e1 q] eqn:Hqueue; constructor; unfold live; simpl.
  - constructor.
  - intros k p. rewrite Hhandles'. done.
  - split; [done|]. by intros [? ?].
  - done.
  - by intros e' [].
  - constructor.
  - exact Hsettled'.
  - exact Hkeys.
  - intros k p. rewrite Hhandles'. done.
  - split; [eauto|]. intros _. apply Hbusy. eauto.
  - done.
  - exact Hmade'.
  - exact Hdistinct.
  - exact Hsettled'.
Qed.

Lemma consistent_resume api t4 t5 s : consistent s -> consistent (resume api t4 t5 s).
Proof.
  intros Hs. destruct (running s) as [e|] eqn:He.
  - destruct (complete_running api t4 t5 s e He) as (v & cache & Heq & _).
    unfold resume. rewrite Heq.
    apply (consistent_finally s _ e v); try done.
    rewrite settle_unsettled; [done|]. simpl.
    apply (handles_made s Hs e). unfold live. rewrite He. by left.
  - by rewrite resume_idle.
Qed.

Lemma consistent_run evs s : consistent s -> consistent (run evs s).
Proof.
  revert s. induction evs as [|ev evs IH]; intros s Hs; [done|].
  simpl. apply IH. destruct ev as [k r t1 t2 t3|api t4 t5]; simpl.
  - by apply consistent_handler.
  - by apply consistent_resume.
Qed.

Lemma resume_running api t4 t5 s e :
  running s = Some e ->
  inflight (resume api t4 t5 s) = delete (key e) (inflight s)
  /\ recentAnswers (resume api t4 t5 s) = recentAnswers (complete api t4 t5 s)
  /\ settled (resume api t4 t5 s) = settled (complete api t4 t5 s)
  /\ promises (resume api t4 t5 s) = promises s.
Proof.
  intros He. destruct (complete_running api t4 t5 s e He) as (v & cache & Heq & _).
  unfold resume, finally_next, next_entry. rewrite Heq. simpl. rewrite He. simpl.
  by destruct (requestQueue s).
Qed.

(** *** Cache entries of the keys in flight *)

Lemma expired_later t t' s : expired_in_flight t s -> t <= t' -> expired_in_flight t' s.
Proof. intros Hs Ht k p c Hp Hc. specialize (Hs k p c Hp Hc). lia. Qed.

(** the sweep leaves no cache entry to a key in flight *)
Lemma swept_in_flight t t1 s k p :
  expired_in_flight t s -> t <= t1 -> inflight s !! k = Some p ->
  recentAnswers (vacuum t1 s) !! k = None.
Proof.
  intros Hs Ht Hp. destruct (recentAnswers (vacuum t1 s) !! k) as [c|] eqn:Hc; [|done].
  apply vacuum_lookup in Hc as [Hc Hfresh]. specialize (Hs k p c Hp Hc). lia.
Qed.

Lemma expired_handler t k r t1 t2 t3 s :
  expired_in_flight t s -> t <= t1 -> t2 <= t3 ->
  expired_in_flight t3 (fst (handler k r t1 t2 t3 s)).
Proof.
  intros Hs Ht1 Ht3.
  assert (forall k' p' c', inflight s !! k' = Some p' ->
                           recentAnswers (vacuum t1 s) !! k' = Some c' -> False) as Hswept.
  { intros k' p' c' Hp' Hc'. rewrite (swept_in_flight t t1 s k' p') in Hc'; done. }
  destruct (handler_cases k r t1 t2 t3 s)
    as [(c & _ & _ & ->)|[Hold [(p & _ & ->)|(Hnone & ->)]]]; simpl.
  - intros k' p' c' Hp' Hc'. destruct (Hswept k' p' c' Hp' Hc').
  - intros k' p' c' Hp' Hc'. destruct (Hswept k' p' c' Hp' Hc').
  - destruct (processQueue_other_fields (enqueue k r t3 (vacuum t1 s)))
      as (Hcache & Hinfl & _).
    intros k' p' c'. rewrite Hcache, Hinfl. simpl.
    destruct (decide (k = k')) as [<-|Hne].
    + intros _ Hc'. specialize (Hold c' Hc'). lia.
    + rewrite lookup_insert_ne by done. intros Hp' Hc'.
      destruct (Hswept k' p' c' Hp' Hc').
Qed.

Lemma expired_resume t api t4 t5 s :
  expired_in_flight t s -> t <= t5 -> expired_in_flight t5 (resume api t4 t5 s).
Proof.
  intros Hs Ht. destruct (running s) as [e|] eqn:He.
  - destruct (resume_running api t4 t5 s e He) as (Hinfl & Hcache & _).
    destruct (complete_running api t4 t5 s e He) as (v & cache & Heq & Hout).
    intros k p c. rewrite Hinfl, Hcache, Heq. simpl.
    intros Hp Hc. apply lookup_delete_Some in Hp as [Hne Hp].
    assert (recentAnswers s !! k = Some c) as Hc'.
    { destruct (reconcile api (rawPrompt e)) as [m|[a c0]]; destruct Hout as [_ ->];
        [done|]. by rewrite lookup_insert_ne in Hc. }
    specialize (Hs k p c Hp Hc'). lia.
  - rewrite resume_idle by done. by apply (expired_later t).
Qed.

Lemma expired_run evs : forall t s,
  expired_in_flight t s -> monotone t evs ->
  expired_in_flight (clock_after t evs) (run evs s).
Proof.
  induction evs as [|ev evs IH]; intros t s Hs Hm; [done|].
  destruct ev as [k r t1 t2 t3|api t4 t5]; simpl in *.
  - destruct Hm as (H1 & H2 & H3 & Hm). apply IH; [|done].
    by apply (expired_handler t).
  - destruct Hm as (H4 & H5 & Hm). apply IH; [|done].
    apply (expired_resume t); [done|lia].
Qed.

Lemma exclusive_handler k r t1 t3 s :
  exclusive s -> exclusive (fst (handler k r t1 t1 t3 s)).
Proof.
  intros Hs.
  assert (exclusive (vacuum t1 s)) as Hv.
  { intros k'. destruct (Hs k') as [?|Hnone]; [by left|right].
    by apply vacuum_lookup_None. }
  destruct (handler_cases k r t1 t1 t3 s)
    as [(c & _ & _ & ->)|[Hold [(p & _ & ->)|(Hnone & ->)]]]; simpl; [done..|].
  destruct (processQueue_other_fields (enqueue k r t3 (vacuum t1 s)))
    as (Hcache & Hinfl & _).
  intros k'. rewrite Hcache, Hinfl. simpl.
  destruct (decide (k = k')) as [<-|Hne].
  - right. destruct (recentAnswers (vacuum t1 s) !! k) as [c|] eqn:Hc; [|done].
    specialize (Hold c eq_refl). apply vacuum_lookup in Hc as [_ Hfresh]. lia.
  - rewrite lookup_insert_ne by done. apply Hv.
Qed.

Lemma exclusive_resume api t4 t5 s : exclusive s -> exclusive (resume api t4 t5 s).
Proof.
  intros Hs. destruct (running s) as [e|] eqn:He.
  - destruct (resume_running api t4 t5 s e He) as (Hinfl & Hcache & _).
    destruct (complete_running api t4 t5 s e He) as (v & cache & Heq & Hout).
    intros k. rewrite Hinfl, Hcache, Heq. simpl.
    destruct (decide (key e = k)) as [<-|Hne].
    + left. apply lookup_delete_eq.
    + rewrite lookup_delete_ne by done. destruct (Hs k) as [?|Hnone]; [by left|right].
      destruct (reconcile api (rawPrompt e)) as [m|[a c0]]; destruct Hout as [_ ->];
        [done|]. by rewrite lookup_insert_ne.
  - by rewrite resume_idle.
Qed.

Lemma exclusive_run evs : forall s,
  exclusive s -> synchronous evs -> exclusive (run evs s).
Proof.
  induction evs as [|ev evs IH]; intros s Hs Hsync; [done|].
  apply Forall_cons in Hsync as [Hev Hsync]. simpl. apply IH; [|done].
  destruct ev as [k r t1 t2 t3|api t4 t5]; simpl.
  - subst t2. by apply exclusive_handler.
  - by apply exclusive_resume.
Qed.

Lemma exclusive_initial : exclusive initial.
Proof. intros k. left. apply lookup_empty. Qed.

Lemma expired_initial t : expired_in_flight t initial.
Proof. intros k p c Hp. simpl in Hp. by rewrite lookup_empty in Hp. Qed.

(** the states that the server reaches are consistent, and the cache entry
    of a key in flight, if any, has expired *)
Lemma reached_consistent t evs :
  monotone t evs ->
  consistent (run evs initial)
  /\ expired_in_flight (clock_after t evs) (run evs initial).
Proof.
  intros Hm. split.
  - apply consistent_run, consistent_initial.
  - apply expired_run; [apply expired_initial|done].
Qed.

(** C6 (amended): whenever the scheduler has the control, each key has at
    most one handle and one computation in progress, which correspond; if
    the clock never goes back, the cache entry of a key in flight, if any,
    has expired; and no key is both cached and in flight when the sweep
    and the lookup of every request read the same clock value. *)
Theorem suspension_invariant t evs :
  monotone t evs ->
  consistent (run evs initial)
  /\ expired_in_flight (clock_after t evs) (run evs initial)
  /\ (synchronous evs -> exclusive (run evs initial)).
Proof.
  intros Hm. split; [|split].
  - apply consistent_run, consistent_initial.
  - apply expired_run; [apply expired_initial|done].
  - apply exclusive_run, exclusive_initial.
Qed.

(** after a question has been asked and answered, it is cached and no
    longer in flight *)
Lemma suspension_invariant_example : exclusive answered_once.
Proof.
  assert (monotone 0 [Ask "q" (Plain "q") 0 0 0;
                      Settle (service_answering "B" "90") 1500 1500]) as Hm
    by (simpl; lia).
  assert (synchronous [Ask "q" (Plain "q") 0 0 0;
                       Settle (service_answering "B" "90") 1500 1500]) as Hsync
    by (repeat constructor).
  exact (proj2 (proj2 (suspension_invariant 0 _ Hm)) Hsync).
Defined.

(** C6 as stated fails: between the cache write of the worker loop and its
    [finally] block, the key of the running entry is cached and in flight. *)
Lemma exclusive_counterexample : ~ exclusive_at_every_instant.
Proof.
  intros H.
  assert (instant (complete (service_answering "B" "90") 1500 1500
                     (run [Ask "q" (Plain "q") 0 0 0] initial))) as Hi.
  { apply before_finally. exists 0, [Ask "q" (Plain "q") 0 0 0].
    split; [simpl; lia|]. split; [repeat constructor|done]. }
  destruct (H _ Hi "q") as [Hq|Hq]; vm_compute in Hq; discriminate Hq.
Qed.

(** what the amended invariant leaves aside: when the clock ticks across
    the end of the TTL between the sweep and the lookup of a request, the
    expired entry stays in the cache while the key is put in flight *)
Lemma clock_tick_between_sweep_and_lookup :
  let s := fst (handler "q" (Plain "q") 121500 121501 121501 answered_once) in
  inflight s !! "q" = Some 1%nat
  /\ recentAnswers s !! "q" = Some {| ce_answer := "B"; ts := 1500 |}.
Proof. split; vm_compute; reflexivity. Qed.

(** *** Settlement *)

(** a successful reconciliation resolves the handle of the running entry
    and caches the answer under its key *)
Lemma resolved_on_success api t4 t5 s e a c :
  consistent s -> running s = Some e ->
  reconcile api (rawPrompt e) = inr (a, c) ->
  settled (resume api t4 t5 s) !! handle e
  = Some (Resolved {| a_answer := a; duration := t4 - startTime e; a_confidence := c |})
  /\ recentAnswers (resume api t4 t5 s) !! key e
     = Some {| ce_answer := a; ts := t5 |}
  /\ inflight (resume api t4 t5 s) !! key e = None.
Proof.
  intros Hs He Hok.
  destruct (resume_running api t4 t5 s e He) as (Hinfl & Hcache & Hsettled & _).
  destruct (complete_running api t4 t5 s e He) as (v & cache & Heq & Hout).
  rewrite Hok in Hout. destruct Hout as [-> ->].
  rewrite Hsettled, Hcache, Hinfl, Heq. split; [|split].
  - rewrite settle_unsettled.
    + apply lookup_insert_eq.
    + simpl. apply (handles_made s Hs e). unfold live. rewrite He. by left.
  - simpl. apply lookup_insert_eq.
  - apply lookup_delete_eq.
Qed.

(** *** Coalescing *)

Lemma same_key_same_entry (l : list QueueEntry) e e' :
  NoDup (map key l) -> In e l -> In e' l -> key e = key e' -> e = e'.
Proof.
  induction l as [|x l IH]; simpl; [done|].
  intros Hnd He He' Hk. apply NoDup_cons in Hnd as [Hx Hnd].
  destruct He as [->|He], He' as [->|He']; [done| | |by apply IH].
  - exfalso. apply Hx. rewrite Hk. by apply list_elem_of_In, in_map.
  - exfalso. apply Hx. rewrite <- Hk. by apply list_elem_of_In, in_map.
Qed.

(** a request for a key in flight awaits the handle of the computation in
    progress; nothing is queued or started *)
Lemma attach t s k p r t1 t2 t3 :
  expired_in_flight t s -> t <= t1 -> inflight s !! k = Some p ->
  handler k r t1 t2 t3 s = (vacuum t1 s, AwaitShared p).
Proof.
  intros Hs Ht Hp.
  destruct (handler_cases k r t1 t2 t3 s)
    as [(c & Hc & _)|[_ [(p' & Hp' & ->)|(Hnone & _)]]].
  - rewrite (swept_in_flight t t1 s k p) in Hc; done.
  - congruence.
  - congruence.
Qed.

Lemma burst_attached k p requests : forall t s,
  expired_in_flight t s -> monotone t (burst_events k requests) ->
  inflight s !! k = Some p ->
  snd (burst k requests s) = repeat (AwaitShared p) (length requests)
  /\ live (fst (burst k requests s)) = live s
  /\ inflight (fst (burst k requests s)) = inflight s
  /\ requestCounter (fst (burst k requests s)) = requestCounter s.
Proof.
  induction requests as [|[r [[t1 t2] t3]] requests IH]; intros t s Hs Hm Hp; [done|].
  simpl in Hm. destruct Hm as (H1 & H2 & H3 & Hm). simpl.
  rewrite (attach t s k p r t1 t2 t3) by done.
  destruct (IH t3 (vacuum t1 s)) as (Hreplies & Hlive & Hinfl & Hcount); [|done|done|].
  { pose proof (expired_handler t k r t1 t2 t3 s Hs H1 H3) as Hexp.
    by rewrite (attach t s k p r t1 t2 t3) in Hexp. }
  destruct (burst k requests (vacuum t1 s)) as [s2 replies]. simpl in *.
  by rewrite Hreplies.
Qed.

Lemma run_snoc evs ev s : run (evs ++ [ev]) s = step (run evs s) ev.
Proof. unfold run. by rewrite fold_left_app. Qed.

Lemma admitted_fields k r t1 t2 t3 s p :
  consistent s -> snd (handler k r t1 t2 t3 s) = AwaitOwn p ->
  p = promises s
  /\ inflight (fst (handler k r t1 t2 t3 s)) !! k = Some p
  /\ live (fst (handler k r t1 t2 t3 s))
     = live s ++ [{| key := k; rawPrompt := r; handle := p; startTime := t3 |}]
  /\ (requestCounter (fst (handler k r t1 t2 t3 s)) <= requestCounter s + 1).
Proof.
  intros Hs Hreply.
  destruct (handler_cases k r t1 t2 t3 s)
    as [(c & _ & _ & Heq)|[_ [(p' & _ & Heq)|(Hnone & Heq)]]];
    rewrite Heq in Hreply |- *; simpl in Hreply; try discriminate Hreply.
  injection Hreply as <-. simpl.
  destruct (processQueue_other_fields (enqueue k r t3 (vacuum t1 s))) as (_ & Hinfl & _).
  destruct (live_admitted k r t3 (vacuum t1 s) (consistent_vacuum t1 s Hs)) as (Hlive & _).
  split; [done|]. split; [|split].
  - rewrite Hinfl. simpl. apply lookup_insert_eq.
  - exact Hlive.
  - unfold processQueue, enqueue, next_entry. simpl.
    destruct (isProcessing s); simpl; [lia|].
    destruct (requestQueue s); simpl; lia.
Qed.

(** the queue and the counter once a question has been admitted *)
Lemma admitted_queue k r t3 s :
  consistent s ->
  let s' := processQueue (enqueue k r t3 s) in
  (length (requestQueue s') = S (length (requestQueue s))
   /\ requestCounter s' = requestCounter s)
  \/ (requestQueue s = [] /\ requestQueue s' = []
      /\ requestCounter s' = requestCounter s + 1).
Proof.
  intros [_ _ Hbusy Hidle _ _ _]. unfold processQueue, enqueue in *.
  destruct s as [cache infl q proc cnt rn prom setl]. simpl in *.
  destruct proc.
  - left. simpl. rewrite length_app. simpl. split; [lia|done].
  - destruct rn as [e|].
    + destruct Hbusy as [_ Hbusy]. discriminate Hbusy. eauto.
    + right. rewrite (Hidle eq_refl). simpl. done.
Qed.

(** the queue and the counter once the running entry has settled *)
Lemma resume_queue api t4 t5 s e :
  running s = Some e ->
  live (resume api t4 t5 s) = requestQueue s
  /\ requestQueue (resume api t4 t5 s) = tail (requestQueue s)
  /\ requestCounter (resume api t4 t5 s)
     = match requestQueue s with
       | [] => requestCounter s
       | _ :: _ => requestCounter s + 1
       end.
Proof.
  intros He. destruct (complete_running api t4 t5 s e He) as (v & cache & Heq & _).
  unfold resume, finally_next, next_entry, live. rewrite Heq. cbn. rewrite He. cbn.
  by destruct (requestQueue s).
Qed.

Lemma resume_settled api t4 t5 s e :
  consistent s -> running s = Some e ->
  exists v, settled (resume api t4 t5 s) = <[handle e := v]> (settled s).
Proof.
  intros Hs He. destruct (resume_running api t4 t5 s e He) as (_ & _ & Hsettled & _).
  destruct (complete_running api t4 t5 s e He) as (v & cache & Heq & _).
  exists v. rewrite Hsettled, Heq. rewrite settle_unsettled; [done|]. cbn.
  apply (handles_made s Hs e). unfold live. rewrite He. by left.
Qed.

Lemma idle_no_live s : consistent s -> running s = None -> live s = [].
Proof. intros Hs Hr. unfold live. rewrite Hr. by apply (worker_idle s Hs). Qed.

(** *** One run for a handle *)

Lemma same_handle_same_entry (l : list QueueEntry) e e' :
  NoDup (map handle l) -> In e l -> In e' l -> handle e = handle e' -> e = e'.
Proof.
  induction l as [|x l IH]; simpl; [done|].
  intros Hnd He He' Hk. apply NoDup_cons in Hnd as [Hx Hnd].
  destruct He as [->|He], He' as [->|He']; [done| | |by apply IH].
  - exfalso. apply Hx. rewrite Hk. by apply list_elem_of_In, in_map.
  - exfalso. apply Hx. rewrite <- Hk. by apply list_elem_of_In, in_map.
Qed.

(** what the handle of the running entry settles to *)
Lemma resume_settlement api t4 t5 s e :
  consistent s -> running s = Some e ->
  settled (resume api t4 t5 s)
  = <[handle e := settlement_of e t4 (reconcile api (rawPrompt e))]> (settled s).
Proof.
  intros Hs He. destruct (resume_running api t4 t5 s e He) as (_ & _ & Hsettled & _).
  destruct (complete_running api t4 t5 s e He) as (v & cache & Heq & Hout).
  rewrite Hsettled, Heq, settle_unsettled.
  - f_equal. unfold settlement_of.
    destruct (reconcile api (rawPrompt e)) as [m|[a c]]; by destruct Hout as [-> _].
  - cbn. apply (handles_made s Hs e). unfold live. rewrite He. by left.
Qed.

(** a request leaves the computations in progress as they are, or adds one
    at the end; it settles nothing *)
Lemma live_handler k r t1 t2 t3 s :
  consistent s ->
  (live (fst (handler k r t1 t2 t3 s)) = live s
   \/ exists e, live (fst (handler k r t1 t2 t3 s)) = live s ++ [e])
  /\ settled (fst (handler k r t1 t2 t3 s)) = settled s.
Proof.
  intros Hs.
  destruct (handler_cases k r t1 t2 t3 s)
    as [(c & _ & _ & ->)|[_ [(p & _ & ->)|(Hnone & ->)]]]; cbn [fst].
  - split; [by left|done].
  - split; [by left|done].
  - destruct (live_admitted k r t3 (vacuum t1 s) (consistent_vacuum t1 s Hs)) as (Hlive & _).
    destruct (processQueue_other_fields (enqueue k r t3 (vacuum t1 s))) as (_ & _ & _ & Hset).
    split; [right; eexists; exact Hlive|]. by rewrite Hset.
Qed.

Lemma consistent_step s ev : consistent s -> consistent (step s ev).
Proof.
  intros Hs. destruct ev as [k r t1 t2 t3|api t4 t5]; cbn [step].
  - by apply consistent_handler.
  - by apply consistent_resume.
Qed.

Lemma runs_of_cons p ev evs s :
  runs_of p (ev :: evs) s
  = match ev with
    | Settle api t4 _ =>
        match running s with
        | Some e => if Nat.eqb (handle e) p
                    then [(e, settlement_of e t4 (reconcile api (rawPrompt e)))]
                    else []
        | None => []
        end
    | Ask _ _ _ _ _ => []
    end ++ runs_of p evs (step s ev).
Proof.
  unfold runs_of. cbn [reconciliations]. rewrite List.filter_app. f_equal.
  destruct ev as [k r t1 t2 t3|api t4 t5]; [done|].
  destruct (running s) as [e|]; [|done]. cbn [List.filter fst].
  by destruct (Nat.eqb (handle e) p).
Qed.

(** once a handle has settled, it stays as it is and no run is made for it *)
Lemma settled_no_runs later : forall s p v,
  consistent s -> settled s !! p = Some v ->
  runs_of p later s = [] /\ settled (run later s) !! p = Some v.
Proof.
  induction later as [|ev later IH]; intros s p v Hs Hv; [done|].
  rewrite runs_of_cons. cbn [run fold_left].
  destruct (IH (step s ev) p v) as (Hruns & Hset).
  - by apply consistent_step.
  - destruct ev as [k r t1 t2 t3|api t4 t5]; cbn [step].
    + destruct (live_handler k r t1 t2 t3 s Hs) as (_ & ->). done.
    + destruct (running s) as [e0|] eqn:He0; [|by rewrite resume_idle].
      rewrite (resume_settlement api t4 t5 s e0 Hs He0).
      rewrite lookup_insert_ne; [done|]. intros Heq.
      assert (settled s !! handle e0 = None) as Hnone
        by (apply (handles_made s Hs e0); unfold live; rewrite He0; by left).
      congruence.
  - fold (run later (step s ev)). split; [|done]. rewrite Hruns, app_nil_r.
    destruct ev as [k r t1 t2 t3|api t4 t5]; [done|].
    destruct (running s) as [e0|] eqn:He0; [|done].
    destruct (Nat.eqb_spec (handle e0) p) as [Heq|]; [|done].
    assert (settled s !! handle e0 = None) as Hnone
      by (apply (handles_made s Hs e0); unfold live; rewrite He0; by left).
    congruence.
Qed.

(** the reconciliation of a computation in progress ends once at most: as
    long as it has not, the entry is in progress and its handle is not
    settled; once it has, at the settlement that found the entry running,
    the handle is settled to its outcome *)
Lemma one_run_per_handle later : forall s e,
  consistent s -> In e (live s) ->
  (runs_of (handle e) later s = [] /\ In e (live (run later s))
   /\ settled (run later s) !! handle e = None)
  \/ (exists before api t4 t5 rest,
        later = before ++ Settle api t4 t5 :: rest
        /\ running (run before s) = Some e
        /\ runs_of (handle e) later s
           = [(e, settlement_of e t4 (reconcile api (rawPrompt e)))]
        /\ settled (run later s) !! handle e
           = Some (settlement_of e t4 (reconcile api (rawPrompt e)))).
Proof.
  induction later as [|ev later IH]; intros s e Hs He.
  { left. split; [done|]. split; [done|]. by apply (handles_made s Hs e). }
  rewrite runs_of_cons. cbn [run fold_left]. fold (run later (step s ev)).
  pose proof (consistent_step s ev Hs) as Hs1.
  destruct ev as [k r t1 t2 t3|api t4 t5].
  - assert (In e (live (step s (Ask k r t1 t2 t3)))) as He1.
    { cbn [step]. destruct (live_handler k r t1 t2 t3 s Hs) as ([->|[e1 ->]] & _);
        [done|]. apply in_app_iff. by left. }
    destruct (IH _ e Hs1 He1)
      as [Hpending|(before & api & t4 & t5 & rest & -> & Hrun & Hruns & Hset)].
    + by left.
    + right. exists (Ask k r t1 t2 t3 :: before), api, t4, t5, rest. done.
  - destruct (running s) as [e0|] eqn:He0;
      [|by rewrite (idle_no_live s Hs He0) in He].
    assert (In e0 (live s)) as Hin0 by (unfold live; rewrite He0; by left).
    destruct (resume_queue api t4 t5 s e0 He0) as (Hlive & _).
    destruct (Nat.eqb_spec (handle e0) (handle e)) as [Heq|Hne].
    + assert (e0 = e) as ->
        by (by apply (same_handle_same_entry (live s)); [apply (handles_distinct s Hs)|..]).
      assert (settled (step s (Settle api t4 t5)) !! handle e
              = Some (settlement_of e t4 (reconcile api (rawPrompt e)))) as Hnow.
      { cbn [step]. rewrite (resume_settlement api t4 t5 s e Hs He0).
        apply lookup_insert_eq. }
      destruct (settled_no_runs later _ _ _ Hs1 Hnow) as (Hruns & Hset).
      right. exists [], api, t4, t5, later. rewrite Hruns. done.
    + assert (In e (live (step s (Settle api t4 t5)))) as He1.
      { cbn [step]. rewrite Hlive. unfold live in He. rewrite He0 in He.
        destruct He as [->|He]; done. }
      destruct (IH _ e Hs1 He1)
        as [Hpending|(before & api' & t4' & t5' & rest & -> & Hrun & Hruns & Hset)].
      * by left.
      * right. exists (Settle api t4 t5 :: before), api', t4', t5', rest. done.
Qed.

(** settlements take the computations in progress one by one, in order;
    the entries taken off the queue and those still on it add up *)
Lemma settlements_take settlements : forall s,
  consistent s -> Forall Vocabulary.is_settlement settlements ->
  (length settlements <= length (live s))%nat ->
  live (run settlements s) = drop (length settlements) (live s)
  /\ requestCounter (run settlements s)
     + Z.of_nat (length (requestQueue (run settlements s)))
     = requestCounter s + Z.of_nat (length (requestQueue s)).
Proof.
  induction settlements as [|ev evs IH]; intros s Hs Hall Hlen; [done|].
  apply Forall_cons in Hall as [Hev Hall].
  destruct ev as [k r t1 t2 t3|api t4 t5]; [destruct Hev|].
  cbn [run fold_left step]. fold (run evs (resume api t4 t5 s)).
  destruct (running s) as [e|] eqn:He;
    [|rewrite (idle_no_live s Hs He) in Hlen; cbn in Hlen; lia].
  destruct (resume_queue api t4 t5 s e He) as (Hlive & Hq & Hc).
  assert (live s = e :: requestQueue s) as Hls by (unfold live; by rewrite He).
  destruct (IH (resume api t4 t5 s)) as (Hl & Hcount);
    [by apply consistent_resume|done|rewrite Hlive; rewrite Hls in Hlen; cbn in Hlen; lia|].
  rewrite Hl, Hcount, Hlive, Hls, Hq, Hc. split; [done|].
  destruct (requestQueue s); cbn [tail length]; lia.
Qed.

Lemma burst_run k requests : forall s,
  fst (burst k requests s) = run (burst_events k requests) s.
Proof.
  induction requests as [|[r [[t1 t2] t3]] requests IH]; intros s; [done|].
  cbn [burst burst_events map run fold_left step fst snd].
  destruct (handler k r t1 t2 t3 s) as [s1 reply]. specialize (IH s1).
  destruct (burst k requests s1) as [s2 replies]. cbn [fst] in *.
  rewrite IH. done.
Qed.

(** requests attached to a computation in flight leave the queue and the
    promises as they are *)
Lemma burst_attached_books k p requests : forall t s,
  expired_in_flight t s -> monotone t (burst_events k requests) ->
  inflight s !! k = Some p ->
  requestQueue (fst (burst k requests s)) = requestQueue s
  /\ promises (fst (burst k requests s)) = promises s.
Proof.
  induction requests as [|[r [[t1 t2] t3]] requests IH]; intros t s Hs Hm Hp; [done|].
  simpl in Hm. destruct Hm as (H1 & H2 & H3 & Hm). simpl.
  rewrite (attach t s k p r t1 t2 t3) by done.
  destruct (IH t3 (vacuum t1 s)) as (Hq & Hprom); [|done|done|].
  { pose proof (expired_handler t k r t1 t2 t3 s Hs H1 H3) as Hexp.
    by rewrite (attach t s k p r t1 t2 t3) in Hexp. }
  destruct (burst k requests (vacuum t1 s)) as [s2 replies]. simpl in *. done.
Qed.

(** the books once a question has been admitted: one promise more, and one
    entry more on the queue or taken off it *)
Lemma admitted_books k r t1 t2 t3 s p :
  consistent s -> snd (handler k r t1 t2 t3 s) = AwaitOwn p ->
  promises (fst (handler k r t1 t2 t3 s)) = S (promises s)
  /\ requestCounter (fst (handler k r t1 t2 t3 s))
     + Z.of_nat (length (requestQueue (fst (handler k r t1 t2 t3 s))))
     = requestCounter s + Z.of_nat (length (requestQueue s)) + 1.
Proof.
  intros Hs Hreply.
  destruct (handler_cases k r t1 t2 t3 s)
    as [(c & _ & _ & Heq)|[_ [(p' & _ & Heq)|(Hnone & Heq)]]];
    rewrite Heq in Hreply |- *; simpl in Hreply; try discriminate Hreply.
  cbn [fst].
  destruct (processQueue_other_fields (enqueue k r t3 (vacuum t1 s))) as (_ & _ & Hprom & _).
  pose proof (admitted_queue k r t3 (vacuum t1 s) (consistent_vacuum t1 s Hs)) as Hq.
  cbv zeta in Hq. split; [by rewrite Hprom|].
  change (requestQueue (vacuum t1 s)) with (requestQueue s) in Hq.
  change (requestCounter (vacuum t1 s)) with (requestCounter s) in Hq.
  destruct Hq as [[Hlen ->]|(Hempty & -> & ->)].
  - rewrite Hlen. lia.
  - rewrite Hempty. cbn [length]. lia.
Qed.

(** what the callers of a burst respond, by what the handle has settled to *)
Lemma burst_responses p n e t4 outcome s reply :
  In reply (AwaitOwn p :: repeat (AwaitShared p) n) ->
  settled s !! p = Some (settlement_of e t4 outcome) ->
  passes_on outcome (response reply s).
Proof.
  intros Hin Hset.
  assert (reply = AwaitOwn p \/ reply = AwaitShared p) as [-> | ->].
  { destruct Hin as [<-|Hin]; [by left|]. apply repeat_spec in Hin. by right. }
  - cbn [response]. rewrite Hset. destruct outcome as [m|[a c]]; cbn; eauto.
  - cbn [response]. rewrite Hset. destruct outcome as [m|[a c]]; cbn; eauto.
Qed.

Lemma burst_waiting p n s reply :
  In reply (AwaitOwn p :: repeat (AwaitShared p) n) ->
  settled s !! p = None -> response reply s = None.
Proof.
  intros Hin Hset.
  assert (reply = AwaitOwn p \/ reply = AwaitShared p) as [-> | ->].
  { destruct Hin as [<-|Hin]; [by left|]. apply repeat_spec in Hin. by right. }
  - cbn [response]. by rewrite Hset.
  - cbn [response]. by rewrite Hset.
Qed.

(** C5: in a state reached with a clock that never goes back, (1) a request
    for a key whose computation is in flight awaits the handle of that
    computation, and queues, starts and counts nothing; (2) a burst of
    requests for one key, of which the first is admitted as a new
    computation, makes one promise and one queue entry, whose handle all
    the other requests await; (3) whatever happens next, requests and
    settlements in any order, the reconciliation of that entry ends once at
    most: as long as it has not, the computation is in flight under the
    key with the same handle and no caller has a response, and once it
    has, the handle is settled to the outcome of that one run and every
    caller of the burst responds with it, all with its answer or all with
    its error; (4) the run does take place: once the computations in
    progress before the burst have settled, the next settlement is that of
    the burst's entry, every caller responds with its outcome, nothing is
    left in progress, and the entries taken off the queue since the burst
    arrived are those that were waiting on it and one more. *)
Theorem coalescing t evs k :
  monotone t evs ->
  (forall p r t1 t2 t3,
      clock_after t evs <= t1 ->
      inflight (run evs initial) !! k = Some p ->
      handler k r t1 t2 t3 (run evs initial) = (vacuum t1 (run evs initial), AwaitShared p)
      /\ live (vacuum t1 (run evs initial)) = live (run evs initial)
      /\ requestCounter (vacuum t1 (run evs initial)) = requestCounter (run evs initial))
  /\ (forall r t1 t2 t3 others p,
        monotone (clock_after t evs) (burst_events k ((r, (t1, t2, t3)) :: others)) ->
        snd (handler k r t1 t2 t3 (run evs initial)) = AwaitOwn p ->
        let s := run evs initial in
        let after := burst k ((r, (t1, t2, t3)) :: others) s in
        let e := {| key := k; rawPrompt := r; handle := p; startTime := t3 |} in
        (snd after = AwaitOwn p :: repeat (AwaitShared p) (length others)
         /\ p = promises s /\ promises (fst after) = S (promises s)
         /\ live (fst after) = live s ++ [e]
         /\ (forall e', In e' (live (fst after)) -> key e' = k -> e' = e)
         /\ requestCounter (fst after) <= requestCounter s + 1)
        /\ (forall later,
              let s' := run later (fst after) in
              (runs_of p later (fst after) = []
               /\ In e (live s') /\ inflight s' !! k = Some p
               /\ forall reply, In reply (snd after) -> response reply s' = None)
              \/ (exists before api t4 t5 rest,
                    later = before ++ Settle api t4 t5 :: rest
                    /\ running (run before (fst after)) = Some e
                    /\ runs_of p later (fst after)
                       = [(e, settlement_of e t4 (reconcile api r))]
                    /\ settled s' !! p = Some (settlement_of e t4 (reconcile api r))
                    /\ forall reply, In reply (snd after) ->
                                     passes_on (reconcile api r) (response reply s')))
        /\ (forall waiting api t4 t5,
              Forall Vocabulary.is_settlement waiting ->
              length waiting = length (live s) ->
              let s' := run (waiting ++ [Settle api t4 t5]) (fst after) in
              running (run waiting (fst after)) = Some e
              /\ live s' = []
              /\ settled s' !! p = Some (settlement_of e t4 (reconcile api r))
              /\ requestCounter s'
                 = requestCounter s + Z.of_nat (length (requestQueue s)) + 1
              /\ forall reply, In reply (snd after) ->
                               passes_on (reconcile api r) (response reply s'))).
Proof.
  intros Hm. destruct (reached_consistent t evs Hm) as (Hcons & Hexp).
  set (s0 := run evs initial) in *. split.
  - intros p r t1 t2 t3 Ht Hp. split; [|done]. by apply (attach (clock_after t evs)).
  - intros r t1 t2 t3 others p Hb Hreply s after e.
    subst s. pose proof Hb as Hmono.
    simpl in Hb. destruct Hb as (H1 & H2 & H3 & Hb).
    destruct (admitted_fields k r t1 t2 t3 s0 p Hcons Hreply) as (Hp & Hinfl & Hlive & Hcount).
    destruct (admitted_books k r t1 t2 t3 s0 p Hcons Hreply) as (Hprom & Hbooks).
    pose proof (expired_handler _ k r t1 t2 t3 s0 Hexp H1 H3) as Hexp1.
    pose proof (consistent_handler k r t1 t2 t3 s0 Hcons) as Hcons1.
    destruct (burst_attached k p others t3 (fst (handler k r t1 t2 t3 s0)) Hexp1 Hb Hinfl)
      as (Hreplies & Hlive' & Hinfl' & Hcount').
    destruct (burst_attached_books k p others t3 (fst (handler k r t1 t2 t3 s0))
                Hexp1 Hb Hinfl) as (Hqueue' & Hprom').
    assert (snd after = AwaitOwn p :: repeat (AwaitShared p) (length others)
            /\ fst after = fst (burst k others (fst (handler k r t1 t2 t3 s0))))
      as (Ha & Hfst).
    { subst after. simpl. destruct (handler k r t1 t2 t3 s0) as [s1 reply] eqn:Hh.
      simpl in *. destruct (burst k others s1) as [s2 replies]. simpl in *.
      subst reply. by rewrite Hreplies. }
    assert (live (fst after) = live s0 ++ [e]) as Hla by (by rewrite Hfst, Hlive', Hlive).
    assert (consistent (fst after)) as Hca.
    { subst after. rewrite burst_run. by apply consistent_run. }
    assert (In e (live (fst after))) as Hea
      by (rewrite Hla; apply in_app_iff; right; by left).
    split; [|split].
    + split; [done|]. split; [done|]. split; [by rewrite Hfst, Hprom'|].
      split; [done|]. split; [|by rewrite Hfst, Hcount'].
      intros e' He' Hk. apply (same_key_same_entry (live (fst after))); try done.
      apply (live_keys _ Hca).
    + intros later s'.
      destruct (one_run_per_handle later (fst after) e Hca Hea)
        as [(Hruns & Hin & Hset)
           |(before & api & t4 & t5 & rest & Hlater & Hrun & Hruns & Hset)].
      * left. split; [done|]. split; [done|]. split.
        -- apply (live_handles s' (consistent_run later _ Hca)). by exists e.
        -- intros reply Hin'. rewrite Ha in Hin'. by apply (burst_waiting p (length others)).
      * right. exists before, api, t4, t5, rest. split; [done|]. split; [done|].
        split; [done|]. split; [done|]. intros reply Hin. rewrite Ha in Hin.
        by apply (burst_responses p (length others) e t4).
    + intros waiting api t4 t5 Hall Hlen s'.
      destruct (settlements_take waiting (fst after) Hca Hall) as (Hlw & Hcw);
        [rewrite Hla, length_app; lia|].
      rewrite Hla, Hlen, drop_app_length in Hlw.
      set (s1 := run waiting (fst after)) in *.
      pose proof (consistent_run waiting _ Hca) as Hc1. fold s1 in Hc1.
      assert (running s1 = Some e /\ requestQueue s1 = []) as (Hr1 & Hq1).
      { unfold live in Hlw. destruct (running s1) as [e1|] eqn:He1.
        - by injection Hlw as -> ->.
        - rewrite (worker_idle s1 Hc1 He1) in Hlw. discriminate Hlw. }
      assert (s' = resume api t4 t5 s1) as Hs'.
      { subst s' s1. unfold run. by rewrite fold_left_app. }
      destruct (resume_queue api t4 t5 s1 e Hr1) as (Hl' & _ & Hc').
      assert (settled s' !! p = Some (settlement_of e t4 (reconcile api r))) as Hset.
      { rewrite Hs', (resume_settlement api t4 t5 s1 e Hc1 Hr1). apply lookup_insert_eq. }
      split; [done|]. split; [by rewrite Hs', Hl'|]. split; [done|]. split.
      * rewrite Hs', Hc', Hq1. rewrite Hq1 in Hcw. cbn [length] in Hcw.
        rewrite Hfst, Hqueue', Hcount' in Hcw. lia.
      * intros reply Hin. rewrite Ha in Hin.
        by apply (burst_responses p (length others) e t4).
Qed.

(** three callers of one question, answered B by one run *)
Lemma coalescing_example :
  let after := burst "q" [(Plain "q", (0, 0, 0)); (Plain "q", (5, 5, 5));
                          (Plain "q", (9, 9, 9))] initial in
  let s' := run [Settle (service_answering "B" "90") 1500 1500] (fst after) in
  snd after = [AwaitOwn 0; AwaitShared 0; AwaitShared 0]
  /\ requestCounter s' = 1
  /\ forall reply, In reply (snd after) ->
                   exists h, response reply s' = Some h
                             /\ status h = 200 /\ answer_of h = Some "B".
Proof.
  assert (monotone 0 (burst_events "q" [(Plain "q", (0, 0, 0)); (Plain "q", (5, 5, 5));
                                        (Plain "q", (9, 9, 9))])) as Hm
    by (simpl; lia).
  assert (snd (handler "q" (Plain "q") 0 0 0 (run [] initial)) = AwaitOwn 0) as Hfirst
    by (vm_compute; reflexivity).
  assert (reconcile (service_answering "B" "90") (Plain "q") = inr ("B", 90)) as Hout
    by (vm_compute; reflexivity).
  destruct (proj2 (coalescing 0 [] "q" I) (Plain "q") 0 0 0
              [(Plain "q", (5, 5, 5)); (Plain "q", (9, 9, 9))] 0%nat Hm Hfirst)
    as ((Hreplies & _) & _ & Hrun).
  destruct (Hrun [] (service_answering "B" "90") 1500 1500 (Forall_nil_2 _) eq_refl)
    as (_ & _ & _ & Hcount & Hall).
  split; [exact Hreplies|]. split; [exact Hcount|].
  intros reply Hin. specialize (Hall reply Hin). rewrite Hout in Hall. exact Hall.
Defined.

(** *** Terminal failure *)

Lemma reconcile_all_failed api rawPrompt :
  (forall model, In model MODELS ->
                 success (invoke api model (buildPrompt rawPrompt)) = false) ->
  reconcile api rawPrompt = inl "All models failed including Judge".
Proof.
  intros Hfail. unfold reconcile. simpl.
  rewrite ensemble_unfold. unfold worker_results, workers. simpl.
  pose proof (Hfail (MODEL 0)) as H0. pose proof (Hfail (MODEL 1)) as H1.
  pose proof (Hfail (MODEL 2)) as H2. pose proof (Hfail (MODEL 3)) as H3.
  destruct (invoke api (MODEL 0) (buildPrompt rawPrompt));
    [discriminate H0; simpl; tauto|].
  destruct (invoke api (MODEL 1) (buildPrompt rawPrompt));
    [discriminate H1; simpl; tauto|].
  destruct (invoke api (MODEL 2) (buildPrompt rawPrompt));
    [discriminate H2; simpl; tauto|].
  destruct (invoke api (MODEL 3) (buildPrompt rawPrompt));
    [discriminate H3; simpl; tauto|].
  reflexivity.
Qed.

(** C7: when the three workers and the judge fail on the running entry,
    its handle is rejected with the one error "All models failed including
    Judge", which every caller awaiting it receives; nothing is cached; the
    key leaves the in-flight map, as it does on every settlement; and a
    later request for the key is admitted as a new computation with a new
    handle. *)
Theorem all_models_failed t evs e api t4 t5 :
  monotone t evs ->
  running (run evs initial) = Some e ->
  clock_after t evs <= t4 -> t4 <= t5 ->
  (forall model, In model MODELS ->
                 success (invoke api model (buildPrompt (rawPrompt e))) = false) ->
  let s := run evs initial in
  let s' := resume api t4 t5 s in
  settled s' !! handle e = Some (Rejected "All models failed including Judge")
  /\ response (AwaitOwn (handle e)) s'
     = Some {| status := 500; body := Error "All models failed including Judge" |}
  /\ response (AwaitShared (handle e)) s'
     = Some {| status := 500; body := Error "All models failed including Judge" |}
  /\ recentAnswers s' = recentAnswers s
  /\ inflight s' !! key e = None
  /\ (forall api' t4' t5', inflight (resume api' t4' t5' s) !! key e = None)
  /\ (forall r t1 t2 t3,
        t5 <= t1 ->
        snd (handler (key e) r t1 t2 t3 s') = AwaitOwn (promises s')
        /\ promises s' <> handle e
        /\ In {| key := key e; rawPrompt := r; handle := promises s'; startTime := t3 |}
             (live (fst (handler (key e) r t1 t2 t3 s')))).
Proof.
  intros Hm He Ht4 Ht5 Hfail s s'. change (running s = Some e) in He.
  destruct (reached_consistent t evs Hm) as (Hcons & Hexp). fold s in Hcons, Hexp.
  destruct (resume_running api t4 t5 s e He) as (Hinfl & Hcache & Hsettled & Hprom).
  destruct (complete_running api t4 t5 s e He) as (v & cache & Heq & Hout).
  rewrite (reconcile_all_failed api (rawPrompt e) Hfail) in Hout. destruct Hout as [-> ->].
  assert (In e (live s)) as Hlive by (unfold live; rewrite He; by left).
  destruct (handles_made s Hcons e Hlive) as [Hlt Hunsettled].
  assert (settled s' !! handle e = Some (Rejected "All models failed including Judge"))
    as Hrejected.
  { subst s'. rewrite Hsettled, Heq. rewrite settle_unsettled by done.
    apply lookup_insert_eq. }
  assert (recentAnswers s' = recentAnswers s) as Hsame
    by (subst s'; by rewrite Hcache, Heq).
  assert (forall api' t4' t5', inflight (resume api' t4' t5' s) !! key e = None) as Hgone.
  { intros api' t4' t5'.
    destruct (resume_running api' t4' t5' s e He) as (Hinfl' & _).
    rewrite Hinfl'. apply lookup_delete_eq. }
  split; [done|]. split; [by simpl; rewrite Hrejected|].
  split; [by simpl; rewrite Hrejected|]. split; [done|]. split; [apply Hgone|].
  split; [done|]. intros r t1 t2 t3 Ht1.
  assert (inflight s !! key e = Some (handle e)) as Hflight
    by (apply (live_handles s Hcons); eauto).
  assert (recentAnswers (vacuum t1 s') !! key e = None) as Hswept.
  { destruct (recentAnswers (vacuum t1 s') !! key e) as [c|] eqn:Hc; [|done].
    apply vacuum_lookup in Hc as [Hc Hfresh]. rewrite Hsame in Hc.
    specialize (Hexp (key e) (handle e) c Hflight Hc). lia. }
  destruct (handler_cases (key e) r t1 t2 t3 s')
    as [(c & Hc & _)|[_ [(p' & Hp' & _)|(Hnone & ->)]]].
  - congruence.
  - pose proof (Hgone api t4 t5) as Hg. fold s' in Hg. congruence.
  - split; [done|]. split.
    + subst s'. rewrite Hprom. lia.
    + apply (processQueue_keeps (key e) r t3 (vacuum t1 s')).
Qed.

(** a question asked twice while the service is down: both callers get the
    error *)
Lemma all_models_failed_example :
  response (AwaitShared 0)
    (resume service_down 9000 9000
       (run [Ask "q" (Plain "q") 0 0 0; Ask "q" (Plain "q") 10 10 10] initial))
  = Some {| status := 500; body := Error "All models failed including Judge" |}.
Proof.
  pose (evs := [Ask "q" (Plain "q") 0 0 0; Ask "q" (Plain "q") 10 10 10]).
  pose (e := {| key := "q"; rawPrompt := Plain "q"; handle := 0; startTime := 0 |}).
  assert (monotone 0 evs) as Hm by (simpl; lia).
  assert (running (run evs initial) = Some e) as He by (vm_compute; reflexivity).
  assert (clock_after 0 evs <= 9000) as Ht by (simpl; lia).
  assert (forall model, In model MODELS ->
            success (invoke service_down model (buildPrompt (rawPrompt e))) = false)
    as Hfail by (intros model _; vm_compute; reflexivity).
  exact (proj1 (proj2 (proj2 (all_models_failed 0 evs e service_down 9000 9000
                                Hm He Ht (Z.le_refl 9000) Hfail)))).
Defined.
End ServerFacts.


(** ** Answer Parser: ranges and canonical answers *)

Module ParserMore.
Import Text Regex Json Parser ParserFacts Vocabulary.

(** *** The order of the default sort *)

Lemma code_inj a b : code a = code b -> a = b.
Proof.
  unfold code. intros H. rewrite <- (ascii_nat_embedding a), <- (ascii_nat_embedding b).
  by rewrite H.
Qed.

Lemma str_leb_refl s : str_leb s s = true.
Proof.
  induction s as [|a s IH]; simpl; [done|].
  rewrite Nat.eqb_refl, IH. apply orb_true_r.
Qed.

Lemma str_leb_total s t : str_leb s t = false -> str_leb t s = true.
Proof.
  revert t. induction s as [|a s IH]; intros [|b t]; simpl; try done.
  destruct (Nat.ltb_spec (code a) (code b)); [done|].
  destruct (Nat.eqb_spec (code a) (code b)) as [Heq|Hne]; simpl.
  - intros Hst. rewrite Heq, Nat.eqb_refl, (IH t Hst). apply orb_true_r.
  - intros _. destruct (Nat.ltb_spec (code b) (code a)); [done|lia].
Qed.

Lemma str_leb_trans s t u :
  str_leb s t = true -> str_leb t u = true -> str_leb s u = true.
Proof.
  revert t u. induction s as [|a s IH]; intros [|b t] [|c u]; simpl; try done.
  destruct (Nat.ltb_spec (code a) (code b)), (Nat.ltb_spec (code b) (code c)),
    (Nat.ltb_spec (code a) (code c)); simpl; try done; try lia.
  - destruct (Nat.eqb_spec (code b) (code c)); [lia|done].
  - destruct (Nat.eqb_spec (code a) (code b)); [lia|done].
  - destruct (Nat.eqb_spec (code a) (code b)), (Nat.eqb_spec (code b) (code c)),
      (Nat.eqb_spec (code a) (code c)); simpl; try done; try lia.
    apply IH.
Qed.

Lemma str_leb_antisym s t : str_leb s t = true -> str_leb t s = true -> s = t.
Proof.
  revert t. induction s as [|a s IH]; intros [|b t]; simpl; try done.
  destruct (Nat.ltb_spec (code a) (code b)), (Nat.ltb_spec (code b) (code a)),
    (Nat.eqb_spec (code a) (code b)), (Nat.eqb_spec (code b) (code a));
    simpl; try done; try lia.
  intros Hst Hts. f_equal; [by apply code_inj|by apply IH].
Qed.

(** *** Deduplication and sort *)

Lemma In_dedupe_from seen l x :
  In x (dedupe_from seen l) <-> In x l /\ ~ In x seen.
Proof.
  revert seen. induction l as [|y l IH]; intros seen; simpl; [tauto|].
  destruct (decide (y ∈ seen)) as [Hy|Hy].
  - rewrite bool_decide_eq_true_2 by done. rewrite IH.
    apply list_elem_of_In in Hy. split.
    + intros [? ?]. auto.
    + intros [[->|?] ?]; [done|auto].
  - rewrite bool_decide_eq_false_2 by done. simpl. rewrite IH. simpl.
    rewrite list_elem_of_In in Hy. split.
    + intros [->|[? Hx]]; [auto|]. split; [auto|]. intros ?. apply Hx. auto.
    + intros [[->|Hx] Hs]; [auto|]. destruct (decide (y = x)) as [->|Hne]; [auto|].
      right. split; [done|]. intros [?|?]; done.
Qed.

Lemma NoDup_dedupe_from seen l : NoDup (dedupe_from seen l).
Proof.
  revert seen. induction l as [|y l IH]; intros seen; simpl; [constructor|].
  destruct (bool_decide (y ∈ seen)); [apply IH|].
  apply NoDup_cons. split; [|apply IH].
  rewrite list_elem_of_In, In_dedupe_from. intros [_ Hy]. apply Hy. by left.
Qed.

Lemma In_dedupe l x : In x (dedupe l) <-> In x l.
Proof. unfold dedupe. rewrite In_dedupe_from. simpl. tauto. Qed.

Lemma insert_sorted_perm x l : Permutation (insert_sorted x l) (x :: l).
Proof.
  induction l as [|y l IH]; simpl; [done|].
  destruct (str_leb y x); [|done].
  rewrite IH. apply perm_swap.
Qed.

Lemma sort_perm l : Permutation (sort l) l.
Proof.
  unfold sort.
  enough (forall acc, Permutation (fold_left (fun acc x => insert_sorted x acc) l acc)
                        (acc ++ l)) as H by apply (H []).
  induction l as [|x l IH]; intros acc; simpl.
  - by rewrite app_nil_r.
  - rewrite IH, insert_sorted_perm. simpl. apply Permutation_middle.
Qed.

Lemma insert_sorted_sorted x l :
  StronglySorted before l -> StronglySorted before (insert_sorted x l).
Proof.
  induction 1 as [|y l Hs IH Hy]; simpl.
  - repeat constructor.
  - destruct (str_leb y x) eqn:Hyx.
    + constructor; [done|]. apply List.Forall_forall. intros z Hz.
      apply (Permutation_in _ (insert_sorted_perm x l)) in Hz as [<-|Hz]; [done|].
      rewrite List.Forall_forall in Hy. auto.
    + constructor; [by constructor|]. apply str_leb_total in Hyx.
      constructor; [done|]. rewrite List.Forall_forall in Hy |- *.
      intros z Hz. eapply str_leb_trans; [exact Hyx|]. by apply Hy.
Qed.

Lemma sort_sorted l : StronglySorted before (sort l).
Proof.
  unfold sort.
  enough (forall acc, StronglySorted before acc ->
            StronglySorted before (fold_left (fun acc x => insert_sorted x acc) l acc))
    as H by (apply H; constructor).
  induction l as [|x l IH]; intros acc Hacc; simpl; [done|].
  apply IH. by apply insert_sorted_sorted.
Qed.

Lemma sorted_NoDup_increasing l : StronglySorted before l -> NoDup l -> increasing l.
Proof.
  induction 1 as [|x l Hs IH Hx]; intros Hnd; [constructor|].
  apply NoDup_cons in Hnd as [Hnotin Hnd]. constructor; [by apply IH|].
  rewrite List.Forall_forall in Hx |- *. intros y Hy. split; [by apply Hx|].
  intros ->. apply Hnotin. by apply list_elem_of_In.
Qed.

Lemma canonical_set l :
  increasing (sort (dedupe l)) /\ forall x, In x (sort (dedupe l)) <-> In x l.
Proof.
  split.
  - apply sorted_NoDup_increasing; [apply sort_sorted|].
    rewrite sort_perm. apply NoDup_dedupe_from.
  - intros x. split; intros H.
    + apply In_dedupe. by apply (Permutation_in _ (sort_perm _)).
    + apply (Permutation_in _ (Permutation_sym (sort_perm _))). by apply In_dedupe.
Qed.

Lemma increasing_unique l1 : forall l2,
  increasing l1 -> increasing l2 -> (forall x, In x l1 <-> In x l2) -> l1 = l2.
Proof.
  unfold increasing.
  induction l1 as [|x l1 IH]; intros [|y l2] H1 H2 Hsame.
  - done.
  - destruct (proj2 (Hsame y) (or_introl eq_refl)).
  - destruct (proj1 (Hsame x) (or_introl eq_refl)).
  - apply StronglySorted_inv in H1 as [H1 Hx]. apply StronglySorted_inv in H2 as [H2 Hy].
    rewrite List.Forall_forall in Hx, Hy.
    assert (x = y) as ->.
    { destruct (proj1 (Hsame x) (or_introl eq_refl)) as [Heq|Hin]; [done|].
      destruct (proj2 (Hsame y) (or_introl eq_refl)) as [Heq|Hin']; [done|].
      destruct (Hy x Hin) as [Hyx _]. destruct (Hx y Hin') as [Hxy _].
      by apply str_leb_antisym. }
    f_equal. apply IH; [done..|]. intros z. split; intros Hz.
    + destruct (proj1 (Hsame z) (or_intror Hz)) as [<-|Hin]; [|done].
      by destruct (Hx y Hz) as [_ Hne].
    + destruct (proj2 (Hsame z) (or_intror Hz)) as [<-|Hin]; [|done].
      by destruct (Hy y Hz) as [_ Hne].
Qed.

(** X1: the text that a list of letters is turned into depends on the
    letters present only, not on their order or on their repetitions: two
    lists with the same members give the same text. *)
Theorem letter_set_of_members l1 l2 :
  (forall x, In x l1 <-> In x l2) -> letter_set l1 = letter_set l2.
Proof.
  intros Hsame. unfold letter_set. f_equal.
  destruct (canonical_set l1) as [Hinc1 Hin1]. destruct (canonical_set l2) as [Hinc2 Hin2].
  apply increasing_unique; [done..|]. intros x. by rewrite Hin1, Hin2.
Qed.

Lemma letter_set_of_members_example :
  letter_set ["B"; "A"; "B"] = letter_set ["A"; "B"].
Proof.
  apply letter_set_of_members. intros x. cbn [In]. intuition.
Defined.

(** *** Letters found in a text *)

Lemma match_here_Chr p pos a s :
  match_here (Chr p) pos (a :: s) = if p a then Some (Found pos [a] [] s) else None.
Proof.
  unfold match_here. simpl. destruct (p a); [|done].
  by replace (S pos - pos)%nat with 1%nat by lia.
Qed.

Lemma matches_Chr p n : forall pos s,
  Forall (fun m => exists a, m = [a] /\ p a = true) (matches_from n (Chr p) pos s).
Proof.
  induction n as [|n IH]; intros pos s; simpl; [constructor|].
  destruct s as [|a s]; [constructor|].
  rewrite match_here_Chr. destruct (p a) eqn:Hp; simpl; [|apply IH].
  constructor; [eauto|apply IH].
Qed.

Lemma letter_A_to_F a : in_range 65 70 a = true -> In (String a "") letters_A_to_F.
Proof.
  destruct a as [[] [] [] [] [] [] [] []]; vm_compute; intros H;
    try discriminate H; auto 10.
Qed.

Lemma letters_of_spec s letters :
  letters_of s = Some letters ->
  letters <> [] /\ Forall (fun x => In x letters_A_to_F) letters.
Proof.
  unfold letters_of, match_all.
  pose proof (matches_Chr (in_range 65 70) (S (length (chars (toUpperCase s)))) 0
                (chars (toUpperCase s))) as Hall.
  destruct (matches_from _ letterAF 0 _) as [|m ms] eqn:Hm; [done|].
  unfold letterAF in Hm. rewrite Hm in Hall. intros [= <-]. split; [done|].
  apply List.Forall_forall. intros x Hx. change (In x (map text (m :: ms))) in Hx.
  apply in_map_iff in Hx as (l & <- & Hl).
  rewrite List.Forall_forall in Hall. destruct (Hall l Hl) as (a & -> & Ha).
  by apply letter_A_to_F.
Qed.

Lemma letter_set_canonical s letters :
  letters_of s = Some letters -> canonical (letter_set letters).
Proof.
  intros Hs. destruct (letters_of_spec s letters Hs) as [Hne Hall].
  destruct (canonical_set letters) as [Hinc Hin].
  exists (sort (dedupe letters)). split; [done|]. split; [|split; [done|]].
  - destruct letters as [|x letters]; [done|]. intros Hnil.
    assert (In x (sort (dedupe (x :: letters)))) as Hx by (apply Hin; by left).
    rewrite Hnil in Hx. destruct Hx.
  - apply List.Forall_forall. intros x Hx. apply Hin in Hx.
    rewrite List.Forall_forall in Hall. auto.
Qed.

Lemma letter_steps text r :
  step_letters text = Some r \/ step_labelled text = Some r \/ step_short text = Some r ->
  canonical (answer r) /\ In (confidence r) [70; 65; 60].
Proof.
  unfold step_letters, step_labelled, step_short. intros [H|[H|H]].
  - destruct (exec letter_list text); [|done].
    destruct (letters_of text) as [letters|] eqn:Hl; [|done].
    destruct ((0 <? length letters)%nat && (length letters <=? 6)%nat); [|done].
    injection H as <-. simpl. split; [by apply (letter_set_canonical text)|auto].
  - destruct (exec labelled_answer text) as [m|]; [|done].
    destruct (letters_of _) as [letters|] eqn:Hl; [|done].
    injection H as <-. simpl. split; [by eapply letter_set_canonical|auto].
  - destruct (len text <=? 10)%nat; [|done].
    destruct (letters_of text) as [letters|] eqn:Hl; [|done].
    destruct ((0 <? length letters)%nat && (length letters <=? 4)%nat); [|done].
    injection H as <-. simpl. split; [by apply (letter_set_canonical text)|auto].
Qed.

(** X2: when the parser reads letters off a text (a list of letters, a
    labelled answer, or a short text), the answer it returns is canonical:
    letters A to F in strictly increasing order, without repetition, joined
    by a comma and a space; and the confidence is 70, 65 or 60. *)
Theorem letter_answers_canonical text r :
  step_letters text = Some r \/ step_labelled text = Some r \/ step_short text = Some r ->
  canonical (answer r) /\ In (confidence r) [70; 65; 60].
Proof. apply letter_steps. Qed.

Lemma letter_answers_canonical_example : canonical "A, B".
Proof.
  assert (step_letters " b, a ,a" = Some {| answer := "A, B"; confidence := 70 |}) as H
    by (vm_compute; reflexivity).
  exact (proj1 (letter_answers_canonical " b, a ,a" _ (or_introl H))).
Defined.

(** *** Ranges *)

Lemma parsed_confidence_range rawText :
  0 <= confidence (parseAnswerWithConfidence rawText) <= 100.
Proof.
  destruct rawText as [raw|]; [|simpl; lia].
  unfold parseAnswerWithConfidence. destruct (Text.truthy raw); [|simpl; lia].
  cbn [negb]. destruct (first_of steps (trim raw)) as [r|] eqn:Hr; [|simpl; lia].
  apply first_of_Some in Hr as (step & Hin & Hstep).
  assert (forall v, of_json v = Some r -> 0 <= confidence r <= 100) as Hjson.
  { intros v. unfold of_json.
    destruct (get v "answer"); [|done]. destruct (get v "confidence"); [|done].
    intros [= <-]. apply clamp_confidence_range. }
  destruct Hin as [<-|[<-|[<-|Hin]]].
  - unfold step_json in Hstep. destruct (JSON_parse _); [eauto|done].
  - unfold step_embedded in Hstep. destruct (exec embedded_object _); [|done].
    destruct (JSON_parse _); [eauto|done].
  - unfold step_true_false in Hstep. destruct (test true_false _); [|done].
    injection Hstep as <-. simpl. lia.
  - assert (In (confidence r) [70; 65; 60]) as Hc.
    { apply (letter_steps (trim raw)).
      destruct Hin as [<-|[<-|[<-|[]]]]; auto. }
    simpl in Hc. lia.
Qed.

(** X3: whatever the text, absent, empty or not understood, the confidence
    that the parser returns is a percentage: it lies between 0 and 100. *)
Theorem confidence_in_range rawText :
  0 <= confidence (parseAnswerWithConfidence rawText) <= 100.
Proof. apply parsed_confidence_range. Qed.

(** *** JSON texts that are not answers *)

(** X4: a text that is valid JSON, once its code fences are removed, but
    has neither an answer nor a confidence member (a number, a boolean, an
    object with other members) parses to the empty answer with confidence
    50; the later ways of reading the text are not tried. *)
Theorem json_without_fields raw v :
  Text.truthy raw = true ->
  JSON_parse (trim (replace_all fence "" (trim raw))) = Some v ->
  get v "answer" = Some None -> get v "confidence" = Some None ->
  parseAnswerWithConfidence (Some raw) = empty_result 50.
Proof.
  intros Hraw Hv Ha Hc. unfold parseAnswerWithConfidence. rewrite Hraw. cbn [negb].
  unfold steps. cbn [first_of]. unfold step_json at 1. rewrite Hv.
  unfold of_json. rewrite Ha, Hc. reflexivity.
Qed.

Lemma json_without_fields_example :
  parseAnswerWithConfidence (Some "true") = empty_result 50.
Proof.
  assert (JSON_parse (trim (replace_all fence "" (trim "true"))) = Some (JBool true))
    as Hv by (vm_compute; reflexivity).
  exact (json_without_fields "true" (JBool true) eq_refl Hv eq_refl eq_refl).
Defined.
End ParserMore.

(** ** Model Invoker: results, delays and error texts *)

Module InvokerMore.
Import Text Regex Json Invoker InvokerFacts Vocabulary ParserMore.


(** *** Error texts *)

Lemma len_append a b : len (a +:+ b) = (len a + len b)%nat.
Proof. unfold len. induction a as [|c a IH]; simpl; [done|]. by rewrite IH. Qed.

Lemma len_text l : len (text l) = length l.
Proof. unfold len, text. induction l as [|c l IH]; simpl; [done|]. by rewrite IH. Qed.

Lemma length_chars s : length (chars s) = len s.
Proof. unfold len, chars. induction s as [|c s IH]; simpl; [done|]. by rewrite IH. Qed.

Lemma len_prefix n s : len (prefix n s) = Nat.min n (len s).
Proof. unfold prefix. by rewrite len_text, length_firstn, length_chars. Qed.

Lemma truthy_len s : Text.truthy s = true -> (0 < len s)%nat.
Proof. destruct s; [done|]. simpl. lia. Qed.

Lemma format_api_error_texts msg friendly :
  format_api_error msg = Some friendly -> In friendly api_error_texts.
Proof.
  unfold format_api_error, api_error_texts.
  destruct (includes msg _); [|done].
  destruct (exec error_object msg) as [jsonMatch|]; [|done].
  destruct (JSON_parse _) as [parsed|]; [|done].
  destruct (get parsed "error") as [err|]; [|done].
  repeat match goal with
         | |- context [if ?c then _ else _] => destruct c
         end; intros [= <-]; simpl; auto 10.
Qed.

Lemma formatError_bounds error :
  (0 < len (formatError error) <= 33)%nat.
Proof.
  unfold formatError.
  set (msg := if Text.truthy error then error else "Error").
  assert (0 < len msg)%nat as Hmsg.
  { unfold msg. destruct (Text.truthy error) eqn:He; [by apply truthy_len|simpl; lia]. }
  destruct (format_api_error msg) as [friendly|] eqn:Hf.
  - apply format_api_error_texts in Hf.
    repeat (destruct Hf as [<-|Hf]; [vm_compute; lia|]). destruct Hf.
  - repeat match goal with
           | |- context [if ?c then _ else _] => destruct c eqn:?
           end;
      try (vm_compute; lia);
      rewrite len_append, len_prefix;
      try change (len "...") with 3%nat; try change (len "") with 0%nat; lia.
Qed.


#[local] Opaque Parser.parseAnswerWithConfidence formatError extractText.

(** *** Successful results *)

Lemma attempt_result_inl a p raw :
  attempt_result a = inl (p, raw) ->
  exists response,
    a = Responded response /\ extractText response = Some raw
    /\ p = Parser.parseAnswerWithConfidence (Some raw)
    /\ Text.truthy (Parser.answer p) = true.
Proof.
  unfold attempt_result. destruct a as [response|message]; [|intros H; discriminate H].
  destruct (extractText response) as [rawText|] eqn:He; [|intros H; discriminate H].
  destruct (Text.truthy rawText && negb (String.eqb (trim rawText) ""));
    [|intros H; discriminate H].
  destruct (Text.truthy (Parser.answer (Parser.parseAnswerWithConfidence (Some rawText))))
    eqn:Hans; [|intros H; discriminate H].
  intros H. injection H as <- <-. exists response.
  split; [reflexivity|]. split; [exact He|]. split; [reflexivity|exact Hans].
Qed.

Lemma attempts_Success model api retries answer confidence m raw : forall left attempt,
  fst (attempts model api retries left attempt) = Success answer confidence m raw ->
  m = model
  /\ exists n response,
       (attempt <= n < attempt + left)%nat /\ api n = Responded response
       /\ extractText response = Some raw
       /\ Parser.parseAnswerWithConfidence (Some raw)
          = {| Parser.answer := answer; Parser.confidence := confidence |}
       /\ Text.truthy answer = true.
Proof.
  induction left as [|left IH]; intros attempt; [done|].
  rewrite attempts_S.
  destruct (attempt_result (api attempt)) as [[p rawText]|errMsg] eqn:Ha.
  - cbn [fst]. intros H. injection H as <- <- <- <-. split; [reflexivity|].
    apply attempt_result_inl in Ha as (response & Hr & He & -> & Ht).
    exists attempt, response. split; [lia|]. split; [exact Hr|]. split; [exact He|].
    split; [|exact Ht].
    by destruct (Parser.parseAnswerWithConfidence (Some rawText)).
  - destruct (attempt =? retries)%nat; [intros H; discriminate H|].
    destruct (attempts model api retries left (S attempt)) as [r waits] eqn:Hrec.
    cbn [fst]. intros ->. destruct (IH (S attempt)) as (Hm & n & response & Hn & Hrest).
    { by rewrite Hrec. }
    split; [done|]. exists n, response. split; [lia|done].
Qed.

Lemma callSingleModel_Success model api retries answer confidence m raw :
  callSingleModel model api retries = Success answer confidence m raw ->
  m = model /\ Text.truthy answer = true /\ 0 <= confidence <= 100
  /\ exists n response,
       (1 <= n <= retries)%nat /\ api n = Responded response
       /\ extractText response = Some raw
       /\ Parser.parseAnswerWithConfidence (Some raw)
          = {| Parser.answer := answer; Parser.confidence := confidence |}.
Proof.
  intros H. apply attempts_Success in H as (-> & n & response & Hn & Ha & He & Hp & Ht).
  split; [done|]. split; [done|]. split.
  - pose proof (parsed_confidence_range (Some raw)) as Hc. by rewrite Hp in Hc.
  - exists n, response. split; [lia|done].
Qed.

(** X6: a successful result of a model call is well formed: it names the
    model called, its answer is not empty, its confidence lies between 0
    and 100, and answer and confidence are what the parser reads off the
    text of the response to one of the attempts, which is the raw text of
    the result. *)
Theorem success_well_formed model api retries answer confidence m raw :
  callSingleModel model api retries = Success answer confidence m raw ->
  m = model /\ Text.truthy answer = true /\ 0 <= confidence <= 100
  /\ exists n response,
       (1 <= n <= retries)%nat /\ api n = Responded response
       /\ extractText response = Some raw
       /\ Parser.parseAnswerWithConfidence (Some raw)
          = {| Parser.answer := answer; Parser.confidence := confidence |}.
Proof. apply callSingleModel_Success. Qed.

Lemma success_well_formed_example :
  callSingleModel "gemini-2.5-pro" (fun _ => text_response "B.") 3
  = Success "B" 60 "gemini-2.5-pro" "B."
  /\ Text.truthy "B" = true /\ 0 <= 60 <= 100.
Proof.
  assert (callSingleModel "gemini-2.5-pro" (fun _ => text_response "B.") 3
          = Success "B" 60 "gemini-2.5-pro" "B.") as H by (vm_compute; reflexivity).
  pose proof (success_well_formed _ _ _ _ _ _ _ H) as (_ & H2 & H3 & _).
  exact (conj H (conj H2 H3)).
Defined.

(** *** Delays *)

Lemma waitTime_bounds errMsg attempt :
  1000 * Z.of_nat attempt <= waitTime errMsg attempt <= 2000 * Z.of_nat attempt.
Proof. unfold waitTime. destruct (isOverload errMsg); lia. Qed.

Lemma attempts_waits model api retries : forall left attempt,
  (S left + attempt = S retries)%nat ->
  let waits := snd (attempts model api retries (S left) attempt) in
  (length waits <= left)%nat
  /\ total waits
     <= 1000 * (Z.of_nat retries * (Z.of_nat retries - 1)
                - Z.of_nat attempt * (Z.of_nat attempt - 1))
  /\ forall i w, nth_error waits i = Some w ->
                 1000 * Z.of_nat (attempt + i) <= w <= 2000 * Z.of_nat (attempt + i).
Proof.
  induction left as [|left IH]; intros attempt Hsum; rewrite attempts_S;
    (destruct (attempt_result (api attempt)) as [[p rawText]|errMsg];
     [cbn [snd length total fold_right]; split; [lia|]; split; [nia|by intros [|i]]|]).
  - assert (attempt = retries) as -> by lia. rewrite Nat.eqb_refl.
    cbn [snd length total fold_right]. split; [lia|]. split; [nia|by intros [|i]].
  - destruct (Nat.eqb_spec attempt retries) as [Heq|Hne]; [lia|].
    destruct (IH (S attempt)) as (Hlen & Htot & Hnth); [lia|].
    destruct (attempts model api retries (S left) (S attempt)) as [r waits].
    cbn [snd length total fold_right] in *.
    pose proof (waitTime_bounds errMsg attempt). split; [lia|].
    rewrite Nat2Z.inj_succ in Htot. split; [nia|]. intros [|i] w; cbn [nth_error].
    + intros [= <-]. rewrite Nat.add_0_r. lia.
    + intros Hw. specialize (Hnth i w Hw).
      replace (attempt + S i)%nat with (S attempt + i)%nat by lia. lia.
Qed.

(** X7: a model call of [retries] attempts sleeps at most [retries - 1]
    times, the [i]-th time between [i] and [2 i] seconds, and for at most
    [retries (retries - 1)] seconds in all, whatever the service does. *)
Theorem backoff_bounded model api retries :
  let waits := snd (callSingleModel_waits model api retries) in
  (length waits <= retries - 1)%nat
  /\ total waits <= 1000 * Z.of_nat retries * (Z.of_nat retries - 1)
  /\ forall i w, nth_error waits i = Some w ->
                 1000 * Z.of_nat (S i) <= w <= 2000 * Z.of_nat (S i).
Proof.
  unfold callSingleModel_waits. destruct retries as [|n].
  - cbn [attempts snd length total fold_right]. split; [lia|]. split; [lia|by intros [|i]].
  - destruct (attempts_waits model api (S n) n 1) as (Hlen & Htot & Hnth); [lia|].
    split; [lia|]. split; [lia|]. exact Hnth.
Qed.

(** *** Failed results *)

Lemma attempts_Failure model api retries m err : forall left attempt,
  fst (attempts model api retries left attempt) = Failure m err ->
  m = model /\ (0 < len err <= 33)%nat.
Proof.
  induction left as [|left IH]; intros attempt.
  - cbn [attempts fst]. intros [= <- <-]. split; [done|]. vm_compute. lia.
  - rewrite attempts_S.
    destruct (attempt_result (api attempt)) as [[p rawText]|errMsg];
      [intros H; discriminate H|].
    destruct (attempt =? retries)%nat.
    + cbn [fst]. intros [= <- <-]. split; [done|]. unfold exhausted_error.
      destruct (isOverload errMsg); [vm_compute; lia|apply formatError_bounds].
    + destruct (attempts model api retries left (S attempt)) as [r waits] eqn:Hrec.
      cbn [fst]. intros ->. apply (IH (S attempt)). by rewrite Hrec.
Qed.

(** X8: a failed result of a model call names the model called and carries
    an error text that is not empty and has at most 33 characters. *)
Theorem failure_well_formed model api retries m err :
  callSingleModel model api retries = Failure m err ->
  m = model /\ (0 < len err <= 33)%nat.
Proof. apply attempts_Failure. Qed.

Lemma failure_well_formed_example :
  callSingleModel "gemini-2.5-pro" (fun _ => Threw "network unreachable") 3
  = Failure "gemini-2.5-pro" "📡 Network error"
  /\ (0 < len "📡 Network error" <= 33)%nat.
Proof.
  assert (callSingleModel "gemini-2.5-pro" (fun _ => Threw "network unreachable") 3
          = Failure "gemini-2.5-pro" "📡 Network error") as H by (vm_compute; reflexivity).
  exact (conj H (proj2 (failure_well_formed _ _ _ _ _ H))).
Defined.

End InvokerMore.

(** ** Voting: what a round returns, and when it fails *)

Module VotingMore.
Import Text Regex Json Invoker Voting VotingFacts Vocabulary ParserMore.

#[local] Arguments normalize : simpl never.
#[local] Arguments normalizeAnswer : simpl never.

Lemma In_MODELS model : In model MODELS <-> In model workers \/ model = MODEL 3.
Proof. unfold MODELS, workers, MODEL. simpl. intuition. Qed.

Lemma In_worker_results invoke prompt r :
  In r (worker_results invoke prompt)
  <-> exists model, In model workers /\ r = invoke model prompt.
Proof.
  unfold worker_results. rewrite in_map_iff.
  split; intros (model & H1 & H2); exists model; done.
Qed.

Lemma supporter_success options a results r :
  In r (supporters options a results) -> In r results /\ success r = true.
Proof.
  unfold supporters. rewrite filter_In. unfold supports. intros [Hin Hs].
  split; [done|]. destruct r; [done|discriminate Hs].
Qed.

Lemma total_confidence_bounds lo hi l :
  (forall r, In r l -> lo <= confidence_of r <= hi) ->
  lo * Z.of_nat (length l) <= total_confidence l <= hi * Z.of_nat (length l).
Proof.
  unfold total_confidence. induction l as [|r l IH]; intros H.
  - cbn [length fold_right]. lia.
  - cbn [length fold_right]. rewrite Nat2Z.inj_succ.
    pose proof (H r (or_introl eq_refl)).
    assert (forall r, In r l -> lo <= confidence_of r <= hi) as Hl
      by (intros r' Hr'; apply H; by right).
    specialize (IH Hl). lia.
Qed.

Lemma round_div_bounds lo hi t c :
  0 < c -> lo * c <= t <= hi * c -> lo <= round_div t c <= hi.
Proof. intros Hc Ht. pose proof (round_div_spec t c Hc). nia. Qed.

Lemma agreed_In top sorted : agreed sorted = Some top -> In top sorted.
Proof.
  unfold agreed. destruct sorted as [|h t]; [done|].
  destruct (2 <=? r_count h); [|done]. intros [= <-]. by left.
Qed.

(** the answer of a round is not empty, and its confidence lies between
    the least and the greatest confidence of the models that answered *)
Lemma ensemble_bounds invoke prompt options lo hi v :
  (forall model answer confidence m raw,
      In model MODELS -> invoke model prompt = Success answer confidence m raw ->
      Text.truthy answer = true /\ lo <= confidence <= hi) ->
  fst (callGeminiEnsemble invoke prompt options) = inr v ->
  Text.truthy (finalAnswer v) = true /\ lo <= finalConfidence v <= hi.
Proof.
  intros Hok. rewrite ensemble_unfold.
  destruct (plain options (worker_results invoke prompt)); [|intros H; discriminate H].
  assert (forall r, In r (worker_results invoke prompt) -> success r = true ->
                    lo <= confidence_of r <= hi) as Hworkers.
  { intros r Hr Hs. apply In_worker_results in Hr as (model & Hm & ->).
    destruct (invoke model prompt) as [a c m raw|m err] eqn:Hi; [|discriminate Hs].
    cbn [confidence_of]. eapply Hok; [|exact Hi]. apply In_MODELS. by left. }
  destruct (agreed _) as [top|] eqn:Hag.
  - cbn [fst]. intros [= <-]. cbn [finalAnswer finalConfidence outcome].
    apply agreed_In, In_sorted_votes in Hag as (k & Hk & Hne & ->).
    cbn [ranked answer avgConfidence fst snd tally_of count totalConfidence].
    split; [done|]. apply round_div_bounds.
    + destruct (supporters options k (worker_results invoke prompt)); [done|].
      cbn [length]. lia.
    + apply total_confidence_bounds. intros r Hr.
      apply supporter_success in Hr as [Hin Hs]. by apply Hworkers.
  - destruct (invoke (MODEL 3) prompt) as [a c m raw|m err] eqn:Hj.
    + cbn [fst]. intros [= <-]. cbn [finalAnswer finalConfidence outcome].
      eapply Hok; [|exact Hj]. apply In_MODELS. by right.
    + destruct (best_worker _) as [[a c m' raw|m' err']|] eqn:Hb; cbn [fst];
        [|intros H; discriminate H..].
      intros [= <-]. cbn [finalAnswer finalConfidence outcome].
      apply best_worker_Some in Hb as (Hin & _).
      apply In_worker_results in Hin as (model & Hm & Heq).
      eapply Hok; [|symmetry; exact Heq]. apply In_MODELS. by left.
Qed.

(** a round that returns a result has had a model that answered *)
Lemma ensemble_result_success invoke prompt options v :
  fst (callGeminiEnsemble invoke prompt options) = inr v ->
  exists model, In model MODELS /\ success (invoke model prompt) = true.
Proof.
  rewrite ensemble_unfold.
  destruct (plain options (worker_results invoke prompt)); [|intros H; discriminate H].
  intros Hv. destruct (agreed _) as [top|] eqn:Hag.
  - apply agreed_In, In_sorted_votes in Hag as (k & Hk & Hne & ->).
    destruct (supporters options k (worker_results invoke prompt)) as [|r l] eqn:Hs;
      [done|].
    assert (In r (supporters options k (worker_results invoke prompt))) as Hr
      by (rewrite Hs; by left).
    apply supporter_success in Hr as [Hin Hok].
    apply In_worker_results in Hin as (model & Hm & ->).
    exists model. split; [|done]. apply In_MODELS. by left.
  - destruct (invoke (MODEL 3) prompt) as [a c m raw|m err] eqn:Hj.
    + exists (MODEL 3). split; [apply In_MODELS; by right|by rewrite Hj].
    + destruct (best_worker _) as [r|] eqn:Hb; [|discriminate Hv].
      apply best_worker_Some in Hb as (Hin & Hok & _).
      apply In_worker_results in Hin as (model & Hm & ->).
      exists model. split; [|done]. apply In_MODELS. by left.
Qed.

(** a round answers as soon as one of the four models does, when no
    worker's answer normalizes to an inherited name *)
Lemma ensemble_success_result invoke prompt options :
  plain options (worker_results invoke prompt) = true ->
  (exists model, In model MODELS /\ success (invoke model prompt) = true) ->
  exists v, fst (callGeminiEnsemble invoke prompt options) = inr v.
Proof.
  intros Hplain (model & Hm & Hok). rewrite ensemble_unfold, Hplain.
  destruct (agreed _) as [top|]; [by eexists|].
  destruct (invoke (MODEL 3) prompt) as [a c m raw|m err] eqn:Hj; [by eexists|].
  apply In_MODELS in Hm as [Hm| ->]; [|rewrite Hj in Hok; discriminate Hok].
  destruct (best_worker _) as [[a c m' raw|m' err']|] eqn:Hb; [by eexists|..].
  - apply best_worker_Some in Hb as (_ & Hs & _). discriminate Hs.
  - pose proof (best_worker_None _ Hb (invoke model prompt)) as Hnone.
    rewrite Hnone in Hok; [discriminate Hok|].
    apply In_worker_results. by exists model.
Qed.

(** the two ways in which a round fails *)
Lemma ensemble_failures invoke prompt options message :
  fst (callGeminiEnsemble invoke prompt options) = inl message ->
  (message = "All models failed including Judge"
   /\ (forall model, In model MODELS -> success (invoke model prompt) = false)
   /\ snd (callGeminiEnsemble invoke prompt options)
      = worker_calls prompt ++ [(MODEL 3, prompt)])
  \/ (message = push_of_undefined
      /\ plain options (worker_results invoke prompt) = false
      /\ snd (callGeminiEnsemble invoke prompt options) = worker_calls prompt).
Proof.
  rewrite ensemble_unfold.
  destruct (plain options (worker_results invoke prompt));
    [|cbn [fst snd]; intros [= <-]; by right].
  destruct (agreed _) as [top|]; [intros H; discriminate H|].
  destruct (invoke (MODEL 3) prompt) as [a c m raw|m err] eqn:Hj;
    [intros H; discriminate H|].
  destruct (best_worker _) as [[a c m' raw|m' err']|] eqn:Hb; cbn [fst snd];
    [intros H; discriminate H|..]; intros [= <-]; left.
  - apply best_worker_Some in Hb as (_ & Hs & _). discriminate Hs.
  - split; [done|]. split; [|done]. intros model Hm.
    apply In_MODELS in Hm as [Hm| ->]; [|by rewrite Hj].
    apply (best_worker_None _ Hb). apply In_worker_results. by exists model.
Qed.

(** X9: a round of the ensemble returns a result only if one of the four
    models has succeeded, and it does return one whenever a model has
    succeeded and no worker's answer normalizes to a name that objects
    inherit.  It fails in two ways only: with "All models failed including
    Judge", when the three workers and the judge have all failed, the
    judge being called last; or with the TypeError of the tally, on an
    answer that normalizes to an inherited name, the judge not being
    called.  In every case the three workers are called first, with the
    prompt of the round, and the judge at most once, after them. *)
Theorem ensemble_fails_only_when_all_fail invoke prompt options :
  let run := callGeminiEnsemble invoke prompt options in
  let results := worker_results invoke prompt in
  ((exists v, fst run = inr v) ->
   exists model, In model MODELS /\ success (invoke model prompt) = true)
  /\ (plain options results = true ->
      (exists model, In model MODELS /\ success (invoke model prompt) = true) ->
      exists v, fst run = inr v)
  /\ (forall message,
        fst run = inl message ->
        (message = "All models failed including Judge"
         /\ (forall model, In model MODELS -> success (invoke model prompt) = false)
         /\ snd run = worker_calls prompt ++ [(MODEL 3, prompt)])
        \/ (message = push_of_undefined
            /\ plain options results = false
            /\ snd run = worker_calls prompt))
  /\ (snd run = worker_calls prompt
      \/ snd run = worker_calls prompt ++ [(MODEL 3, prompt)]).
Proof.
  cbv zeta. split; [intros [v Hv]; by eapply ensemble_result_success|].
  split; [apply ensemble_success_result|]. split; [apply ensemble_failures|].
  rewrite ensemble_unfold.
  destruct (plain options (worker_results invoke prompt)); [|by left].
  destruct (agreed _) as [top|]; [by left|]. right.
  destruct (invoke (MODEL 3) prompt) as [a c m raw|m err]; [done|].
  by destruct (best_worker _) as [[a c m' raw|m' err']|].
Qed.

(** X10: the answer of a round is never empty when no model returns an empty
    answer, and its confidence lies between the least and the greatest
    confidence of the models that answered. *)
Theorem ensemble_result_bounds invoke prompt options lo hi v :
  (forall model answer confidence m raw,
      In model MODELS -> invoke model prompt = Success answer confidence m raw ->
      Text.truthy answer = true /\ lo <= confidence <= hi) ->
  fst (callGeminiEnsemble invoke prompt options) = inr v ->
  Text.truthy (finalAnswer v) = true /\ lo <= finalConfidence v <= hi.
Proof. apply ensemble_bounds. Qed.

Lemma ensemble_result_bounds_example :
  fst (callGeminiEnsemble
         (round (answered "w1" "A" 90) (answered "w2" "A" 80) (answered "w3" "B" 70)
            (Failure "judge" "not called")) "prompt" [])
  = inr (outcome "A" 85 "majority")
  /\ Text.truthy "A" = true /\ 70 <= 85 <= 90.
Proof.
  pose (invoke := round (answered "w1" "A" 90) (answered "w2" "A" 80)
                    (answered "w3" "B" 70) (Failure "judge" "not called")).
  assert (forall model answer confidence m raw,
             In model MODELS -> invoke model "prompt" = Success answer confidence m raw ->
             Text.truthy answer = true /\ 70 <= confidence <= 90) as Hok.
  { intros model answer confidence m raw Hm.
    repeat (destruct Hm as [<-|Hm];
            [intros H; vm_compute in H; inversion H; subst; (split; [reflexivity|lia])|]).
    destruct Hm. }
  assert (fst (callGeminiEnsemble invoke "prompt" []) = inr (outcome "A" 85 "majority"))
    as Hrun by (vm_compute; reflexivity).
  exact (conj Hrun (ensemble_result_bounds invoke "prompt" [] 70 90 _ Hok Hrun)).
Defined.

(** *** Failover *)

Section Failover.
Variable invoke : string -> string -> ModelResult.

(** X11: the failover chain calls the models in their configured order and
    stops at the first that succeeds, whose answer and confidence it
    returns under that model's name; the models after it are not called.
    It fails, with "All models failed", only after every model has been
    called and has failed. *)
Theorem failover_first_success prompt :
  let run := callGeminiWithFailover invoke prompt in
  match fst run with
  | inr (answer, model, confidence) =>
      exists tried rest m raw,
        MODELS = tried ++ model :: rest
        /\ (forall m', In m' tried -> success (invoke m' prompt) = false)
        /\ invoke model prompt = Success answer confidence m raw
        /\ snd run = map (fun m' => (m', prompt)) (tried ++ [model])
  | inl message =>
      message = "All models failed"
      /\ (forall m', In m' MODELS -> success (invoke m' prompt) = false)
      /\ snd run = map (fun m' => (m', prompt)) MODELS
  end.
Proof.
  unfold callGeminiWithFailover. cbv zeta. generalize MODELS as ms.
  induction ms as [|model ms IH].
  { simpl. split; [done|]. split; [intros m' []|done]. }
  cbn [failover]. destruct (invoke model prompt) as [a c m raw|m err] eqn:Hi.
  - cbn [fst snd]. exists [], ms, m, raw. done.
  - destruct (failover invoke ms prompt) as [[message|[[a model'] c]] calls];
      cbn [fst snd] in *.
    + destruct IH as (-> & Hall & ->). split; [done|]. split; [|done].
      intros m' [<-|Hm']; [by rewrite Hi|by apply Hall].
    + destruct IH as (tried & rest & m0 & raw & -> & Hall & Hok & ->).
      exists (model :: tried), rest, m0, raw. split; [done|]. split; [|done].
      intros m' [<-|Hm']; [by rewrite Hi|by apply Hall].
Qed.
End Failover.

(** *** Labels *)





(** *** The tally of the weighted vote *)

Lemma update_fresh k f o t :
  has_key k o = false -> update k f (o ++ [(k, t)]) = o ++ [(k, f t)].
Proof.
  induction o as [|[k' t'] o IH]; simpl.
  - by rewrite String.eqb_refl.
  - destruct (String.eqb k' k); [done|]. simpl. intros H. by rewrite IH.
Qed.

Lemma In_update k f o x :
  In x (update k f o) -> In x o \/ exists t, In (k, t) o /\ x = (k, f t).
Proof.
  induction o as [|[k' t'] o IH]; simpl; [auto|].
  destruct (String.eqb_spec k' k) as [->|Hne]; simpl.
  - intros [<-|H]; [right; exists t'; auto|auto].
  - intros [<-|H]; [auto|]. destruct (IH H) as [Ho|(t & Ht & ->)]; [auto|].
    right. exists t. auto.
Qed.

Lemma In_add_vote k c m o x :
  In x (record_vote k c m o) ->
  In x o \/ x = (k, bump c m no_votes) \/ exists t, In (k, t) o /\ x = (k, bump c m t).
Proof.
  unfold record_vote. destruct (has_key k o) eqn:Hk.
  - intros H. apply In_update in H as [H|(t & Ht & ->)]; [auto|].
    right; right. exists t. auto.
  - rewrite update_fresh by done. intros H.
    apply in_app_iff in H as [H|[<-|[]]]; auto.
Qed.

Lemma within_bump lo hi c m t :
  lo <= c <= hi -> (t = no_votes \/ within lo hi t) -> within lo hi (bump c m t).
Proof.
  unfold within, bump. intros Hc [->|(Hpos & Ht)]; cbn [count totalConfidence no_votes]; lia.
Qed.

Lemma recorded_answers_snoc rs r :
  recorded_answers (rs ++ [r])
  = record_vote (trim (toUpperCase (rl_answer r))) (rl_confidence r) (rl_model r)
      (recorded_answers rs).
Proof. unfold recorded_answers. by rewrite fold_left_app. Qed.

Lemma recorded_answers_keys rs k t :
  In (k, t) (recorded_answers rs) ->
  exists r, In r rs /\ k = trim (toUpperCase (rl_answer r)).
Proof.
  revert k t. induction rs as [|r rs IH] using rev_ind; intros k t; [intros []|].
  rewrite recorded_answers_snoc. intros H.
  apply In_add_vote in H as [H|[H|(t' & Ht' & H)]].
  - destruct (IH k t H) as (r' & Hr' & Hk).
    exists r'. split; [apply in_app_iff; by left|done].
  - injection H as -> ->. exists r. split; [apply in_app_iff; right; by left|done].
  - injection H as -> ->. exists r. split; [apply in_app_iff; right; by left|done].
Qed.

Lemma recorded_answers_within lo hi rs :
  (forall r, In r rs -> lo <= rl_confidence r <= hi) ->
  forall k t, In (k, t) (recorded_answers rs) -> within lo hi t.
Proof.
  induction rs as [|r rs IH] using rev_ind; intros Hall k t; [intros []|].
  assert (forall r, In r rs -> lo <= rl_confidence r <= hi) as Hrs
    by (intros r' Hr'; apply Hall, in_app_iff; by left).
  assert (lo <= rl_confidence r <= hi) as Hr
    by (apply Hall, in_app_iff; right; by left).
  specialize (IH Hrs). rewrite recorded_answers_snoc. intros H.
  apply In_add_vote in H as [H|[H|(t' & Ht' & H)]].
  - by apply (IH k t).
  - injection H as -> ->. apply within_bump; auto.
  - injection H as -> ->. apply within_bump; [done|]. right. by apply (IH _ _ Ht').
Qed.

Lemma In_ranked h o : In h (sorted_votes o) <-> exists kv, In kv o /\ h = ranked kv.
Proof.
  unfold sorted_votes. rewrite In_sort_by, in_map_iff.
  split; intros (kv & H1 & H2).
  - exists kv. split; [by apply In_entries|done].
  - exists kv. split; [done|by apply In_entries].
Qed.

Lemma In_best_of rest : forall first, In (best_of first rest) (first :: rest).
Proof.
  unfold best_of. induction rest as [|b rest IH]; intros first; cbn [fold_left];
    [by left|].
  destruct (IH (if rl_confidence b <? rl_confidence first then first else b))
    as [H|H]; [|right; by right].
  rewrite <- H. destruct (rl_confidence b <? rl_confidence first);
    [by left|right; by left].
Qed.

Lemma find_reliable_In model rs r : find_reliable model rs = Some r -> In r rs.
Proof. unfold find_reliable. intros H. by apply find_some in H as [H _]. Qed.

Lemma checked_fields a c m :
  rl_answer (checked a c m) = a
  /\ (rl_confidence (checked a c m) = c \/ rl_confidence (checked a c m) = Z.min c 40).
Proof.
  unfold checked.
  destruct (4 <=? length (normalizeAnswer (Some a)))%nat; cbn [rl_answer rl_confidence];
    auto.
Qed.

Lemma vote_origin modelResults :
  match _confidenceWeightedVote modelResults with
  | inl message =>
      message = "All models failed in ensemble"
      /\ List.filter success modelResults = []
  | inr v => origin modelResults v
  end.
Proof.
  unfold _confidenceWeightedVote.
  pose proof (reliableResults_length modelResults) as Hrel.
  assert (forall r, In r (List.filter success modelResults) -> success r = true) as Hok
    by (intros r Hr; by apply filter_In in Hr as [_ Hr]).
  destruct (List.filter success modelResults) as [|r1 l] eqn:Hs; [done|].
  destruct r1 as [a1 c1 m1 w1|m1 e1];
    [|by pose proof (Hok _ (or_introl eq_refl)) as H].
  destruct l as [|r2 l]; [by eapply from_single|].
  set (reliable := reliableResults (Success a1 c1 m1 w1 :: r2 :: l)) in *.
  cbv zeta. rewrite answerCounts_recorded.
  destruct (agreed (sorted_votes (recorded_answers reliable))) as [top|] eqn:Hag.
  { apply agreed_In in Hag. eapply from_tally; [rewrite Hs; exact Hag|done..]. }
  destruct (find_reliable (MODEL 0) reliable) as [r|] eqn:H0.
  { apply find_reliable_In in H0. eapply from_result; [rewrite Hs; exact H0|done..]. }
  destruct (find_reliable (MODEL 1) reliable) as [r|] eqn:H1.
  { apply find_reliable_In in H1. eapply from_result; [rewrite Hs; exact H1|done..]. }
  destruct reliable as [|first rest] eqn:Hreliable; [simpl in Hrel; lia|].
  apply (from_result _ _ (best_of first rest)); [|done..].
  rewrite Hs. change (In (best_of first rest) reliable).
  rewrite Hreliable. apply In_best_of.
Qed.

(** X13: the confidence-weighted vote fails only when no model succeeded.
    Otherwise its answer is the answer of a successful model, as given or
    trimmed and in upper case, and its confidence is at most the greatest
    confidence reported, and at least the least one or 40. *)
Theorem weighted_vote_result modelResults :
  match _confidenceWeightedVote modelResults with
  | inl message =>
      message = "All models failed in ensemble"
      /\ forall r, In r modelResults -> success r = false
  | inr v =>
      (exists answer confidence model raw,
          In (Success answer confidence model raw) modelResults
          /\ (finalAnswer v = answer \/ finalAnswer v = trim (toUpperCase answer)))
      /\ forall lo hi,
           (forall answer confidence model raw,
               In (Success answer confidence model raw) modelResults ->
               lo <= confidence <= hi) ->
           Z.min lo 40 <= finalConfidence v <= hi
  end.
Proof.
  pose proof (vote_origin modelResults) as H.
  destruct (_confidenceWeightedVote modelResults) as [message|v].
  - destruct H as [-> Hnone]. split; [done|]. intros r Hr.
    destruct (success r) eqn:Hs; [|done].
    assert (In r (List.filter success modelResults)) as Hin by (by apply filter_In).
    rewrite Hnone in Hin. destruct Hin.
  - assert (forall r, In r (reliableResults (List.filter success modelResults)) ->
              exists answer confidence model raw,
                In (Success answer confidence model raw) modelResults
                /\ rl_answer r = answer
                /\ (rl_confidence r = confidence \/ rl_confidence r = Z.min confidence 40))
      as Hrel.
    { intros r Hr. apply In_reliableResults in Hr as (a & c & m & raw & Hin & ->).
      apply filter_In in Hin as [Hin _]. exists a, c, m, raw. split; [done|].
      apply checked_fields. }
    assert (forall lo hi,
              (forall answer confidence model raw,
                  In (Success answer confidence model raw) modelResults ->
                  lo <= confidence <= hi) ->
              forall r, In r (reliableResults (List.filter success modelResults)) ->
                        Z.min lo 40 <= rl_confidence r <= hi) as Hrange.
    { intros lo hi Hall r Hr. destruct (Hrel r Hr) as (a & c & m & raw & Hin & _ & Hc).
      specialize (Hall a c m raw Hin). lia. }
    destruct H as [a c m raw Hf Ha Hc|top Htop Ha Hc|r Hr Ha Hc].
    + assert (In (Success a c m raw) modelResults) as Hin.
      { assert (In (Success a c m raw) (List.filter success modelResults)) as Hin
          by (rewrite Hf; by left).
        by apply filter_In in Hin as [Hin _]. }
      split; [exists a, c, m, raw; auto|].
      intros lo hi Hall. specialize (Hall a c m raw Hin). lia.
    + apply In_ranked in Htop as ([k t] & Hkt & ->).
      cbn [ranked Voting.answer avgConfidence fst snd] in Ha, Hc. split.
      * apply recorded_answers_keys in Hkt as (r & Hr & ->).
        destruct (Hrel r Hr) as (a & c & m & raw & Hin & Hans & _).
        exists a, c, m, raw. split; [done|]. right. congruence.
      * intros lo hi Hall. rewrite Hc.
        destruct (recorded_answers_within (Z.min lo 40) hi _ (Hrange lo hi Hall) k t Hkt)
          as [Hpos Ht].
        by apply round_div_bounds.
    + destruct (Hrel r Hr) as (a & c & m & raw & Hin & Hans & _).
      split; [exists a, c, m, raw; split; [done|left; congruence]|].
      intros lo hi Hall. rewrite Hc. by apply (Hrange lo hi Hall).
Qed.

(** *** Answers in free text *)





End VotingMore.

(** ** Server: the sweep, the books and the answers served *)

Module ServerMore.
Import Text Regex Json Invoker Voting Server.
Import VotingFacts ServerFacts Vocabulary ParserMore InvokerMore VotingMore.

(** *** The prompt *)

Lemma chars_append a b : chars (a +:+ b) = chars a ++ chars b.
Proof.
  unfold chars. induction a as [|c a IH]; [done|].
  change (String c a +:+ b) with (String c (a +:+ b)).
  cbn [list_ascii_of_string app]. by rewrite IH.
Qed.

Lemma starts_with_app_l p : forall a b,
  starts_with p a = true -> starts_with p (a ++ b) = true.
Proof.
  induction p as [|c p IH]; intros [|d a] b; cbn; try done.
  intros H. apply andb_true_iff in H as [-> H]. by apply IH.
Qed.

Lemma starts_with_self p : starts_with p p = true.
Proof. induction p as [|a p IH]; cbn; [done|]. unfold eqc. by rewrite Ascii.eqb_refl. Qed.

Lemma includes_chars_start p l : starts_with p l = true -> includes_chars p l = true.
Proof. destruct l; cbn; by intros ->. Qed.

Lemma includes_chars_app_l p a b :
  includes_chars p a = true -> includes_chars p (a ++ b) = true.
Proof.
  induction a as [|c a IH].
  - cbn [includes_chars app]. intros H. apply orb_true_iff in H as [H|H]; [|done].
    apply includes_chars_start. by apply (starts_with_app_l p []).
  - cbn [includes_chars app]. intros H.
    apply orb_true_iff in H as [H|H]; apply orb_true_iff.
    + left. by apply (starts_with_app_l p (c :: a)).
    + right. by apply IH.
Qed.

Lemma includes_chars_app_r p a b :
  includes_chars p b = true -> includes_chars p (a ++ b) = true.
Proof.
  induction a as [|c a IH]; cbn [app]; [done|]. intros H.
  cbn [includes_chars]. rewrite (IH H). apply orb_true_r.
Qed.

Lemma includes_self p : includes p p = true.
Proof. apply includes_chars_start, starts_with_self. Qed.

Lemma includes_append_l a b p : includes a p = true -> includes (a +:+ b) p = true.
Proof. unfold includes. rewrite chars_append. apply includes_chars_app_l. Qed.

Lemma includes_append_r a b p : includes b p = true -> includes (a +:+ b) p = true.
Proof. unfold includes. rewrite chars_append. apply includes_chars_app_r. Qed.

Lemma append_cons x a b : String x a +:+ b = String x (a +:+ b).
Proof. reflexivity. Qed.

Lemma append_empty a : a +:+ "" = a.
Proof. induction a as [|x a IH]; [done|]. by rewrite append_cons, IH. Qed.

Lemma append_append a b c : (a +:+ b) +:+ c = a +:+ b +:+ c.
Proof. induction a as [|x a IH]; [done|]. by rewrite !append_cons, IH. Qed.

(** the lines of the options, after the text [acc] *)
Lemma option_lines_start os : forall acc,
  exists rest,
    fold_left (fun acc opt => acc +:+ label opt +:+ ". " +:+ Voting.text opt +:+ nl) os acc
    = acc +:+ rest.
Proof.
  induction os as [|o os IH]; intros acc; cbn [fold_left].
  - exists "". by rewrite append_empty.
  - destruct (IH (acc +:+ label o +:+ ". " +:+ Voting.text o +:+ nl)) as [rest ->].
    exists ((label o +:+ ". " +:+ Voting.text o +:+ nl) +:+ rest).
    by rewrite append_append.
Qed.

Lemma option_lines_include o os : forall acc,
  In o os ->
  includes
    (fold_left (fun acc opt => acc +:+ label opt +:+ ". " +:+ Voting.text opt +:+ nl) os acc)
    (option_line o) = true.
Proof.
  induction os as [|o' os IH]; intros acc; [intros []|].
  intros [->|Hin]; cbn [fold_left]; [|by apply IH].
  destruct (option_lines_start os (acc +:+ label o +:+ ". " +:+ Voting.text o +:+ nl))
    as [rest ->].
  apply includes_append_l, includes_append_r, includes_self.
Qed.

Lemma question_included q :
  includes (buildPrompt (Structured q)) ("Question: " +:+ question q +:+ nl) = true.
Proof.
  unfold buildPrompt.
  assert (forall tail,
             includes
               (lines
                  ["You are a MikroTik certification exam expert.";
                   "";
                   "Goal: Provide the most accurate answer based on deep technical reasoning.";
                   "";
                   "INSTRUCTIONS:";
                   "1. Analyze the Question: Identify key constraints (e.g., "
                     +:+ dq +:+ "invalid" +:+ dq +:+ ", " +:+ dq +:+ "not" +:+ dq +:+ ", "
                     +:+ dq +:+ "public IP" +:+ dq +:+ ").";
                   "2. Analyze Options: Evaluate each option's technical validity.";
                   "3. Chain of Thought: Explain your step-by-step reasoning.";
                   "4. Final Output: Return the answer in strictly valid JSON.";
                   "";
                   "Question: " +:+ question q] +:+ tail)
               ("Question: " +:+ question q +:+ nl) = true) as Hq.
  { intros tail. apply includes_append_l. unfold lines. cbn [fold_right].
    do 20 apply includes_append_r. rewrite append_empty, append_append.
    apply includes_self. }
  destruct (options q) as [[|o os]|]; [apply Hq| |apply Hq].
  apply includes_append_l, Hq.
Qed.

Lemma options_included q os o :
  options q = Some os -> In o os ->
  includes (buildPrompt (Structured q)) (option_line o) = true.
Proof.
  intros Hos Hin. unfold buildPrompt. rewrite Hos.
  destruct os as [|o1 os]; [destruct Hin|].
  apply includes_append_l. do 3 apply includes_append_r.
  apply includes_append_l. by apply option_lines_include.
Qed.

#[local] Opaque callSingleModel buildPrompt.

(** *** The sweep *)

(** X14: sweeping the cache twice, the second time no earlier than the
    first, leaves the state that the second sweep alone leaves; so a sweep
    repeated at the same instant changes nothing. *)
Theorem vacuum_compose t1 t2 s : t1 <= t2 -> vacuum t2 (vacuum t1 s) = vacuum t2 s.
Proof.
  intros Ht. unfold vacuum, set_recentAnswers. cbn. f_equal.
  apply map_eq. intros k. apply option_eq. intros c.
  rewrite !map_lookup_filter_Some. cbn [snd]. unfold fresh_at. split.
  - by intros [[H1 _] H2].
  - intros [H1 H2]. split; [split; [done|lia]|done].
Qed.

Lemma vacuum_compose_example :
  vacuum 130000 (vacuum 60000 answered_once) = vacuum 130000 answered_once.
Proof. exact (vacuum_compose 60000 130000 answered_once ltac:(lia)). Defined.

(** *** The books *)

Lemma ledger_initial : ledger initial.
Proof.
  constructor; cbn; [done|lia| |done].
  intros p. rewrite lookup_empty. split; [by intros [? ?]|lia].
Qed.

Lemma ledger_vacuum now s : ledger s -> ledger (vacuum now s).
Proof. by intros [H1 H2 H3 H4]. Qed.

Lemma ledger_admitted k r t3 s :
  consistent s -> ledger s -> ledger (processQueue (enqueue k r t3 s)).
Proof.
  intros Hs [Horder Hmade Hsettled Htaken].
  destruct (live_admitted k r t3 s Hs) as (Hlive & _ & _).
  destruct (processQueue_other_fields (enqueue k r t3 s)) as (_ & _ & Hprom & Hsetl).
  pose proof (admitted_queue k r t3 s Hs) as Hqueue. cbv zeta in Hqueue.
  assert (promises (enqueue k r t3 s) = S (promises s)) as Hp by done.
  assert (settled (enqueue k r t3 s) = settled s) as Hst by done.
  rewrite Hp in Hprom. rewrite Hst in Hsetl.
  set (s' := processQueue (enqueue k r t3 s)) in *.
  assert (length (live s') = S (length (live s))) as Hlen
    by (rewrite Hlive, length_app; cbn; lia).
  constructor.
  - rewrite Hlen, Hprom. cbn [Nat.sub]. rewrite seq_S, Hlive, map_app, Horder.
    cbn [map handle]. do 2 f_equal. lia.
  - rewrite Hlen, Hprom. lia.
  - intros p. rewrite Hsetl, Hlen, Hprom. cbn [Nat.sub]. apply Hsettled.
  - rewrite Hprom. destruct Hqueue as [[Hq Hc]|(Hq & Hq' & Hc)].
    + rewrite Hq, Hc, Htaken. cbn [Nat.sub]. done.
    + rewrite Hq', Hc, Htaken, Hq. cbn [length]. lia.
Qed.

Lemma ledger_handler k r t1 t2 t3 s :
  consistent s -> ledger s -> ledger (fst (handler k r t1 t2 t3 s)).
Proof.
  intros Hs Hl.
  destruct (handler_cases k r t1 t2 t3 s)
    as [(c & _ & _ & ->)|[_ [(p & _ & ->)|(Hnone & ->)]]]; cbn [fst].
  - by apply ledger_vacuum.
  - by apply ledger_vacuum.
  - apply ledger_admitted; [by apply consistent_vacuum|by apply ledger_vacuum].
Qed.

Lemma ledger_resume api t4 t5 s :
  consistent s -> ledger s -> ledger (resume api t4 t5 s).
Proof.
  intros Hs [Horder Hmade Hsettled Htaken].
  destruct (running s) as [e|] eqn:He; [|by rewrite resume_idle].
  destruct (resume_queue api t4 t5 s e He) as (Hlive & Hq & Hc).
  destruct (resume_running api t4 t5 s e He) as (_ & _ & _ & Hprom).
  destruct (resume_settled api t4 t5 s e Hs He) as (v & Hset).
  unfold live in Horder, Hmade, Hsettled. rewrite He in Horder, Hmade, Hsettled.
  cbn [length map seq] in Horder, Hmade, Hsettled.
  injection Horder as Hhandle Horder.
  set (n := length (requestQueue s)) in *.
  constructor.
  - rewrite Hlive, Hprom, Horder. fold n. f_equal. lia.
  - rewrite Hlive, Hprom. fold n. lia.
  - intros p. rewrite Hset, Hlive, Hprom. fold n.
    rewrite lookup_insert_is_Some, Hsettled, Hhandle. lia.
  - rewrite Hc, Hq, Hprom, Htaken. fold n.
    destruct (requestQueue s) as [|e1 q] eqn:Hqueue; cbn [tail length] in *; lia.
Qed.

Lemma ledger_run evs : forall s, consistent s -> ledger s -> ledger (run evs s).
Proof.
  induction evs as [|ev evs IH]; intros s Hs Hl; [done|].
  cbn [run fold_left]. apply IH.
  - destruct ev as [k r t1 t2 t3|api t4 t5]; cbn [step].
    + by apply consistent_handler.
    + by apply consistent_resume.
  - destruct ev as [k r t1 t2 t3|api t4 t5]; cbn [step].
    + by apply ledger_handler.
    + by apply ledger_resume.
Qed.

(** X15: the server answers in the order of arrival and loses no request.
    After any sequence of requests and settlements, the handles in
    progress are the last ones made, in the order of their making, with
    the running one first; every handle made before them has settled, and
    no other has; and the request counter is the number of entries taken
    off the queue. *)
Theorem first_come_first_served evs :
  let s := run evs initial in
  map handle (live s) = seq (promises s - length (live s)) (length (live s))
  /\ (length (live s) <= promises s)%nat
  /\ (forall p, is_Some (settled s !! p) <-> (p < promises s - length (live s))%nat)
  /\ requestCounter s = Z.of_nat (promises s - length (requestQueue s)).
Proof.
  destruct (ledger_run evs initial consistent_initial ledger_initial) as [H1 H2 H3 H4].
  done.
Qed.

(** *** The answers served *)

Lemma cached_on_success api t4 t5 s e a c :
  running s = Some e -> reconcile api (rawPrompt e) = inr (a, c) ->
  recentAnswers (resume api t4 t5 s) !! key e = Some {| ce_answer := a; ts := t5 |}.
Proof.
  intros He Hok.
  destruct (resume_running api t4 t5 s e He) as (_ & Hcache & _ & _).
  destruct (complete_running api t4 t5 s e He) as (v & cache & Heq & Hout).
  rewrite Hok in Hout. destruct Hout as [-> ->].
  rewrite Hcache, Heq. cbn. apply lookup_insert_eq.
Qed.

(** X16: an answer that has been computed is served from the cache: once the
    reconciliation of the running entry has succeeded and the worker loop
    has gone on, a request for the same key whose clock readings are within
    120 seconds of the cache write is answered at once, with that answer,
    and starts no computation. *)
Theorem answer_served_from_cache api t4 t5 s e a c r t1 t2 t3 :
  running s = Some e -> reconcile api (rawPrompt e) = inr (a, c) ->
  t1 <= t2 -> t2 - t5 <= TTL_MS ->
  handler (key e) r t1 t2 t3 (resume api t4 t5 s)
  = (vacuum t1 (resume api t4 t5 s), Respond {| status := 200; body := Cached a |}).
Proof.
  intros He Hok Ht Hfresh.
  pose proof (cached_on_success api t4 t5 s e a c He Hok) as Hc.
  assert (recentAnswers (vacuum t1 (resume api t4 t5 s)) !! key e
          = Some {| ce_answer := a; ts := t5 |}) as Hv.
  { apply vacuum_lookup. split; [done|]. cbn [ts]. lia. }
  destruct (handler_cases (key e) r t1 t2 t3 (resume api t4 t5 s))
    as [(c' & Hc' & _ & ->)|[Hstale _]].
  - rewrite Hv in Hc'. by injection Hc' as <-.
  - specialize (Hstale _ Hv). cbn [ts] in Hstale. lia.
Qed.

Lemma answer_served_from_cache_example :
  handler "q" (Plain "again") 60000 60000 60000
    (resume (service_answering "B" "90") 1500 1500
       (run [Ask "q" (Plain "q") 0 0 0] initial))
  = (vacuum 60000
       (resume (service_answering "B" "90") 1500 1500
          (run [Ask "q" (Plain "q") 0 0 0] initial)),
     Respond {| status := 200; body := Cached "B" |}).
Proof.
  assert (running (run [Ask "q" (Plain "q") 0 0 0] initial)
          = Some {| key := "q"; rawPrompt := Plain "q"; handle := 0; startTime := 0 |})
    as He by (vm_compute; reflexivity).
  assert (reconcile (service_answering "B" "90") (Plain "q") = inr ("B", 90)) as Hok
    by (vm_compute; reflexivity).
  exact (answer_served_from_cache (service_answering "B" "90") 1500 1500 _ _ "B" 90
           (Plain "again") 60000 60000 60000 He Hok ltac:(lia) ltac:(unfold TTL_MS; lia)).
Defined.

(** an answer that comes out of the reconciliation is not empty, and its
    confidence is a percentage *)
Lemma reconcile_well_formed api rawPrompt a c :
  reconcile api rawPrompt = inr (a, c) -> Text.truthy a = true /\ 0 <= c <= 100.
Proof.
  unfold reconcile, ENSEMBLE_MODE.
  destruct (fst (callGeminiEnsemble _ _ _)) as [message|v] eqn:Hv;
    [intros H; discriminate H|].
  intros [= <- <-]. eapply ensemble_bounds; [|exact Hv].
  intros model answer confidence m raw _ Hi. unfold invoke in Hi.
  apply callSingleModel_Success in Hi as (_ & Ha & Hc & _). done.
Qed.

Lemma wholesome_initial : wholesome initial.
Proof. split; intros ? ?; cbn; by rewrite lookup_empty. Qed.

Lemma wholesome_handler k r t1 t2 t3 s :
  wholesome s -> wholesome (fst (handler k r t1 t2 t3 s)).
Proof.
  intros [Hset Hcache].
  assert (wholesome (vacuum t1 s)) as Hv.
  { split; [exact Hset|]. intros k' c Hc. apply vacuum_lookup in Hc as [Hc _]. eauto. }
  destruct (handler_cases k r t1 t2 t3 s)
    as [(c & _ & _ & ->)|[_ [(p & _ & ->)|(Hnone & ->)]]]; cbn [fst]; [done..|].
  destruct (processQueue_other_fields (enqueue k r t3 (vacuum t1 s)))
    as (Hc & _ & _ & Hs).
  split.
  - intros p v. rewrite Hs. apply Hv.
  - intros k' c. rewrite Hc. apply Hv.
Qed.

Lemma wholesome_resume api t4 t5 s : wholesome s -> wholesome (resume api t4 t5 s).
Proof.
  intros [Hset Hcache].
  destruct (running s) as [e|] eqn:He; [|by rewrite resume_idle].
  destruct (resume_running api t4 t5 s e He) as (_ & Hc & Hs & _).
  destruct (complete_running api t4 t5 s e He) as (v & cache & Heq & Hout).
  split.
  - intros p w. rewrite Hs, Heq. unfold settle. cbn.
    destruct (settled s !! handle e) eqn:Hh; [apply Hset|].
    destruct (decide (handle e = p)) as [<-|Hne];
      [rewrite lookup_insert_eq|rewrite lookup_insert_ne by done; apply Hset].
    intros [= ->].
    destruct (reconcile api (rawPrompt e)) as [m|[a c]] eqn:Hr;
      destruct Hout as [Hw _]; [discriminate Hw|].
    injection Hw as ->. cbn. by apply (reconcile_well_formed api (rawPrompt e)).
  - intros k c. rewrite Hc, Heq. cbn.
    destruct (reconcile api (rawPrompt e)) as [m|[a c']] eqn:Hr;
      destruct Hout as [_ ->]; [apply Hcache|].
    destruct (decide (key e = k)) as [<-|Hne];
      [rewrite lookup_insert_eq|rewrite lookup_insert_ne by done; apply Hcache].
    intros [= <-]. cbn. by apply (reconcile_well_formed api (rawPrompt e) a c').
Qed.

Lemma wholesome_run evs : forall s, wholesome s -> wholesome (run evs s).
Proof.
  induction evs as [|ev evs IH]; intros s Hs; [done|].
  cbn [run fold_left]. apply IH.
  destruct ev as [k r t1 t2 t3|api t4 t5]; cbn [step].
  - by apply wholesome_handler.
  - by apply wholesome_resume.
Qed.

(** X17: the server never resolves or caches an empty answer.  After any
    sequence of requests and settlements, whatever the model service has
    done, every handle that has resolved carries an answer that is not
    empty and a confidence between 0 and 100, and no cache entry holds an
    empty answer. *)
Theorem never_an_empty_answer evs :
  let s := run evs initial in
  (forall p v, settled s !! p = Some (Resolved v) ->
               Text.truthy (a_answer v) = true /\ 0 <= a_confidence v <= 100)
  /\ (forall k c, recentAnswers s !! k = Some c -> Text.truthy (ce_answer c) = true).
Proof. exact (wholesome_run evs initial wholesome_initial). Qed.

(** *** Progress *)

Lemma settlements_drain settlements : forall s,
  consistent s -> Forall is_settlement settlements ->
  length settlements = length (live s) ->
  live (run settlements s) = [].
Proof.
  induction settlements as [|ev evs IH]; intros s Hs Hall Hlen.
  - cbn [run fold_left]. by destruct (live s).
  - apply Forall_cons in Hall as [Hev Hall].
    destruct ev as [k r t1 t2 t3|api t4 t5]; [destruct Hev|].
    cbn [run fold_left step]. apply IH; [by apply consistent_resume|done|].
    destruct (running s) as [e|] eqn:He.
    + destruct (resume_queue api t4 t5 s e He) as (Hlive & _).
      rewrite Hlive. unfold live in Hlen. rewrite He in Hlen. cbn [length] in Hlen. lia.
    + rewrite (idle_no_live s Hs He) in Hlen. discriminate Hlen.
Qed.

(** X21: the queue drains.  From any state that the server reaches, as many
    settlements as there are computations in progress, whatever their
    outcomes, leave no computation in progress: every promise made has
    settled and the worker loop has stopped. *)
Theorem queue_drains evs settlements :
  Forall is_settlement settlements ->
  length settlements = length (live (run evs initial)) ->
  let s := run settlements (run evs initial) in
  live s = [] /\ isProcessing s = false
  /\ forall p, (p < promises s)%nat -> is_Some (settled s !! p).
Proof.
  intros Hall Hlen.
  pose proof (consistent_run evs initial consistent_initial) as Hs.
  pose proof (settlements_drain settlements _ Hs Hall Hlen) as Hlive.
  pose proof (consistent_run settlements _ Hs) as Hs'.
  pose proof (ledger_run settlements _ Hs
                (ledger_run evs initial consistent_initial ledger_initial)) as Hl.
  cbv zeta. split; [done|]. split.
  - destruct (isProcessing _) eqn:Hp; [|done].
    apply (worker_busy _ Hs') in Hp as [e He].
    unfold live in Hlive. by rewrite He in Hlive.
  - intros p Hp. apply (settled_first _ Hl). rewrite Hlive. cbn [length]. lia.
Qed.

Lemma queue_drains_example :
  live (run [Settle service_down 9000 9000; Settle (service_answering "B" "90") 9500 9500]
          (run [Ask "q" (Plain "q") 0 0 0; Ask "r" (Plain "r") 10 10 10] initial)) = [].
Proof.
  assert (length [Settle service_down 9000 9000;
                  Settle (service_answering "B" "90") 9500 9500]
          = length (live (run [Ask "q" (Plain "q") 0 0 0; Ask "r" (Plain "r") 10 10 10]
                            initial))) as Hlen by (vm_compute; reflexivity).
  assert (Forall is_settlement
            [Settle service_down 9000 9000;
             Settle (service_answering "B" "90") 9500 9500]) as Hall
    by (repeat constructor).
  exact (proj1 (queue_drains [Ask "q" (Plain "q") 0 0 0; Ask "r" (Plain "r") 10 10 10]
                  [Settle service_down 9000 9000;
                   Settle (service_answering "B" "90") 9500 9500] Hall Hlen)).
Defined.

(** *** Responses *)

(** what a caller receives *)
Lemma responses_of_wholesome s :
  wholesome s ->
  (forall k r t1 t2 t3 h,
      snd (handler k r t1 t2 t3 s) = Respond h ->
      status h = 200 /\ exists a, body h = Cached a /\ Text.truthy a = true)
  /\ (forall p h,
        response (AwaitOwn p) s = Some h \/ response (AwaitShared p) s = Some h ->
        (status h = 200 /\ exists a, answer_of h = Some a /\ Text.truthy a = true)
        \/ (status h = 500 /\ exists m, body h = Error m /\ Text.truthy m = true)).
Proof.
  intros [Hset Hcache]. split.
  - intros k r t1 t2 t3 h.
    destruct (handler_cases k r t1 t2 t3 s)
      as [(c & Hc & _ & ->)|[_ [(p & _ & ->)|(Hnone & ->)]]]; cbn [snd];
      [|intros H; discriminate H..].
    intros [= <-]. split; [done|]. exists (ce_answer c). split; [done|].
    apply vacuum_lookup in Hc as [Hc _]. by apply (Hcache k).
  - assert (forall m, Text.truthy (error_message m) = true) as Herr.
    { intros m. unfold error_message. by destruct (Text.truthy m) eqn:Hm. }
    intros p h [H|H]; cbn [response] in H;
      (destruct (settled s !! p) as [[v|m]|] eqn:Hp; [| |discriminate H]);
      injection H as <-.
    + left. split; [done|]. exists (a_answer v). split; [done|]. by apply (Hset p).
    + right. split; [done|]. eauto.
    + left. split; [done|]. exists (a_answer v). split; [done|]. by apply (Hset p).
    + right. split; [done|]. eauto.
Qed.

(** X22: every response to POST /ask is well formed.  In any state that
    the server reaches, a response given at once is either that of a body
    that cannot be read or holds no prompt, with status 400, an error
    message that is not empty and the state left as it is, or that of a
    prompt whose answer is cached, with status 200 and a cached answer that
    is not empty; and a caller whose promise has settled receives status
    200 with an answer that is not empty, or status 500 with an error
    message that is not empty. *)
Theorem every_response_well_formed evs :
  let s := run evs initial in
  (forall b t1 t2 t3 h,
      snd (post_ask b t1 t2 t3 s) = Respond h ->
      match b with
      | Prompt _ _ =>
          status h = 200 /\ exists a, body h = Cached a /\ Text.truthy a = true
      | _ =>
          status h = 400 /\ fst (post_ask b t1 t2 t3 s) = s
          /\ exists m, body h = Error m /\ Text.truthy m = true
      end)
  /\ (forall p h,
        response (AwaitOwn p) s = Some h \/ response (AwaitShared p) s = Some h ->
        (status h = 200 /\ exists a, answer_of h = Some a /\ Text.truthy a = true)
        \/ (status h = 500 /\ exists m, body h = Error m /\ Text.truthy m = true)).
Proof.
  intros s.
  destruct (responses_of_wholesome s (wholesome_run evs initial wholesome_initial))
    as [Hnow Hlater].
  split; [|exact Hlater].
  intros [m| |k r] t1 t2 t3 h; cbn [post_ask fst snd].
  - intros [= <-]. split; [done|]. split; [done|]. eexists. split; [done|].
    unfold invalid_json. by destruct (Text.truthy m) eqn:Hm.
  - intros [= <-]. split; [done|]. split; [done|]. eexists. split; done.
  - apply Hnow.
Qed.

(** *** What the models are asked *)

(** X18: a question sent as a plain text does not reach the models: the
    prompt built for it is the same for every text, and so is the outcome
    of its reconciliation.  The prompt of a structured question holds the
    line of the question and one line for each of its options. *)
Theorem prompt_contents :
  (forall api s s',
      buildPrompt (Plain s) = buildPrompt (Plain s')
      /\ reconcile api (Plain s) = reconcile api (Plain s'))
  /\ (forall q,
        includes (buildPrompt (Structured q)) ("Question: " +:+ question q +:+ nl) = true)
  /\ (forall q os o,
        options q = Some os -> In o os ->
        includes (buildPrompt (Structured q)) (option_line o) = true).
Proof.
  split; [done|]. split; [apply question_included|apply options_included].
Qed.

End ServerMore.

(** ** Chess move server: only legal moves *)

Module ChessFacts.
Import Text Regex Json Chess.

#[local] Opaque extract_move.

Lemma played_legal legalMovesUCI responseText pick move :
  (pick < length legalMovesUCI)%nat ->
  choose_move legalMovesUCI responseText pick = Played move ->
  exists m, move = Some m /\ In m legalMovesUCI.
Proof.
  intros Hpick. unfold choose_move.
  destruct legalMovesUCI as [|m0 ms] eqn:Hlegal; [intros H; discriminate H|].
  rewrite <- Hlegal in *. clear Hlegal.
  destruct responseText as [responseText|]; [|intros H; discriminate H].
  destruct (extract_move responseText) as [m|]; [|intros H; discriminate H].
  destruct (bool_decide (m ∈ legalMovesUCI)) eqn:Hm.
  - intros [= <-]. exists m. split; [done|].
    apply bool_decide_eq_true in Hm. by apply list_elem_of_In.
  - intros [= <-]. destruct (lookup_lt_is_Some_2 legalMovesUCI pick Hpick) as [m' Hm'].
    exists m'. split; [done|]. apply list_elem_of_In. by eapply list_elem_of_lookup_2.
Qed.

(** X19: the chess server never answers with an illegal move.  With the
    random index inside the list of legal moves, as the floor of a random
    number below one times the length is, a move that is played is one of
    the legal moves of the position; the move of the model is played when
    it is legal, after its cleaning; and no move is played when there is no
    legal move. *)
Theorem only_legal_moves legalMovesUCI responseText pick :
  (pick < length legalMovesUCI)%nat ->
  (forall move,
      choose_move legalMovesUCI responseText pick = Played move ->
      exists m, move = Some m /\ In m legalMovesUCI)
  /\ (forall text m,
        responseText = Some text -> extract_move text = Some m -> In m legalMovesUCI ->
        choose_move legalMovesUCI responseText pick = Played (Some m))
  /\ (forall response pick', choose_move [] response pick' = NoLegalMoves).
Proof.
  intros Hpick. split; [|split].
  - intros move. by apply played_legal.
  - intros text m -> Hm Hin. unfold choose_move. rewrite Hm.
    destruct legalMovesUCI as [|m0 ms] eqn:Hlegal; [destruct Hin|].
    rewrite bool_decide_eq_true_2; [done|]. by apply list_elem_of_In.
  - done.
Qed.

#[local] Transparent extract_move.

Lemma only_legal_moves_example :
  choose_move ["e2e4"; "g1f3"]
    (Some ("{" +:+ dq +:+ "move" +:+ dq +:+ ": " +:+ dq +:+ "E2-E4" +:+ dq +:+ "}")) 1
  = Played (Some "e2e4").
Proof.
  assert (extract_move
            ("{" +:+ dq +:+ "move" +:+ dq +:+ ": " +:+ dq +:+ "E2-E4" +:+ dq +:+ "}")
          = Some "e2e4") as Hm by (vm_compute; reflexivity).
  assert (In "e2e4" ["e2e4"; "g1f3"]) as Hin by (by left).
  assert (1 < length ["e2e4"; "g1f3"])%nat as Hpick by (cbn; lia).
  exact (proj1 (proj2 (only_legal_moves ["e2e4"; "g1f3"] _ 1 Hpick)) _ "e2e4"
           eq_refl Hm Hin).
Defined.

End ChessFacts.
